(** * PAL-CRT, NES front end: the composite-signal modulator [pal_nes.c]

    A shallow embedding of [square_sample], [setup_field] and
    [pal_modulate], and the properties of the encoder proved on it.

    Conventions.
    - A C [int] is a [Z].  [/] and [%] are C's truncating [Z.quot] and
      [Z.rem]; [>>] is the arithmetic [Z.shiftr]; [&] is [Z.land].  The
      arithmetic that depends on the inputs (the modulation path, the
      index of a fetch, the burst angle) is also given with every
      intermediate result checked against the 32-bit range ([Checked],
      [CheckedFetch], [CheckedBurst]), and shown to stay inside it on the
      ranges of inputs ([int_ranges]) that the theorems on the encoder
      assume; [Wrapped] gives the index of a fetch as a two's complement
      machine computes it outside them.
    - [signed char analog[]] is a [list Z] of samples; a store narrows
      the [int] it is given to 8 bits ([schar]); an access outside the
      array has no defined behaviour and makes the operation fail
      ([None]).
    - [pal_core.h] is not part of the translation unit: its constants and
      [pal_sincos14] are the fields of the class [PalCore]. *)

From Stdlib Require Import ZArith Lia Bool List.
From stdpp Require Import base option list.

Local Open Scope Z_scope.

(** ** Arrays *)

(** [tbl[i]] for an [int] table. *)
Definition tbl_get {A} (tbl : list A) (i : Z) : option A :=
  if i <? 0 then None else tbl !! Z.to_nat i.

(** Conversion of an [int] to [signed char] (two's complement wrap). *)
Definition schar (z : Z) : Z := (z + 128) mod 256 - 128.

(** [a[i]] and [a[i] = x] on a [signed char] buffer. *)
Definition load (a : list Z) (i : Z) : option Z := tbl_get a i.

Definition store (a : list Z) (i x : Z) : option (list Z) :=
  if (0 <=? i) && (i <? Z.of_nat (length a))
  then Some (<[Z.to_nat i := schar x]> a)
  else None.

(** [m[i][j] = x] on a two-dimensional [int] table seen as a map from
    its indices. *)
Definition upd2 (m : Z → Z → Z) (i j x : Z) : Z → Z → Z :=
  fun i' j' => if (i' =? i) && (j' =? j) then x else m i' j'.

(** ** Loops *)

(** [k] iterations of [body], the counter starting at [i]. *)
Fixpoint iterate {S : Type} (body : Z → S → option S) (k : nat) (i : Z) (s : S)
  : option S :=
  match k with
  | O => Some s
  | Datatypes.S k' => s' ← body i s; iterate body k' (i + 1) s'
  end.

(** [for (i = lo; i < hi; i++) body] *)
Definition for_range {S : Type} (lo hi : Z) (body : Z → S → option S) (s : S)
  : option S :=
  iterate body (Z.to_nat (hi - lo)) lo s.

(** ** The pixel modulator *)

(** amplified IRE = ((mV / 7.143) - 312 / 7.143) * 1024 *)
Definition IRE : list Z :=
  [ -12042; 0;     34406;  81427;
    -17203; -8028; 19497;  57342;
    43581;  75693; 112965; 112965;
    26951;  52181; 83721;  83721 ].

(** The octal masks 0300, 0200, 0600, 0400, 0500, 0100. *)
Definition active : list Z := [ 192; 128; 384; 256; 320; 64 ].

Definition square_sample (p phase : Z) : option Z :=
  let hue := Z.land p 0x0f in
  if 0x0e <=? hue then Some 0
  else
    let v := Z.b2z (Z.rem (hue + phase) 12 <? 6) in
    a ← tbl_get active (Z.rem (Z.shiftr phase 1) 6);
    let e := Z.b2z (0 <? Z.land (Z.land p 448) a) in
    let l := if hue =? 0x00 then 1 else if hue =? 0x0d then 0 else v in
    tbl_get IRE (Z.shiftl l 3 + Z.shiftl e 2 + Z.land (Z.shiftr p 4) 3).

(** ** What [pal_core.h] supplies *)

Class PalCore := {
  PAL_HRES : Z;      (* samples per line *)
  PAL_VRES : Z;      (* lines per field *)
  PAL_TOP : Z;       (* first line with active video *)
  PAL_LINES : Z;     (* number of lines with active video *)
  PAL_CB_FREQ : Z;   (* samples per subcarrier cycle *)
  CB_CYCLES : Z;     (* cycles of colour burst *)
  LINE_BEG : Z;
  SYNC_BEG : Z;
  BW_BEG : Z;
  CB_BEG : Z;
  AV_BEG : Z;
  AV_LEN : Z;
  WHITE_LEVEL : Z;
  BURST_LEVEL : Z;
  BLACK_LEVEL : Z;
  BLANK_LEVEL : Z;
  SYNC_LEVEL : Z;
  (* pal_sincos14(&s, &c, n) as the pair (s, c) *)
  pal_sincos14 : Z → Z * Z
}.

Record PAL_CRT := mkCRT {
  analog : list Z;
  black_point : Z;
  white_point : Z;
  ccf : Z → Z → Z;
  cc_period : Z
}.

Record PAL_SETTINGS := mkSettings {
  data : list Z;
  w : Z;
  h : Z;
  hue : Z;
  field_initialized : Z
}.

Section Encoder.
Context `{PalCore}.

(** ** The field skeleton *)

(** [while (t < limit) line[t++] = lvl;] on the line at [base]; returns
    the buffer and the final [t]. *)
Definition fill (base limit lvl : Z) (st : list Z * Z) : option (list Z * Z) :=
  let '(a, t) := st in
  a' ← for_range t limit (fun i a => store a (base + i) lvl) a;
  Some (a', Z.max t limit).

Definition setup_line (n : Z) (a : list Z) : option (list Z) :=
  let base := n * PAL_HRES in
  let t := LINE_BEG in
  if (n <=? 3) || ((7 <=? n) && (n <=? 9)) then
    (* equalizing pulses - small blips of sync, mostly blank *)
    st ← fill base (4 * PAL_HRES ÷ 100) SYNC_LEVEL (a, t);
    st ← fill base (50 * PAL_HRES ÷ 100) BLANK_LEVEL st;
    st ← fill base (54 * PAL_HRES ÷ 100) SYNC_LEVEL st;
    st ← fill base (100 * PAL_HRES ÷ 100) BLANK_LEVEL st;
    Some st.1
  else if (4 <=? n) && (n <=? 6) then
    (* vertical sync pulse - small blips of blank, mostly sync *)
    st ← fill base (46 * PAL_HRES ÷ 100) SYNC_LEVEL (a, t);
    st ← fill base (50 * PAL_HRES ÷ 100) BLANK_LEVEL st;
    st ← fill base (96 * PAL_HRES ÷ 100) SYNC_LEVEL st;
    st ← fill base (100 * PAL_HRES ÷ 100) BLANK_LEVEL st;
    Some st.1
  else
    (* prerender/postrender/video scanlines *)
    st ← fill base SYNC_BEG BLANK_LEVEL (a, t);
    st ← fill base BW_BEG SYNC_LEVEL st;
    st ← fill base PAL_HRES BLANK_LEVEL st;
    Some st.1.

Definition setup_field (a : list Z) : option (list Z) :=
  for_range 0 PAL_VRES setup_line a.

(** ** The line composer *)

(** [bsign[y] = ((y & 1) ? -1 : 1)] *)
Definition bsign_of (y : Z) : Z := if Z.land y 1 =? 0 then 1 else -1.

(** The value stored in [ccburst[y][x]]. *)
Definition ccburst_of (hue y x : Z) : Z :=
  let vert := y * (360 ÷ 6) in
  let n := vert + hue + x * 90 + 135 in
  Z.shiftr (pal_sincos14 ((n + bsign_of y * 60) * 8192 ÷ 180)).1 10.

(** The tables [bsign[6]] and [ccburst[6][4]] after the first loop. *)
Definition bsign_tbl : list Z := bsign_of <$> seqZ 0 6.

Definition ccburst_tbl (hue : Z) : list (list Z) :=
  (fun y => ccburst_of hue y <$> seqZ 0 4) <$> seqZ 0 6.

(** Lines 162-168: the voltage of one pixel at one phase. *)
Definition pixel_ire (bp wp p phase : Z) : option Z :=
  let ire := BLACK_LEVEL + bp in
  s0 ← square_sample p (phase + 0);
  s1 ← square_sample p (phase + 1);
  s2 ← square_sample p (phase + 2);
  s3 ← square_sample p (phase + 3);
  let ire := ire + s0 + s1 + s2 + s3 in
  Some (Z.shiftr (ire * wp ÷ 110) 12).

(** The body of the colour-burst loop; the state is the buffer and
    [iccf]. *)
Definition burst_body (ccburst : list (list Z)) (base n : Z) (t : Z)
    (st : list Z * (Z → Z → Z)) : option (list Z * (Z → Z → Z)) :=
  let '(a, iccf) := st in
  row ← tbl_get ccburst (Z.rem n 6);
  cb ← tbl_get row (Z.land t 3);
  a' ← store a (base + t) (Z.shiftr (BLANK_LEVEL + cb * BURST_LEVEL) 5);
  r ← load a' (base + t);
  Some (a', upd2 iccf (Z.rem n 6) (Z.land t 3) r).

(** The body of the active-video loop; the state is the buffer and
    [phase]. *)
Definition active_body (v : PAL_CRT) (s : PAL_SETTINGS) (destw sy xo yo y : Z)
    (x : Z) (st : list Z * Z) : option (list Z * Z) :=
  let '(a, phase) := st in
  p ← tbl_get (data s) ((x * w s) ÷ destw + sy);
  ire ← pixel_ire (black_point v) (white_point v) p phase;
  a' ← store a ((x + xo) + (y + yo) * PAL_HRES) ire;
  Some (a', phase + 3).

(** [sy] as computed and as clamped. *)
Definition source_row (s : PAL_SETTINGS) (desth y : Z) : Z := (y * h s) ÷ desth.

Definition clamp_row (s : PAL_SETTINGS) (sy : Z) : Z :=
  let sy := if h s <=? sy then h s else sy in
  if sy <? 0 then 0 else sy.

(** [phase] at the start of line [n]. *)
Definition line_phase (bsign : list Z) (n : Z) : option Z :=
  b ← tbl_get bsign (Z.rem n 6);
  Some (Z.rem n 12 * 2 + (if b =? 1 then 6 else 0)).

(** The body of the loop over the output lines. *)
Definition line_body (v : PAL_CRT) (s : PAL_SETTINGS)
    (bsign : list Z) (ccburst : list (list Z)) (destw desth xo yo : Z)
    (y : Z) (st : list Z * (Z → Z → Z)) : option (list Z * (Z → Z → Z)) :=
  let '(a, iccf) := st in
  let sy := clamp_row s (source_row s desth y) in
  let n := y + yo in
  let base := n * PAL_HRES in
  a ← for_range BW_BEG CB_BEG (fun t a => store a (base + t) SYNC_LEVEL) a;
  st ← for_range CB_BEG (CB_BEG + CB_CYCLES * PAL_CB_FREQ)
         (burst_body ccburst base n) (a, iccf);
  let sy := sy * w s in
  phase ← line_phase bsign n;
  st' ← for_range 0 destw (active_body v s destw sy xo yo y) (st.1, phase);
  Some (st'.1, st.2).

(** The last loop: [v->ccf[n][x] = iccf[n][x] << 7]. *)
Definition export_ccf (iccf ccf0 : Z → Z → Z) : Z → Z → Z :=
  foldl (fun m x =>
           foldl (fun m n => upd2 m n x (Z.shiftl (iccf n x) 7)) m (seqZ 0 6))
        ccf0 (seqZ 0 4).

(** [pal_modulate(v, s)].  [iccf0] is the indeterminate initial content
    of the local table [iccf]. *)
Definition pal_modulate (iccf0 : Z → Z → Z) (v : PAL_CRT) (s : PAL_SETTINGS)
  : option (PAL_CRT * PAL_SETTINGS) :=
  let destw := AV_LEN in
  let desth := PAL_LINES in
  vs ← (if field_initialized s =? 0
        then a ← setup_field (analog v);
             Some (mkCRT a (black_point v) (white_point v) (ccf v) (cc_period v),
                   mkSettings (data s) (w s) (h s) (hue s) 1)
        else Some (v, s));
  let '(v, s) := vs in
  let bsign := bsign_tbl in
  let ccburst := ccburst_tbl (hue s) in
  let xo := AV_BEG in
  let yo := PAL_TOP in
  (* align signal *)
  let xo := Z.land xo (Z.lnot 3) in
  st ← for_range 0 desth (line_body v s bsign ccburst destw desth xo yo)
         (analog v, iccf0);
  Some (mkCRT st.1 (black_point v) (white_point v)
              (export_ccf st.2 (ccf v)) 6,
        s).

End Encoder.


(** ** The modulation path in 32-bit arithmetic *)

(** The same computations, every [int] operation failing when its result
    is not an [int]. *)
Module Checked.

Definition INT_MIN : Z := -2147483648.
Definition INT_MAX : Z := 2147483647.

Definition int (z : Z) : option Z :=
  if (INT_MIN <=? z) && (z <=? INT_MAX) then Some z else None.

Definition add (a b : Z) : option Z := int (a + b).
Definition mul (a b : Z) : option Z := int (a * b).
Definition div (a b : Z) : option Z := if b =? 0 then None else int (a ÷ b).
Definition shl (a k : Z) : option Z := int (Z.shiftl a k).

Definition square_sample (p phase : Z) : option Z :=
  let hue := Z.land p 0x0f in
  if 0x0e <=? hue then Some 0
  else
    hp ← add hue phase;
    let v := Z.b2z (Z.rem hp 12 <? 6) in
    a ← tbl_get active (Z.rem (Z.shiftr phase 1) 6);
    let e := Z.b2z (0 <? Z.land (Z.land p 448) a) in
    let l := if hue =? 0x00 then 1 else if hue =? 0x0d then 0 else v in
    l3 ← shl l 3;
    e2 ← shl e 2;
    i ← add l3 e2;
    i ← add i (Z.land (Z.shiftr p 4) 3);
    tbl_get IRE i.

Section Path.
Context `{PalCore}.

Definition pixel_ire (bp wp p phase : Z) : option Z :=
  ire ← add BLACK_LEVEL bp;
  ph ← add phase 0;
  s0 ← square_sample p ph;
  ire ← add ire s0;
  ph ← add phase 1;
  s1 ← square_sample p ph;
  ire ← add ire s1;
  ph ← add phase 2;
  s2 ← square_sample p ph;
  ire ← add ire s2;
  ph ← add phase 3;
  s3 ← square_sample p ph;
  ire ← add ire s3;
  m ← mul ire wp;
  q ← div m 110;
  Some (Z.shiftr q 12).

End Path.

End Checked.

(** The index arithmetic of the loop over the lines, checked in the same
    way: [sy = (y * s->h) / desth], its clamping, [sy *= s->w] and the
    index [((x * s->w) / destw) + sy] of the pixel fetched. *)
Module CheckedFetch.

Definition clamp (hh sy : Z) : Z :=
  let sy := if hh <=? sy then hh else sy in
  if sy <? 0 then 0 else sy.

Definition fetch (s : PAL_SETTINGS) (destw desth y x : Z) : option Z :=
  m ← Checked.mul y (h s);
  sy ← Checked.div m desth;
  let sy := clamp (h s) sy in
  sy ← Checked.mul sy (w s);
  m ← Checked.mul x (w s);
  c ← Checked.div m destw;
  Checked.add c sy.

End CheckedFetch.

(** The computation of the burst angle, checked in the same way: the
    argument [(n + bsign[y] * 60) * 8192 / 180] of [pal_sincos14], with
    [n = vert + s->hue + x * 90 + 135] and [vert = y * (360 / 6)]. *)
Module CheckedBurst.

Definition angle (hue y x : Z) : option Z :=
  vert ← Checked.mul y (360 ÷ 6);
  n ← Checked.add vert hue;
  t ← Checked.mul x 90;
  n ← Checked.add n t;
  n ← Checked.add n 135;
  b ← Checked.mul ((if Z.land y 1 =? 0 then 1 else -1)) 60;
  n ← Checked.add n b;
  m ← Checked.mul n 8192;
  Checked.div m 180.

End CheckedBurst.

(** The index arithmetic of a fetch as a two's complement machine
    carries it out, every [int] result wrapped to 32 bits. *)
Module Wrapped.

Definition int (z : Z) : Z := (z + 2147483648) mod 4294967296 - 2147483648.

Definition source_row (s : PAL_SETTINGS) (desth y : Z) : Z :=
  int (int (y * h s) ÷ desth).

Definition fetch (s : PAL_SETTINGS) (destw desth y x : Z) : Z :=
  let sy := CheckedFetch.clamp (h s) (source_row s desth y) in
  let sy := int (sy * w s) in
  int (int (int (x * w s) ÷ destw) + sy).

End Wrapped.

(** ** Vocabulary of the statements *)

(** [written a a' base lo hi F]: [a'] is [a] with the samples [F t]
    stored at [base + t] for [lo <= t < hi]. *)
Record written (a a' : list Z) (base lo hi : Z) (F : Z → Z) : Prop := {
  wr_length : length a' = length a;
  wr_in : ∀ t, lo ≤ t < hi → load a' (base + t) = Some (schar (F t));
  wr_out : ∀ i, ¬ (base + lo ≤ i < base + hi) → load a' i = load a i
}.

(** The emphasis bits of a pixel code, as the source names them:
    red 0200, green 0100, blue 0400; 0700 is the three of them. *)
Definition EMPH_RED : Z := 128.
Definition EMPH_GREEN : Z := 64.
Definition EMPH_BLUE : Z := 256.
Definition EMPH_MASK : Z := 448.

(** The table index [(l << 3) | (e << 2) | luma]. *)
Definition ire_index (l e luma : Z) : Z :=
  Z.lor (Z.shiftl l 3) (Z.lor (Z.shiftl e 2) luma).

(** The luma polarity [(hue + phase) mod 12 < 6]. *)
Definition polarity (hue phase : Z) : Z :=
  Z.b2z (bool_decide ((hue + phase) mod 12 < 6)).

(** Whether the emphasis bits of [p] meet the mask [m]. *)
Definition emphasized (p m : Z) : Z :=
  Z.b2z (bool_decide (Z.land (Z.land p EMPH_MASK) m ≠ 0)).

(** The luma bits of a pixel code. *)
Definition luma_bits (p : Z) : Z := Z.land (Z.shiftr p 4) 3.

(** The two halves of [IRE]: the row read when the polarity index is 0
    (hue 0x0d: sync black) and the one read when it is 1 (hue 0x00:
    peak white). *)
Definition IRE_low_row : list Z := take 8 IRE.
Definition IRE_high_row : list Z := drop 8 IRE.

Section Geometry.
Context `{PalCore}.

(** The end of the colour-burst window and the aligned start of the
    active-video window ([xo] after [xo & ~3]). *)
Definition CB_END : Z := CB_BEG + CB_CYCLES * PAL_CB_FREQ.
Definition AV_X0 : Z := Z.land AV_BEG (Z.lnot 3).

(** [k]% of the line width, as [setup_field] computes it. *)
Definition pct (k : Z) : Z := k * PAL_HRES ÷ 100.

(** What the encoder takes for granted about [pal_core.h]: the windows
    of a line follow each other inside the line, the active lines are
    lines of the field, and the sync and blanking levels are
    [signed char] values. *)
Record core_wf : Prop := {
  wf_hres : 0 < PAL_HRES;
  wf_line_beg : LINE_BEG = 0;
  wf_sync_beg : 0 ≤ SYNC_BEG;
  wf_bw_beg : SYNC_BEG ≤ BW_BEG;
  wf_cb_beg : BW_BEG ≤ CB_BEG;
  wf_cb_end : CB_BEG ≤ CB_END;
  wf_av_beg : CB_END ≤ AV_X0;
  wf_av_len : 0 < AV_LEN;
  wf_av_end : AV_X0 + AV_LEN ≤ PAL_HRES;
  wf_top : 0 ≤ PAL_TOP;
  wf_lines : 0 < PAL_LINES;
  wf_bot : PAL_TOP + PAL_LINES ≤ PAL_VRES;
  wf_sync_level : -128 ≤ SYNC_LEVEL ≤ 127;
  wf_blank_level : -128 ≤ BLANK_LEVEL ≤ 127
}.

(** The three categories of lines. *)
Definition equalizing (n : Z) : bool := (n <=? 3) || ((7 <=? n) && (n <=? 9)).
Definition vertical_sync (n : Z) : bool := (4 <=? n) && (n <=? 6).

(** The sync windows of an equalizing line, the blanking windows of a
    vertical-sync line and the sync pulse of any other line. *)
Definition eq_window (t : Z) : bool :=
  ((pct 0 <=? t) && (t <? pct 4)) || ((pct 50 <=? t) && (t <? pct 54)).
Definition vs_window (t : Z) : bool :=
  ((pct 46 <=? t) && (t <? pct 50)) || ((pct 96 <=? t) && (t <? pct 100)).
Definition hsync_window (t : Z) : bool := (SYNC_BEG <=? t) && (t <? BW_BEG).

(** The sample of line [n] at [t] in the field skeleton. *)
Definition skeleton (n t : Z) : Z :=
  if equalizing n then (if eq_window t then SYNC_LEVEL else BLANK_LEVEL)
  else if vertical_sync n then (if vs_window t then BLANK_LEVEL else SYNC_LEVEL)
  else (if hsync_window t then SYNC_LEVEL else BLANK_LEVEL).

(** The number of maximal runs of the level [lvl] among the [k] samples
    [f t], [f (t + 1)], ...; [prev] tells whether the sample before [t]
    was at that level. *)
Fixpoint runs_from (f : Z → option Z) (lvl : Z) (prev : bool) (t : Z) (k : nat)
  : nat :=
  match k with
  | O => O
  | S k' =>
      let cur := bool_decide (f t = Some lvl) in
      ((if cur && negb prev then 1 else 0) + runs_from f lvl cur (t + 1) k')%nat
  end.

(** The number of blips of level [lvl] on line [n] of the buffer. *)
Definition blips (a : list Z) (n lvl : Z) : nat :=
  runs_from (fun t => load a (n * PAL_HRES + t)) lvl false 0 (Z.to_nat PAL_HRES).

End Geometry.

Section LineVocabulary.
Context `{PalCore}.

(** The source pixel index the specification gives for output line [y],
    column [x]: floor divisions. *)
Definition fetch_index (s : PAL_SETTINGS) (y x : Z) : Z :=
  (x * w s) / AV_LEN + ((y * h s) / PAL_LINES) * w s.

(** The phase at the start of the line of absolute index [n]: twice
    [n mod 12], plus 6 when the burst-sign group [n mod 6] is even. *)
Definition start_phase (n : Z) : Z :=
  (n mod 12) * 2 + (if Z.even (n mod 6) then 6 else 0).

(** The burst sample of phase group [g], quadrant [q], before it is
    stored. *)
Definition burst_sample (hue g q : Z) : Z :=
  Z.shiftr (BLANK_LEVEL + ccburst_of hue g q * BURST_LEVEL) 5.

(** The active-video sample of output line [y], column [x], before it is
    stored (0 stands for a pixel that could not be fetched). *)
Definition active_sample (v : PAL_CRT) (s : PAL_SETTINGS) (y x : Z) : Z :=
  default 0
    (p ← tbl_get (data s) (fetch_index s y x);
     pixel_ire (black_point v) (white_point v) p
               (start_phase (y + PAL_TOP) + 3 * x)).

(** [line_done v s a a' y]: [a'] is [a] with output line [y] composed. *)
Record line_done (v : PAL_CRT) (s : PAL_SETTINGS) (a a' : list Z) (y : Z)
  : Prop := {
  ld_length : length a' = length a;
  ld_sync : ∀ t, BW_BEG ≤ t < CB_BEG →
    load a' ((y + PAL_TOP) * PAL_HRES + t) = Some SYNC_LEVEL;
  ld_burst : ∀ t, CB_BEG ≤ t < CB_END →
    load a' ((y + PAL_TOP) * PAL_HRES + t)
    = Some (schar (burst_sample (hue s) ((y + PAL_TOP) mod 6) (t mod 4)));
  ld_active : ∀ x, 0 ≤ x < AV_LEN →
    load a' ((y + PAL_TOP) * PAL_HRES + (AV_X0 + x))
    = Some (schar (active_sample v s y x));
  ld_out : ∀ i,
    ¬ ((y + PAL_TOP) * PAL_HRES + BW_BEG ≤ i
       < (y + PAL_TOP) * PAL_HRES + CB_END) →
    ¬ ((y + PAL_TOP) * PAL_HRES + AV_X0 ≤ i
       < (y + PAL_TOP) * PAL_HRES + (AV_X0 + AV_LEN)) →
    load a' i = load a i
}.

(** Whether the sample at [t] of line [n] is rewritten by the line
    composer, and whether it belongs to the active-video window. *)
Definition in_active (n t : Z) : Prop :=
  PAL_TOP ≤ n < PAL_TOP + PAL_LINES ∧ AV_X0 ≤ t < AV_X0 + AV_LEN.

Definition in_blanking (n t : Z) : Prop :=
  PAL_TOP ≤ n < PAL_TOP + PAL_LINES ∧ BW_BEG ≤ t < CB_END.

(** [field_done v s a a' Y]: [a'] is [a] with the output lines
    [0 .. Y) composed. *)
Record field_done (v : PAL_CRT) (s : PAL_SETTINGS) (a a' : list Z) (Y : Z)
  : Prop := {
  fd_length : length a' = length a;
  fd_sync : ∀ y t, 0 ≤ y < Y → BW_BEG ≤ t < CB_BEG →
    load a' ((y + PAL_TOP) * PAL_HRES + t) = Some SYNC_LEVEL;
  fd_burst : ∀ y t, 0 ≤ y < Y → CB_BEG ≤ t < CB_END →
    load a' ((y + PAL_TOP) * PAL_HRES + t)
    = Some (schar (burst_sample (hue s) ((y + PAL_TOP) mod 6) (t mod 4)));
  fd_active : ∀ y x, 0 ≤ y < Y → 0 ≤ x < AV_LEN →
    load a' ((y + PAL_TOP) * PAL_HRES + (AV_X0 + x))
    = Some (schar (active_sample v s y x));
  fd_out : ∀ n t, 0 ≤ t < PAL_HRES →
    ¬ (PAL_TOP ≤ n < PAL_TOP + Y
       ∧ (BW_BEG ≤ t < CB_END ∨ AV_X0 ≤ t < AV_X0 + AV_LEN)) →
    load a' (n * PAL_HRES + t) = load a (n * PAL_HRES + t)
}.

(** What the burst loops have recorded in [iccf] after the lines
    [0 .. Y), from the initial content [iccf0]. *)
Record iccf_done (s : PAL_SETTINGS) (iccf0 iccf : Z → Z → Z) (Y : Z)
  : Prop := {
  ic_set : ∀ y t, 0 ≤ y < Y → CB_BEG ≤ t < CB_END →
    iccf ((y + PAL_TOP) mod 6) (t mod 4)
    = schar (burst_sample (hue s) ((y + PAL_TOP) mod 6) (t mod 4));
  ic_any : ∀ g q,
    iccf g q = iccf0 g q ∨ iccf g q = schar (burst_sample (hue s) g q)
}.

(** The source frame is [w] by [h] pixels, all of them in [data]. *)
Definition source_ok (s : PAL_SETTINGS) : Prop :=
  1 ≤ w s ∧ 1 ≤ h s ∧ Z.of_nat (length (data s)) = w s * h s.

(** The settings after a call: the latch is set. *)
Definition latched (s : PAL_SETTINGS) : PAL_SETTINGS :=
  if field_initialized s =? 0
  then mkSettings (data s) (w s) (h s) (hue s) 1
  else s.

(** The inputs on which the [int] arithmetic of the encoder is exact:
    the products of the resampling, the product of the burst angle, and
    the sums and the product of the modulation path stay inside 32
    bits.  [AV_LEN] bounds the phase, which goes up to
    [28 + 3 * AV_LEN]. *)
Record int_ranges (v : PAL_CRT) (s : PAL_SETTINGS) : Prop := {
  ir_rows : PAL_LINES * h s ≤ Checked.INT_MAX;
  ir_cols : AV_LEN * w s ≤ Checked.INT_MAX;
  ir_frame : w s * h s ≤ Checked.INT_MAX;
  ir_hue : -260000 ≤ hue s ≤ 260000;
  ir_black : -65536 ≤ BLACK_LEVEL + black_point v ≤ 65536;
  ir_white : -4096 ≤ white_point v ≤ 4096;
  ir_phase : AV_LEN ≤ 268435456
}.

End LineVocabulary.

(** ** A reference instance *)

(** Modelled from the spec: [pal_sincos14] is defined in [pal_core.c],
    which is outside this file; the spec describes it as "an integer
    sine/cosine approximation with a fixed angular resolution (e.g.,
    14-bit table)".  The instance below takes the parabolic approximation
    of the sine over a 14-bit angle, with a 15-bit amplitude.  The
    theorems assume nothing of [pal_sincos14] but, where they need it,
    this range. *)
Definition ref_sin14 (n : Z) : Z :=
  let m := n mod 16384 in
  if m <? 8192 then m * (8192 - m) ÷ 512
  else - ((m - 8192) * (16384 - m) ÷ 512).

Definition ref_sincos14 (n : Z) : Z * Z := (ref_sin14 n, ref_sin14 (n + 4096)).

(** Modelled from the spec: [pal_core.h] is outside this file; the spec
    names what it supplies ("horizontal samples per line, lines per
    field, named voltage-level constants for sync/blank/black/white")
    and gives no values.  The instance takes a 64 us PAL line sampled
    1135 times (front porch 1.65 us, sync 4.7 us, breezeway 0.9 us, ten
    cycles of burst at four samples a cycle, active video from 12 us on),
    a field of 312 lines with the picture on lines 21 to 310, and levels
    in IRE units. *)
Instance pal_ref : PalCore := {|
  PAL_HRES := 1135;
  PAL_VRES := 312;
  PAL_TOP := 21;
  PAL_LINES := 290;
  PAL_CB_FREQ := 4;
  CB_CYCLES := 10;
  LINE_BEG := 0;
  SYNC_BEG := 29;
  BW_BEG := 112;
  CB_BEG := 128;
  AV_BEG := 212;
  AV_LEN := 922;
  WHITE_LEVEL := 100;
  BURST_LEVEL := 20;
  BLACK_LEVEL := 0;
  BLANK_LEVEL := 0;
  SYNC_LEVEL := -37;
  pal_sincos14 := ref_sincos14
|}.

(** An empty field buffer of the reference geometry. *)
Definition ref_field : list Z := replicate (Z.to_nat (312 * 1135)) 0.

(** A monitor at its default black and white points over an empty
    field, and a 256 by 240 frame filled with the pixel code [p]. *)
Definition ref_crt (wp : Z) : PAL_CRT := mkCRT ref_field 0 wp (fun _ _ => 0) 0.

Definition ref_frame (p : Z) : PAL_SETTINGS :=
  mkSettings (replicate (Z.to_nat (256 * 240)) p) 256 240 0 0.

(** A field small enough to run the encoder on: 14 lines of 40 samples,
    the picture on the last 3. *)
Definition pal_small : PalCore := {|
  PAL_HRES := 40;
  PAL_VRES := 14;
  PAL_TOP := 11;
  PAL_LINES := 3;
  PAL_CB_FREQ := 4;
  CB_CYCLES := 1;
  LINE_BEG := 0;
  SYNC_BEG := 2;
  BW_BEG := 5;
  CB_BEG := 7;
  AV_BEG := 14;
  AV_LEN := 20;
  WHITE_LEVEL := 100;
  BURST_LEVEL := 20;
  BLACK_LEVEL := 0;
  BLANK_LEVEL := 0;
  SYNC_LEVEL := -37;
  pal_sincos14 := ref_sincos14
|}.

(** The samples [lo .. lo + k) of the buffer of an encoder state. *)
Definition samples (r : option (PAL_CRT * PAL_SETTINGS)) (lo : Z) (k : nat)
  : option (list Z) :=
  vs ← r; Some (take k (drop (Z.to_nat lo) (analog vs.1))).

(** Two frames whose dimensions overflow the products of the
    resampling: 2400000 pixels wide and one row high, and one pixel wide
    and 7500000 rows high. *)
Definition wide_frame : PAL_SETTINGS :=
  mkSettings (replicate (Z.to_nat 2400000) 0) 2400000 1 0 0.

Definition tall_frame : PAL_SETTINGS :=
  mkSettings (replicate (Z.to_nat 7500000) 0) 1 7500000 0 0.

(** * Properties *)

(** ** Arrays and loops *)

Lemma tbl_get_lookup {A} (tbl : list A) (i : Z) :
  0 ≤ i → tbl_get tbl i = tbl !! Z.to_nat i.
Proof.
  intros Hi. unfold tbl_get.
  destruct (Z.ltb_spec i 0) as [Hneg|_]; [lia | reflexivity].
Qed.

Lemma tbl_get_range {A} (tbl : list A) (i : Z) (x : A) :
  tbl_get tbl i = Some x → 0 ≤ i < Z.of_nat (length tbl).
Proof.
  unfold tbl_get. destruct (Z.ltb_spec i 0) as [Hneg|Hpos]; [discriminate|].
  intros Hl. apply lookup_lt_Some in Hl. lia.
Qed.

Lemma tbl_get_is_Some {A} (tbl : list A) (i : Z) :
  0 ≤ i < Z.of_nat (length tbl) → is_Some (tbl_get tbl i).
Proof.
  intros Hi. rewrite tbl_get_lookup by lia. apply lookup_lt_is_Some. lia.
Qed.

Lemma tbl_get_replicate {A} (n : nat) (x : A) (i : Z) :
  0 ≤ i < Z.of_nat n → tbl_get (replicate n x) i = Some x.
Proof.
  intros Hi. rewrite tbl_get_lookup by lia.
  apply lookup_replicate_2. lia.
Qed.

Lemma schar_id (z : Z) : -128 ≤ z ≤ 127 → schar z = z.
Proof. intros Hz. unfold schar. rewrite Z.mod_small; lia. Qed.

Lemma schar_range (z : Z) : -128 ≤ schar z ≤ 127.
Proof.
  unfold schar. pose proof (Z.mod_pos_bound (z + 128) 256). lia.
Qed.

Lemma store_is_Some (a : list Z) (i x : Z) :
  0 ≤ i < Z.of_nat (length a) → ∃ a', store a i x = Some a'.
Proof.
  intros Hi. unfold store.
  destruct (Z.leb_spec 0 i); [|lia].
  destruct (Z.ltb_spec i (Z.of_nat (length a))); [|lia].
  simpl. eauto.
Qed.

Lemma store_inv (a a' : list Z) (i x : Z) :
  store a i x = Some a' →
  0 ≤ i < Z.of_nat (length a) ∧ a' = <[Z.to_nat i := schar x]> a.
Proof.
  unfold store.
  destruct (Z.leb_spec 0 i); simpl; [|discriminate].
  destruct (Z.ltb_spec i (Z.of_nat (length a))); [|discriminate].
  intros [= <-]. split; [lia | reflexivity].
Qed.

Lemma store_length (a a' : list Z) (i x : Z) :
  store a i x = Some a' → length a' = length a.
Proof.
  intros Hs. apply store_inv in Hs as [_ ->]. apply length_insert.
Qed.

Lemma load_store_eq (a a' : list Z) (i x : Z) :
  store a i x = Some a' → load a' i = Some (schar x).
Proof.
  intros Hs. apply store_inv in Hs as [Hi ->].
  unfold load. rewrite tbl_get_lookup by lia.
  apply list_lookup_insert_eq. lia.
Qed.

Lemma load_store_ne (a a' : list Z) (i j x : Z) :
  store a i x = Some a' → i ≠ j → load a' j = load a j.
Proof.
  intros Hs Hne. apply store_inv in Hs as [Hi ->].
  unfold load, tbl_get. destruct (Z.ltb_spec j 0); [reflexivity|].
  apply list_lookup_insert_ne. lia.
Qed.

Lemma load_range (a : list Z) (i x : Z) :
  load a i = Some x → 0 ≤ i < Z.of_nat (length a).
Proof. apply tbl_get_range. Qed.

Lemma load_ext (a b : list Z) :
  (∀ i, load a i = load b i) → a = b.
Proof.
  intros Hab. apply list_eq. intros n.
  specialize (Hab (Z.of_nat n)). unfold load in Hab.
  rewrite !tbl_get_lookup, Nat2Z.id in Hab by lia. exact Hab.
Qed.

(** The invariant rule of a counted loop. *)
Lemma iterate_inv {S : Type} (P : Z → S → Prop) (body : Z → S → option S)
    (k : nat) (i : Z) (s : S) :
  P i s →
  (∀ j s, i ≤ j < i + Z.of_nat k → P j s →
          ∃ s', body j s = Some s' ∧ P (j + 1) s') →
  ∃ s', iterate body k i s = Some s' ∧ P (i + Z.of_nat k) s'.
Proof.
  revert i s. induction k as [|k IH]; intros i s Hs Hstep.
  - exists s. simpl. rewrite Z.add_0_r. auto.
  - destruct (Hstep i s) as (s1 & Hb & H1); [lia | assumption |].
    destruct (IH (i + 1) s1) as (s2 & Hit & H2); [assumption | |].
    + intros j s' Hj. apply Hstep. lia.
    + exists s2. simpl. rewrite Hb. simpl. split; [assumption|].
      replace (i + Z.of_nat (Datatypes.S k)) with (i + 1 + Z.of_nat k) by lia.
      assumption.
Qed.

Lemma for_range_inv {S : Type} (P : Z → S → Prop) (body : Z → S → option S)
    (lo hi : Z) (s : S) :
  lo ≤ hi →
  P lo s →
  (∀ j s, lo ≤ j < hi → P j s → ∃ s', body j s = Some s' ∧ P (j + 1) s') →
  ∃ s', for_range lo hi body s = Some s' ∧ P hi s'.
Proof.
  intros Hle Hs Hstep. unfold for_range.
  destruct (iterate_inv P body (Z.to_nat (hi - lo)) lo s) as (s' & Hit & Hp).
  - assumption.
  - intros j s1 Hj. apply Hstep. lia.
  - exists s'. split; [assumption|].
    replace (lo + Z.of_nat (Z.to_nat (hi - lo))) with hi in Hp by lia.
    assumption.
Qed.

Lemma for_range_empty {S : Type} (body : Z → S → option S) (lo hi : Z) (s : S) :
  hi ≤ lo → for_range lo hi body s = Some s.
Proof.
  intros Hle. unfold for_range.
  replace (Z.to_nat (hi - lo)) with O by lia. reflexivity.
Qed.

Lemma written_nil (a : list Z) (base lo hi : Z) (F : Z → Z) :
  hi ≤ lo → written a a base lo hi F.
Proof. intros Hle. split; [reflexivity | intros; lia | reflexivity]. Qed.

Lemma written_snoc (a a1 a2 : list Z) (base lo t : Z) (F : Z → Z) :
  lo ≤ t →
  written a a1 base lo t F →
  store a1 (base + t) (F t) = Some a2 →
  written a a2 base lo (t + 1) F.
Proof.
  intros Hlo [Hlen Hin Hout] Hst. split.
  - rewrite (store_length _ _ _ _ Hst). assumption.
  - intros u Hu. destruct (Z.eq_dec u t) as [->|Hne].
    + eapply load_store_eq; eassumption.
    + rewrite (load_store_ne _ _ _ (base + u) _ Hst) by lia.
      apply Hin. lia.
  - intros i Hi.
    rewrite (load_store_ne _ _ _ i _ Hst) by lia.
    apply Hout. lia.
Qed.

Lemma written_app (a a1 a2 : list Z) (base lo mid hi : Z) (F : Z → Z) :
  lo ≤ mid ≤ hi →
  written a a1 base lo mid F →
  written a1 a2 base mid hi F →
  written a a2 base lo hi F.
Proof.
  intros Hm [Hlen1 Hin1 Hout1] [Hlen2 Hin2 Hout2]. split.
  - congruence.
  - intros t Ht. destruct (Z_lt_dec t mid).
    + rewrite Hout2 by lia. apply Hin1. lia.
    + apply Hin2. lia.
  - intros i Hi. rewrite Hout2 by lia. apply Hout1. lia.
Qed.

Lemma written_ext (a a' : list Z) (base lo hi : Z) (F G : Z → Z) :
  (∀ t, lo ≤ t < hi → F t = G t) →
  written a a' base lo hi F → written a a' base lo hi G.
Proof.
  intros Heq [Hlen Hin Hout]. split; [assumption | | assumption].
  intros t Ht. rewrite <- Heq by assumption. apply Hin. assumption.
Qed.

(** A loop that stores [F t] at [base + t] for every [t] of [lo .. hi). *)
Lemma store_loop (a : list Z) (base lo hi : Z) (F : Z → Z) :
  (lo < hi → 0 ≤ base + lo ∧ base + hi ≤ Z.of_nat (length a)) →
  ∃ a', for_range lo hi (fun t a => store a (base + t) (F t)) a = Some a'
        ∧ written a a' base lo hi F.
Proof.
  intros Hb. destruct (Z_lt_dec lo hi) as [Hlt|Hge].
  - destruct (Hb Hlt) as [Hb0 Hb1].
    apply (for_range_inv (fun t a' => written a a' base lo t F)); [lia | |].
    + apply written_nil. lia.
    + intros t a1 Ht Hw.
      destruct (store_is_Some a1 (base + t) (F t)) as [a2 Hst].
      { rewrite (wr_length _ _ _ _ _ _ Hw). lia. }
      exists a2. split; [assumption|].
      eapply written_snoc; [lia | eassumption | assumption].
  - exists a. split; [apply for_range_empty; lia | apply written_nil; lia].
Qed.

(** ** The pixel modulator *)

Lemma land_3_cases (x : Z) :
  Z.land x 3 = 0 ∨ Z.land x 3 = 1 ∨ Z.land x 3 = 2 ∨ Z.land x 3 = 3.
Proof.
  replace (Z.land x 3) with (x mod 4)
    by (symmetry; apply (Z.land_ones x 2); lia).
  pose proof (Z.mod_pos_bound x 4). lia.
Qed.

Lemma land_15_range (x : Z) : 0 ≤ Z.land x 15 < 16.
Proof.
  replace (Z.land x 15) with (x mod 16)
    by (symmetry; apply (Z.land_ones x 4); lia).
  apply Z.mod_pos_bound. lia.
Qed.

Lemma b2z_cases (b : bool) : Z.b2z b = 0 ∨ Z.b2z b = 1.
Proof. destruct b; auto. Qed.

(** The mask selected at a non-negative phase. *)
Lemma active_at (phase : Z) :
  0 ≤ phase →
  Z.rem (Z.shiftr phase 1) 6 = Z.shiftr phase 1 mod 6 ∧
  ∃ m, tbl_get active (Z.shiftr phase 1 mod 6) = Some m ∧ 0 ≤ m.
Proof.
  intros Hp.
  assert (Hs : 0 ≤ Z.shiftr phase 1) by (apply Z.shiftr_nonneg; lia).
  split; [apply Z.rem_mod_nonneg; lia|].
  pose proof (Z.mod_pos_bound (Z.shiftr phase 1) 6) as Hm.
  assert (Hc : Z.shiftr phase 1 mod 6 = 0 ∨ Z.shiftr phase 1 mod 6 = 1 ∨
               Z.shiftr phase 1 mod 6 = 2 ∨ Z.shiftr phase 1 mod 6 = 3 ∨
               Z.shiftr phase 1 mod 6 = 4 ∨ Z.shiftr phase 1 mod 6 = 5) by lia.
  destruct Hc as [-> | [-> | [-> | [-> | [-> | ->]]]]];
    eexists; (split; [reflexivity | lia]).
Qed.

(** The emphasis test [((p & 0700) & m) > 0]. *)
Lemma emphasis_test (p m : Z) :
  0 ≤ m → Z.b2z (0 <? Z.land (Z.land p 448) m) = emphasized p m.
Proof.
  intros Hm. unfold emphasized, EMPH_MASK.
  assert (0 ≤ Z.land (Z.land p 448) m) by (apply Z.land_nonneg; right; exact Hm).
  destruct (Z.ltb_spec 0 (Z.land (Z.land p 448) m)); case_bool_decide;
    simpl; lia.
Qed.

(** The sum that indexes [IRE] is the bitwise or of its three fields,
    and the entry exists. *)
Lemma ire_index_sum (l e luma : Z) :
  l = 0 ∨ l = 1 → e = 0 ∨ e = 1 →
  luma = 0 ∨ luma = 1 ∨ luma = 2 ∨ luma = 3 →
  Z.shiftl l 3 + Z.shiftl e 2 + luma = ire_index l e luma ∧
  ∃ val, tbl_get IRE (ire_index l e luma) = Some val ∧
         -17203 ≤ val ≤ 112965 ∧
         (l = 0 → val ∈ IRE_low_row) ∧ (l = 1 → val ∈ IRE_high_row).
Proof.
  intros [-> | ->] [-> | ->] [-> | [-> | [-> | ->]]];
    (split; [reflexivity|]); eexists;
    (split; [reflexivity|]); (split; [lia|]);
    (split; intros Hl; try discriminate Hl);
    unfold IRE_low_row, IRE_high_row, IRE; simpl; repeat constructor.
Qed.

(** What [square_sample] computes for a hue below 0x0e. *)
Lemma square_sample_colour (p phase : Z) :
  0 ≤ phase → Z.land p 15 < 14 →
  ∃ m, tbl_get active (Z.shiftr phase 1 mod 6) = Some m ∧
       square_sample p phase =
       tbl_get IRE
         (ire_index (if Z.land p 15 =? 0 then 1
                     else if Z.land p 15 =? 13 then 0
                     else polarity (Z.land p 15) phase)
                    (emphasized p m) (luma_bits p)).
Proof.
  intros Hp Hh.
  destruct (active_at phase Hp) as (Hrem & m & Hm & Hm0).
  exists m. split; [assumption|].
  unfold square_sample.
  destruct (Z.leb_spec 14 (Z.land p 15)); [lia|].
  rewrite Hrem, Hm. simpl.
  rewrite emphasis_test by assumption.
  pose proof (land_15_range p).
  rewrite Z.rem_mod_nonneg by lia.
  fold (luma_bits p).
  assert (Hv : Z.b2z ((Z.land p 15 + phase) mod 12 <? 6)
               = polarity (Z.land p 15) phase).
  { unfold polarity.
    destruct (Z.ltb_spec ((Z.land p 15 + phase) mod 12) 6);
      case_bool_decide; simpl; lia. }
  rewrite Hv. f_equal.
  apply ire_index_sum.
  - destruct (Z.land p 15 =? 0); [auto|].
    destruct (Z.land p 15 =? 13); [auto|]. apply b2z_cases.
  - apply b2z_cases.
  - apply land_3_cases.
Qed.

(** [square_sample] is defined at every non-negative phase, and its
    value is 0 or an entry of [IRE]. *)
Lemma square_sample_bounds (p phase : Z) :
  0 ≤ phase →
  ∃ r, square_sample p phase = Some r ∧ -17203 ≤ r ≤ 112965.
Proof.
  intros Hp. destruct (Z_lt_dec (Z.land p 15) 14) as [Hh|Hh].
  - destruct (square_sample_colour p phase Hp Hh) as (m & _ & ->).
    edestruct ire_index_sum as (_ & val & Hval & Hr & _);
      [| | | exists val; split; [exact Hval | exact Hr]].
    + destruct (Z.land p 15 =? 0); [auto|].
      destruct (Z.land p 15 =? 13); [auto|]. apply b2z_cases.
    + apply b2z_cases.
    + apply land_3_cases.
  - exists 0. split; [|lia]. unfold square_sample.
    destruct (Z.leb_spec 14 (Z.land p 15)); [reflexivity | lia].
Qed.

Lemma int_ok (z : Z) :
  Checked.INT_MIN ≤ z ≤ Checked.INT_MAX → Checked.int z = Some z.
Proof.
  unfold Checked.int, Checked.INT_MIN, Checked.INT_MAX. intros Hz.
  destruct (Z.leb_spec (-2147483648) z); [|lia].
  destruct (Z.leb_spec z 2147483647); [reflexivity | lia].
Qed.

(** The checked modulator agrees with [square_sample] as long as
    [hue + phase] stays inside 32 bits. *)
Lemma checked_square_sample (p phase : Z) :
  0 ≤ phase ≤ 2000000000 →
  Checked.square_sample p phase = square_sample p phase.
Proof.
  intros Hp. unfold Checked.square_sample, square_sample.
  pose proof (land_15_range p) as Hh.
  destruct (14 <=? Z.land p 15); [reflexivity|].
  change (Checked.add (Z.land p 15) phase)
    with (Checked.int (Z.land p 15 + phase)).
  rewrite int_ok by (unfold Checked.INT_MIN, Checked.INT_MAX; lia).
  simpl.
  destruct (tbl_get active (Z.rem (Z.shiftr phase 1) 6)) as [a|];
    [simpl | reflexivity].
  destruct (land_3_cases (Z.shiftr p 4)) as [-> | [-> | [-> | ->]]];
    destruct (Z.land p 15 =? 0), (Z.land p 15 =? 13),
             (Z.rem (Z.land p 15 + phase) 12 <? 6),
             (0 <? Z.land (Z.land p 448) a); reflexivity.
Qed.

(** C2.  For a 9-bit pixel code whose hue nibble is between 0x01 and 0x0c
    and a non-negative phase (up to 2^30, so that the [int] sum
    [hue + phase] is exact), [square_sample] returns the entry of the
    16-entry table [IRE] at index [(v << 3) | (e << 2) | luma], where [v]
    is [(hue + phase) mod 12 < 6], [e] tells whether the emphasis bits
    (bits 6 to 8) of the code meet the mask that [(phase >> 1) mod 6]
    selects in [active], and [luma] is [(code >> 4) & 3]; [active] is the
    six-entry rotation red+green, red, blue+red, blue, blue+green, green
    over the emphasis bits as this encoder names them (red 0200,
    green 0100).  The computation in checked 32-bit arithmetic returns
    the same entry. *)
Theorem square_sample_lookup (p phase : Z) :
  0 ≤ p < 512 →
  1 ≤ Z.land p 15 ≤ 12 →
  0 ≤ phase ≤ 1073741824 →
  ∃ m val,
    tbl_get active (Z.shiftr phase 1 mod 6) = Some m ∧
    tbl_get IRE (ire_index (polarity (Z.land p 15) phase)
                           (emphasized p m) (luma_bits p)) = Some val ∧
    square_sample p phase = Some val ∧
    Checked.square_sample p phase = Some val ∧
    length IRE = 16%nat ∧
    active = [ EMPH_RED + EMPH_GREEN; EMPH_RED; EMPH_BLUE + EMPH_RED;
               EMPH_BLUE; EMPH_BLUE + EMPH_GREEN; EMPH_GREEN ].
Proof.
  intros _ Hh Hp.
  destruct (square_sample_colour p phase) as (m & Hm & Hsq); [lia | lia |].
  destruct (Z.eqb_spec (Z.land p 15) 0) as [?|_]; [lia|].
  destruct (Z.eqb_spec (Z.land p 15) 13) as [?|_]; [lia|].
  destruct (ire_index_sum (polarity (Z.land p 15) phase) (emphasized p m)
              (luma_bits p)) as (_ & val & Hval & _).
  { apply b2z_cases. }
  { apply b2z_cases. }
  { apply land_3_cases. }
  exists m, val. rewrite checked_square_sample by lia. rewrite Hsq.
  repeat split; first [assumption | reflexivity].
Qed.

Lemma square_sample_lookup_witness :
  ∃ m val,
    tbl_get active (Z.shiftr 7 1 mod 6) = Some m ∧
    tbl_get IRE (ire_index (polarity (Z.land 0x1a6 15) 7)
                           (emphasized 0x1a6 m) (luma_bits 0x1a6)) = Some val ∧
    square_sample 0x1a6 7 = Some val ∧
    Checked.square_sample 0x1a6 7 = Some val ∧
    length IRE = 16%nat ∧
    active = [ EMPH_RED + EMPH_GREEN; EMPH_RED; EMPH_BLUE + EMPH_RED;
               EMPH_BLUE; EMPH_BLUE + EMPH_GREEN; EMPH_GREEN ].
Proof.
  apply (square_sample_lookup 0x1a6 7);
    [lia | change (1 ≤ 6 ≤ 12); lia | lia].
Defined.

(** With the polarity index fixed to [l], whatever [square_sample]
    returns is an entry of the half of [IRE] that [l] selects. *)
Lemma square_sample_forced (p phase l : Z) :
  (Z.land p 15 = 0 ∧ l = 1) ∨ (Z.land p 15 = 13 ∧ l = 0) →
  ∀ val, square_sample p phase = Some val →
         val ∈ (if l =? 1 then IRE_high_row else IRE_low_row).
Proof.
  intros Hl val. unfold square_sample.
  destruct (tbl_get active (Z.rem (Z.shiftr phase 1) 6)) as [a|];
    [| destruct Hl as [[-> ->] | [-> ->]]; discriminate].
  destruct Hl as [[-> ->] | [-> ->]]; simpl;
    destruct (0 <? Z.land (Z.land p 448) a);
    destruct (land_3_cases (Z.shiftr p 4)) as [-> | [-> | [-> | ->]]];
    intros [= <-]; unfold IRE_low_row, IRE_high_row, IRE; simpl;
    repeat constructor.
Qed.

(** C3.  Whatever the phase and the emphasis and luma bits: a code of hue
    0x0e or 0x0f gives 0, decided before anything else is computed; a
    code of hue 0x00 is looked up with the polarity index forced to 1,
    so what is returned is an entry of the upper (peak-white) half of
    [IRE]; a code of hue 0x0d is looked up with the polarity index forced
    to 0, so what is returned is an entry of the lower (sync-black) half.
    At every non-negative phase (a negative one can index [active] below
    its first entry) the lookup succeeds, at the index
    [(l << 3) | (e << 2) | luma] with [l] so forced. *)
Theorem square_sample_fixed_hues (p phase : Z) :
  (14 ≤ Z.land p 15 → square_sample p phase = Some 0) ∧
  (Z.land p 15 = 0 →
     (∀ val, square_sample p phase = Some val → val ∈ IRE_high_row) ∧
     (0 ≤ phase →
      ∃ m val, tbl_get active (Z.shiftr phase 1 mod 6) = Some m ∧
        tbl_get IRE (ire_index 1 (emphasized p m) (luma_bits p)) = Some val ∧
        square_sample p phase = Some val)) ∧
  (Z.land p 15 = 13 →
     (∀ val, square_sample p phase = Some val → val ∈ IRE_low_row) ∧
     (0 ≤ phase →
      ∃ m val, tbl_get active (Z.shiftr phase 1 mod 6) = Some m ∧
        tbl_get IRE (ire_index 0 (emphasized p m) (luma_bits p)) = Some val ∧
        square_sample p phase = Some val)).
Proof.
  split; [|split].
  - intros Hh. unfold square_sample.
    destruct (Z.leb_spec 14 (Z.land p 15)); [reflexivity | lia].
  - intros Hh. split.
    + apply (square_sample_forced p phase 1). auto.
    + intros Hp.
      destruct (square_sample_colour p phase Hp) as (m & Hm & Hsq); [lia|].
      rewrite Hh in Hsq. simpl in Hsq.
      destruct (ire_index_sum 1 (emphasized p m) (luma_bits p))
        as (_ & val & Hval & _);
        [auto | apply b2z_cases | apply land_3_cases |].
      exists m, val. rewrite Hsq. auto.
  - intros Hh. split.
    + apply (square_sample_forced p phase 0). auto.
    + intros Hp.
      destruct (square_sample_colour p phase Hp) as (m & Hm & Hsq); [lia|].
      rewrite Hh in Hsq. simpl in Hsq.
      destruct (ire_index_sum 0 (emphasized p m) (luma_bits p))
        as (_ & val & Hval & _);
        [auto | apply b2z_cases | apply land_3_cases |].
      exists m, val. rewrite Hsq. auto.
Qed.

Lemma square_sample_fixed_hues_witness :
  square_sample 0x1ff 5 = Some 0 ∧
  (∃ val, square_sample 0x1b0 4 = Some val ∧ val ∈ IRE_high_row) ∧
  (∃ val, square_sample 0x02d 9 = Some val ∧ val ∈ IRE_low_row).
Proof.
  split; [|split].
  - apply (square_sample_fixed_hues 0x1ff 5). change (14 ≤ 15). lia.
  - destruct (square_sample_fixed_hues 0x1b0 4) as (_ & Hw & _).
    destruct Hw as (Hrow & Hdef); [reflexivity|].
    destruct Hdef as (m & val & _ & _ & Hs); [lia|].
    exists val. split; [exact Hs | exact (Hrow val Hs)].
  - destruct (square_sample_fixed_hues 0x02d 9) as (_ & _ & Hb).
    destruct Hb as (Hrow & Hdef); [reflexivity|].
    destruct Hdef as (m & val & _ & _ & Hs); [lia|].
    exists val. split; [exact Hs | exact (Hrow val Hs)].
Defined.

(** ** The field skeleton *)

(** Case analysis on every integer comparison of the goal. *)
Ltac cmp_cases :=
  repeat match goal with
    | |- context [?x <? ?y] => destruct (Z.ltb_spec x y)
    | |- context [?x <=? ?y] => destruct (Z.leb_spec x y)
    | |- context [?x =? ?y] => destruct (Z.eqb_spec x y)
    end.

Section Field.
Context `{PalCore}.
Hypothesis Hwf : core_wf.

Lemma pct_mono (j k : Z) : 0 ≤ j ≤ k → 0 ≤ pct j ≤ pct k.
Proof.
  intros Hjk. pose proof (wf_hres Hwf) as Hh. unfold pct.
  rewrite !Z.quot_div_nonneg by nia.
  split; [apply Z.div_pos; nia | apply Z.div_le_mono; nia].
Qed.

Lemma pct_0 : pct 0 = 0.
Proof. reflexivity. Qed.

Lemma pct_100 : pct 100 = PAL_HRES.
Proof.
  unfold pct. rewrite Z.mul_comm. apply Z.quot_mul. lia.
Qed.

Lemma fill_written (a : list Z) (base t limit lvl : Z) :
  t ≤ limit →
  (0 ≤ base + t ∧ base + limit ≤ Z.of_nat (length a)) →
  ∃ a', fill base limit lvl (a, t) = Some (a', limit)
        ∧ written a a' base t limit (fun _ => lvl).
Proof.
  intros Hle Hb.
  destruct (store_loop a base t limit (fun _ => lvl)) as (a' & Hf & Hw);
    [intros _; exact Hb|].
  exists a'. split; [|exact Hw].
  unfold fill. rewrite Hf. simpl. f_equal. f_equal. lia.
Qed.

(** One more fill of a line whose samples [t0 .. t1) are already those
    of [F]. *)
Lemma fill_next (a0 a : list Z) (base t0 t1 t2 lvl : Z) (F : Z → Z)
    (k : list Z * Z → option (list Z)) :
  written a0 a base t0 t1 F →
  t0 ≤ t1 ≤ t2 →
  0 ≤ base + t0 → base + t2 ≤ Z.of_nat (length a0) →
  (∀ t, t1 ≤ t < t2 → F t = lvl) →
  ∃ a', (fill base t2 lvl (a, t1) ≫= k) = k (a', t2)
        ∧ written a0 a' base t0 t2 F.
Proof.
  intros W Ht Hb0 Hb2 HF.
  destruct (fill_written a base t1 t2 lvl) as (a' & E & W').
  { lia. }
  { rewrite (wr_length _ _ _ _ _ _ W). lia. }
  exists a'. rewrite E. split; [reflexivity|].
  apply (written_app _ a _ _ _ t1); [lia | exact W |].
  eapply written_ext; [|exact W']. intros t Hr. symmetry. auto.
Qed.

(** One iteration of [setup_field] writes the skeleton of its line. *)
Lemma setup_line_written (a : list Z) (n : Z) :
  0 ≤ n → (n + 1) * PAL_HRES ≤ Z.of_nat (length a) →
  ∃ a', setup_line n a = Some a'
        ∧ written a a' (n * PAL_HRES) 0 PAL_HRES (skeleton n).
Proof.
  intros Hn Hlen.
  pose proof (wf_hres Hwf) as Hh.
  pose proof (pct_mono 0 4) as P4. pose proof (pct_mono 4 46) as P46.
  pose proof (pct_mono 46 50) as P50. pose proof (pct_mono 50 54) as P54.
  pose proof (pct_mono 54 96) as P96. pose proof (pct_mono 96 100) as P100.
  pose proof (wf_sync_beg Hwf). pose proof (wf_bw_beg Hwf).
  pose proof (wf_cb_beg Hwf). pose proof (wf_cb_end Hwf).
  pose proof (wf_av_beg Hwf). pose proof (wf_av_len Hwf).
  pose proof (wf_av_end Hwf).
  rewrite pct_100 in P100. rewrite pct_0 in P4.
  unfold setup_line. rewrite (wf_line_beg Hwf). fold (pct 4) (pct 46) (pct 50).
  fold (pct 54) (pct 96) (pct 100). rewrite pct_100.
  fold (equalizing n) (vertical_sync n).
  pose proof (written_nil a (n * PAL_HRES) 0 0 (skeleton n) (Z.le_refl 0)) as W0.
  destruct (equalizing n) eqn:Heq; [|destruct (vertical_sync n) eqn:Hvs].
  - edestruct (fill_next a a) as (a1 & -> & W1); [exact W0 | | | | |]; try nia.
    { intros t Ht; unfold skeleton, eq_window; rewrite Heq, pct_0;
        cmp_cases; simpl; try reflexivity; lia. }
    edestruct (fill_next a a1) as (a2 & -> & W2); [exact W1 | | | | |]; try nia.
    { intros t Ht; unfold skeleton, eq_window; rewrite Heq, pct_0;
        cmp_cases; simpl; try reflexivity; lia. }
    edestruct (fill_next a a2) as (a3 & -> & W3); [exact W2 | | | | |]; try nia.
    { intros t Ht; unfold skeleton, eq_window; rewrite Heq, pct_0;
        cmp_cases; simpl; try reflexivity; lia. }
    edestruct (fill_next a a3) as (a4 & -> & W4); [exact W3 | | | | |]; try nia.
    { intros t Ht; unfold skeleton, eq_window; rewrite Heq, pct_0;
        cmp_cases; simpl; try reflexivity; lia. }
    exists a4. split; [reflexivity | exact W4].
  - edestruct (fill_next a a) as (a1 & -> & W1); [exact W0 | | | | |]; try nia.
    { intros t Ht; unfold skeleton, vs_window; rewrite Heq, Hvs, pct_100;
        cmp_cases; simpl; try reflexivity; lia. }
    edestruct (fill_next a a1) as (a2 & -> & W2); [exact W1 | | | | |]; try nia.
    { intros t Ht; unfold skeleton, vs_window; rewrite Heq, Hvs, pct_100;
        cmp_cases; simpl; try reflexivity; lia. }
    edestruct (fill_next a a2) as (a3 & -> & W3); [exact W2 | | | | |]; try nia.
    { intros t Ht; unfold skeleton, vs_window; rewrite Heq, Hvs, pct_100;
        cmp_cases; simpl; try reflexivity; lia. }
    edestruct (fill_next a a3) as (a4 & -> & W4); [exact W3 | | | | |]; try nia.
    { intros t Ht; unfold skeleton, vs_window; rewrite Heq, Hvs, pct_100;
        cmp_cases; simpl; try reflexivity; lia. }
    exists a4. split; [reflexivity | exact W4].
  - edestruct (fill_next a a) as (a1 & -> & W1); [exact W0 | | | | |]; try nia.
    { intros t Ht; unfold skeleton, hsync_window; rewrite Heq, Hvs;
        cmp_cases; simpl; try reflexivity; lia. }
    edestruct (fill_next a a1) as (a2 & -> & W2); [exact W1 | | | | |]; try nia.
    { intros t Ht; unfold skeleton, hsync_window; rewrite Heq, Hvs;
        cmp_cases; simpl; try reflexivity; lia. }
    edestruct (fill_next a a2) as (a3 & -> & W3); [exact W2 | | | | |]; try nia.
    { intros t Ht; unfold skeleton, hsync_window; rewrite Heq, Hvs;
        cmp_cases; simpl; try reflexivity; lia. }
    exists a3. split; [reflexivity | exact W3].
Qed.

Lemma skeleton_schar (n t : Z) : schar (skeleton n t) = skeleton n t.
Proof.
  apply schar_id. pose proof (wf_sync_level Hwf). pose proof (wf_blank_level Hwf).
  unfold skeleton.
  destruct (equalizing n), (vertical_sync n), (eq_window t), (vs_window t),
    (hsync_window t); lia.
Qed.

Lemma vres_pos : 0 < PAL_VRES.
Proof.
  pose proof (wf_top Hwf). pose proof (wf_lines Hwf). pose proof (wf_bot Hwf).
  lia.
Qed.

(** Samples of different lines are different samples. *)
Lemma row_disjoint (n n' t lo hi : Z) :
  0 ≤ t < PAL_HRES → 0 ≤ lo → hi ≤ PAL_HRES → n' ≠ n →
  ¬ (n * PAL_HRES + lo ≤ n' * PAL_HRES + t < n * PAL_HRES + hi).
Proof.
  intros Ht Hlo Hhi Hne. pose proof (wf_hres Hwf) as Hh.
  destruct (Z_lt_dec n' n).
  - assert ((n' + 1) * PAL_HRES ≤ n * PAL_HRES)
      by (apply Z.mul_le_mono_nonneg_r; lia). lia.
  - assert ((n + 1) * PAL_HRES ≤ n' * PAL_HRES)
      by (apply Z.mul_le_mono_nonneg_r; lia). lia.
Qed.

Lemma row_in_field (n t : Z) :
  0 ≤ n < PAL_VRES → 0 ≤ t ≤ PAL_HRES →
  0 ≤ n * PAL_HRES ∧ n * PAL_HRES + t ≤ PAL_VRES * PAL_HRES.
Proof.
  intros Hn Ht. pose proof (wf_hres Hwf) as Hh.
  assert ((n + 1) * PAL_HRES ≤ PAL_VRES * PAL_HRES)
    by (apply Z.mul_le_mono_nonneg_r; lia).
  split; [apply Z.mul_nonneg_nonneg; lia | lia].
Qed.

(** [setup_field] writes the skeleton of every line of the field. *)
Lemma setup_field_skeleton (a : list Z) :
  Z.of_nat (length a) = PAL_VRES * PAL_HRES →
  ∃ a', setup_field a = Some a' ∧ length a' = length a ∧
        ∀ n t, 0 ≤ n < PAL_VRES → 0 ≤ t < PAL_HRES →
               load a' (n * PAL_HRES + t) = Some (skeleton n t).
Proof.
  intros Hlen. pose proof vres_pos as Hv. unfold setup_field.
  destruct (for_range_inv
    (fun m a' => length a' = length a ∧
       ∀ n t, 0 ≤ n < m → 0 ≤ t < PAL_HRES →
              load a' (n * PAL_HRES + t) = Some (skeleton n t))
    setup_line 0 PAL_VRES a) as (a' & Hf & Hl & Hs).
  - lia.
  - split; [reflexivity | intros; lia].
  - intros m a1 Hm [Hl1 Hs1].
    destruct (setup_line_written a1 m) as (a2 & E & W); [lia | |].
    { rewrite Hl1, Hlen. pose proof (row_in_field m PAL_HRES). lia. }
    exists a2. split; [exact E|]. split.
    + rewrite (wr_length _ _ _ _ _ _ W). exact Hl1.
    + intros n t Hn Ht. destruct (Z.eq_dec n m) as [->|Hne].
      * rewrite (wr_in _ _ _ _ _ _ W) by lia. f_equal. apply skeleton_schar.
      * rewrite (wr_out _ _ _ _ _ _ W).
        -- apply Hs1; lia.
        -- apply row_disjoint; lia.
  - exists a'. auto.
Qed.

End Field.

Lemma equalizing_iff (n : Z) : equalizing n = true ↔ n ≤ 3 ∨ 7 ≤ n ≤ 9.
Proof.
  unfold equalizing. rewrite orb_true_iff, andb_true_iff, !Z.leb_le. tauto.
Qed.

Lemma vertical_sync_iff (n : Z) : vertical_sync n = true ↔ 4 ≤ n ≤ 6.
Proof. unfold vertical_sync. rewrite andb_true_iff, !Z.leb_le. tauto. Qed.

Lemma eq_window_iff `{PalCore} (t : Z) :
  eq_window t = true ↔ 0 ≤ t < pct 4 ∨ pct 50 ≤ t < pct 54.
Proof.
  unfold eq_window. change (pct 0) with 0.
  rewrite orb_true_iff, !andb_true_iff, !Z.leb_le, !Z.ltb_lt. tauto.
Qed.

Lemma vs_window_iff `{PalCore} (t : Z) :
  vs_window t = true ↔ pct 46 ≤ t < pct 50 ∨ pct 96 ≤ t < PAL_HRES.
Proof.
  unfold vs_window. rewrite pct_100.
  rewrite orb_true_iff, !andb_true_iff, !Z.leb_le, !Z.ltb_lt. tauto.
Qed.

Lemma hsync_window_iff `{PalCore} (t : Z) :
  hsync_window t = true ↔ SYNC_BEG ≤ t < BW_BEG.
Proof.
  unfold hsync_window. rewrite andb_true_iff, Z.leb_le, Z.ltb_lt. tauto.
Qed.

Lemma runs_from_ext (f g : Z → option Z) (lvl : Z) (k : nat) :
  ∀ (prev : bool) (t : Z),
  (∀ u, t ≤ u < t + Z.of_nat k → f u = g u) →
  runs_from f lvl prev t k = runs_from g lvl prev t k.
Proof.
  induction k as [|k IH]; intros prev t Hfg; [reflexivity|].
  simpl. rewrite (Hfg t) by lia. f_equal. apply IH.
  intros u Hu. apply Hfg. lia.
Qed.

Lemma ref_sin14_range (n : Z) : -32768 ≤ ref_sin14 n ≤ 32768.
Proof.
  unfold ref_sin14. pose proof (Z.mod_pos_bound n 16384) as Hm.
  set (m := n mod 16384) in *.
  assert (Hq : ∀ q, 0 ≤ q ≤ 16777216 → 0 ≤ q / 512 ≤ 32768).
  { intros q Hq. split; [apply Z.div_pos; lia|].
    change 32768 with (16777216 / 512). apply Z.div_le_mono; lia. }
  destruct (Z.ltb_spec m 8192).
  - rewrite Z.quot_div_nonneg by nia.
    pose proof (Z.square_nonneg (m - 4096)).
    specialize (Hq (m * (8192 - m))). nia.
  - rewrite Z.quot_div_nonneg by nia.
    pose proof (Z.square_nonneg (m - 12288)).
    specialize (Hq ((m - 8192) * (16384 - m))). nia.
Qed.

Lemma pal_ref_wf : core_wf.
Proof. split; vm_compute; intuition discriminate. Qed.

Lemma ref_field_length : Z.of_nat (length ref_field) = PAL_VRES * PAL_HRES.
Proof.
  unfold ref_field. rewrite length_replicate, Z2Nat.id by lia. reflexivity.
Qed.

(** C4.  On a buffer of [PAL_VRES] lines of [PAL_HRES] samples,
    [setup_field] succeeds and leaves on every line the waveform of its
    category, sample for sample: an equalizing line (0 to 3 and 7 to 9)
    holds the sync level on the two windows 0-4% and 50-54% of the line
    and the blanking level everywhere else; a vertical-sync line (4 to 6)
    holds the blanking level on the two windows 46-50% and 96-100% and the
    sync level everywhere else; every other line holds the blanking level
    up to [SYNC_BEG], the sync level up to [BW_BEG] and the blanking level
    to the end of the line. *)
Theorem setup_field_waveform `{PalCore} (a : list Z) :
  core_wf →
  Z.of_nat (length a) = PAL_VRES * PAL_HRES →
  ∃ a', setup_field a = Some a' ∧ length a' = length a ∧
    ∀ n t, 0 ≤ n < PAL_VRES → 0 ≤ t < PAL_HRES →
      ∃ x, load a' (n * PAL_HRES + t) = Some x ∧
        (n ≤ 3 ∨ 7 ≤ n ≤ 9 →
           (0 ≤ t < pct 4 ∨ pct 50 ≤ t < pct 54 → x = SYNC_LEVEL) ∧
           (¬ (0 ≤ t < pct 4 ∨ pct 50 ≤ t < pct 54) → x = BLANK_LEVEL)) ∧
        (4 ≤ n ≤ 6 →
           (pct 46 ≤ t < pct 50 ∨ pct 96 ≤ t < PAL_HRES → x = BLANK_LEVEL) ∧
           (¬ (pct 46 ≤ t < pct 50 ∨ pct 96 ≤ t < PAL_HRES) → x = SYNC_LEVEL)) ∧
        (10 ≤ n →
           (0 ≤ t < SYNC_BEG → x = BLANK_LEVEL) ∧
           (SYNC_BEG ≤ t < BW_BEG → x = SYNC_LEVEL) ∧
           (BW_BEG ≤ t < PAL_HRES → x = BLANK_LEVEL)).
Proof.
  intros Hwf Hlen.
  destruct (setup_field_skeleton Hwf a Hlen) as (a' & Hf & Hl & Hs).
  exists a'. split; [exact Hf|]. split; [exact Hl|].
  intros n t Hn Ht. exists (skeleton n t). split; [apply Hs; assumption|].
  unfold skeleton.
  split; [|split]; intros Hc.
  - rewrite (proj2 (equalizing_iff n) Hc).
    split; intros Hw.
    + rewrite (proj2 (eq_window_iff t) Hw). reflexivity.
    + destruct (eq_window t) eqn:E; [|reflexivity].
      apply eq_window_iff in E. contradiction.
  - destruct (equalizing n) eqn:E1; [apply equalizing_iff in E1; lia|].
    rewrite (proj2 (vertical_sync_iff n) Hc).
    split; intros Hw.
    + rewrite (proj2 (vs_window_iff t) Hw). reflexivity.
    + destruct (vs_window t) eqn:E; [|reflexivity].
      apply vs_window_iff in E. contradiction.
  - destruct (equalizing n) eqn:E1; [apply equalizing_iff in E1; lia|].
    destruct (vertical_sync n) eqn:E2; [apply vertical_sync_iff in E2; lia|].
    destruct (hsync_window t) eqn:E; [apply hsync_window_iff in E|];
      (split; [|split]); intros Hw; try reflexivity; try lia.
    assert (hsync_window t = true) by (apply hsync_window_iff; exact Hw).
    congruence.
Qed.

Lemma setup_field_waveform_witness :
  ∃ a', setup_field ref_field = Some a' ∧ length a' = length ref_field ∧
    ∀ n t, 0 ≤ n < PAL_VRES → 0 ≤ t < PAL_HRES →
      ∃ x, load a' (n * PAL_HRES + t) = Some x ∧
        (n ≤ 3 ∨ 7 ≤ n ≤ 9 →
           (0 ≤ t < pct 4 ∨ pct 50 ≤ t < pct 54 → x = SYNC_LEVEL) ∧
           (¬ (0 ≤ t < pct 4 ∨ pct 50 ≤ t < pct 54) → x = BLANK_LEVEL)) ∧
        (4 ≤ n ≤ 6 →
           (pct 46 ≤ t < pct 50 ∨ pct 96 ≤ t < PAL_HRES → x = BLANK_LEVEL) ∧
           (¬ (pct 46 ≤ t < pct 50 ∨ pct 96 ≤ t < PAL_HRES) → x = SYNC_LEVEL)) ∧
        (10 ≤ n →
           (0 ≤ t < SYNC_BEG → x = BLANK_LEVEL) ∧
           (SYNC_BEG ≤ t < BW_BEG → x = SYNC_LEVEL) ∧
           (BW_BEG ≤ t < PAL_HRES → x = BLANK_LEVEL)).
Proof.
  apply (setup_field_waveform ref_field pal_ref_wf ref_field_length).
Defined.

(** C4, as stated, fails: on the reference field an equalizing line
    carries two sync blips and a vertical-sync line two blanking blips,
    not four. *)
Lemma setup_field_blips :
  ∃ a', setup_field ref_field = Some a' ∧
        blips a' 0 SYNC_LEVEL = 2%nat ∧ blips a' 0 SYNC_LEVEL ≠ 4%nat ∧
        blips a' 4 BLANK_LEVEL = 2%nat ∧ blips a' 4 BLANK_LEVEL ≠ 4%nat.
Proof.
  destruct (setup_field_skeleton pal_ref_wf ref_field ref_field_length)
    as (a' & Hf & _ & Hs).
  exists a'. split; [exact Hf|].
  assert (E0 : blips a' 0 SYNC_LEVEL = 2%nat).
  { unfold blips.
    rewrite (runs_from_ext _ (fun t => Some (skeleton 0 t))).
    - vm_compute. reflexivity.
    - intros u Hu. apply Hs; [vm_compute; intuition discriminate|].
      change (Z.of_nat (Z.to_nat PAL_HRES)) with 1135 in Hu.
      change PAL_HRES with 1135. lia. }
  assert (E4 : blips a' 4 BLANK_LEVEL = 2%nat).
  { unfold blips.
    rewrite (runs_from_ext _ (fun t => Some (skeleton 4 t))).
    - vm_compute. reflexivity.
    - intros u Hu. apply Hs; [vm_compute; intuition discriminate|].
      change (Z.of_nat (Z.to_nat PAL_HRES)) with 1135 in Hu.
      change PAL_HRES with 1135. lia. }
  rewrite E0, E4. repeat split; discriminate.
Qed.

(** ** The line composer *)

Section Lines.
Context `{PalCore}.

Lemma bsign_lookup (g : Z) :
  0 ≤ g < 6 → tbl_get bsign_tbl g = Some (if Z.even g then 1 else -1).
Proof.
  intros Hg.
  assert (Hc : g = 0 ∨ g = 1 ∨ g = 2 ∨ g = 3 ∨ g = 4 ∨ g = 5) by lia.
  destruct Hc as [-> | [-> | [-> | [-> | [-> | ->]]]]]; reflexivity.
Qed.

Lemma ccburst_lookup (hue g q : Z) :
  0 ≤ g < 6 → 0 ≤ q < 4 →
  ∃ row, tbl_get (ccburst_tbl hue) g = Some row
         ∧ tbl_get row q = Some (ccburst_of hue g q).
Proof.
  intros Hg Hq.
  assert (Hc : g = 0 ∨ g = 1 ∨ g = 2 ∨ g = 3 ∨ g = 4 ∨ g = 5) by lia.
  assert (Hd : q = 0 ∨ q = 1 ∨ q = 2 ∨ q = 3) by lia.
  destruct Hc as [-> | [-> | [-> | [-> | [-> | ->]]]]];
    (eexists; split; [reflexivity|]);
    destruct Hd as [-> | [-> | [-> | ->]]]; reflexivity.
Qed.

Lemma line_phase_start (n : Z) :
  0 ≤ n → line_phase bsign_tbl n = Some (start_phase n).
Proof.
  intros Hn. unfold line_phase, start_phase.
  rewrite !Z.rem_mod_nonneg by lia.
  pose proof (Z.mod_pos_bound n 6).
  rewrite bsign_lookup by lia. simpl.
  destruct (Z.even (n mod 6)); reflexivity.
Qed.

Lemma start_phase_range (n : Z) : 0 ≤ start_phase n ≤ 28.
Proof.
  unfold start_phase. pose proof (Z.mod_pos_bound n 12).
  destruct (Z.even (n mod 6)); lia.
Qed.

Lemma land_3_mod (t : Z) : Z.land t 3 = t mod 4.
Proof. apply (Z.land_ones t 2). lia. Qed.

(** The source row needs no clamping, and the fetch stays inside the
    source frame. *)
Lemma source_row_floor (s : PAL_SETTINGS) (y : Z) :
  0 < PAL_LINES → 1 ≤ h s → 0 ≤ y < PAL_LINES →
  source_row s PAL_LINES y = (y * h s) / PAL_LINES
  ∧ 0 ≤ source_row s PAL_LINES y < h s
  ∧ clamp_row s (source_row s PAL_LINES y) = source_row s PAL_LINES y.
Proof.
  intros Hl Hh Hy. unfold source_row.
  rewrite Z.quot_div_nonneg by nia.
  assert (Hr : 0 ≤ y * h s / PAL_LINES < h s).
  { split; [apply Z.div_pos; nia|].
    apply Z.div_lt_upper_bound; [lia | nia]. }
  split; [reflexivity|]. split; [exact Hr|].
  unfold clamp_row. cbv zeta.
  destruct (Z.leb_spec (h s) (y * h s / PAL_LINES)); [lia|].
  destruct (Z.ltb_spec (y * h s / PAL_LINES) 0); lia.
Qed.

Lemma source_col_floor (s : PAL_SETTINGS) (x : Z) :
  0 < AV_LEN → 1 ≤ w s → 0 ≤ x < AV_LEN →
  (x * w s) ÷ AV_LEN = (x * w s) / AV_LEN ∧ 0 ≤ (x * w s) ÷ AV_LEN < w s.
Proof.
  intros Hl Hw Hx. rewrite Z.quot_div_nonneg by nia.
  split; [reflexivity|].
  split; [apply Z.div_pos; nia|].
  apply Z.div_lt_upper_bound; [lia | nia].
Qed.

Lemma fetch_in_frame (s : PAL_SETTINGS) (y x : Z) :
  0 < PAL_LINES → 0 < AV_LEN → 1 ≤ w s → 1 ≤ h s →
  0 ≤ y < PAL_LINES → 0 ≤ x < AV_LEN →
  (x * w s) ÷ AV_LEN + clamp_row s (source_row s PAL_LINES y) * w s
  = fetch_index s y x
  ∧ 0 ≤ fetch_index s y x < w s * h s.
Proof.
  intros Hl Ha Hw Hh Hy Hx.
  destruct (source_row_floor s y Hl Hh Hy) as (E1 & R1 & C1).
  destruct (source_col_floor s x Ha Hw Hx) as (E2 & R2).
  rewrite C1. unfold fetch_index. rewrite <- E1, <- E2.
  split; [reflexivity|]. nia.
Qed.

Lemma pixel_ire_bounds (bp wp p phase : Z) :
  0 ≤ phase →
  ∃ s0 s1 s2 s3,
    square_sample p (phase + 0) = Some s0 ∧
    square_sample p (phase + 1) = Some s1 ∧
    square_sample p (phase + 2) = Some s2 ∧
    square_sample p (phase + 3) = Some s3 ∧
    -68812 ≤ s0 + s1 + s2 + s3 ≤ 451860 ∧
    pixel_ire bp wp p phase
    = Some (Z.shiftr ((BLACK_LEVEL + bp + s0 + s1 + s2 + s3) * wp ÷ 110) 12).
Proof.
  intros Hp.
  destruct (square_sample_bounds p (phase + 0)) as (s0 & E0 & R0); [lia|].
  destruct (square_sample_bounds p (phase + 1)) as (s1 & E1 & R1); [lia|].
  destruct (square_sample_bounds p (phase + 2)) as (s2 & E2 & R2); [lia|].
  destruct (square_sample_bounds p (phase + 3)) as (s3 & E3 & R3); [lia|].
  exists s0, s1, s2, s3. unfold pixel_ire. rewrite E0, E1, E2, E3.
  repeat (split; [first [reflexivity | lia]|]). reflexivity.
Qed.

Section Composer.
Hypothesis Hwf : core_wf.

Lemma cb_beg_nonneg : 0 ≤ CB_BEG.
Proof.
  pose proof (wf_sync_beg Hwf). pose proof (wf_bw_beg Hwf).
  pose proof (wf_cb_beg Hwf). lia.
Qed.

(** The colour-burst loop of the line of absolute index [n]. *)
Lemma burst_loop (hue : Z) (a : list Z) (iccf : Z → Z → Z) (n base : Z) :
  0 ≤ n → 0 ≤ base →
  base + CB_END ≤ Z.of_nat (length a) →
  ∃ a' iccf',
    for_range CB_BEG CB_END (burst_body (ccburst_tbl hue) base n) (a, iccf)
    = Some (a', iccf') ∧
    written a a' base CB_BEG CB_END
            (fun t => burst_sample hue (n mod 6) (t mod 4)) ∧
    (∀ t, CB_BEG ≤ t < CB_END →
          iccf' (n mod 6) (t mod 4)
          = schar (burst_sample hue (n mod 6) (t mod 4))) ∧
    (∀ g q, iccf' g q = iccf g q ∨ iccf' g q = schar (burst_sample hue g q)).
Proof.
  intros Hn Hb Hlen. pose proof cb_beg_nonneg as Hc.
  pose proof (wf_cb_end Hwf) as He.
  set (F := fun t => burst_sample hue (n mod 6) (t mod 4)).
  destruct (for_range_inv
    (fun t (st : list Z * (Z → Z → Z)) =>
       written a st.1 base CB_BEG t F ∧
       (∀ u, CB_BEG ≤ u < t → st.2 (n mod 6) (u mod 4) = schar (F u)) ∧
       (∀ g q, st.2 g q = iccf g q ∨ st.2 g q = schar (burst_sample hue g q)))
    (burst_body (ccburst_tbl hue) base n) CB_BEG CB_END (a, iccf))
    as ([a' iccf'] & Hf & W & I1 & I2).
  - exact He.
  - split; [apply written_nil; lia|]. split; [intros; lia | auto].
  - intros t [a1 m1] Ht (W1 & J1 & J2). simpl in W1, J1, J2.
    pose proof (Z.mod_pos_bound n 6) as Hg.
    pose proof (Z.mod_pos_bound t 4) as Hq.
    destruct (ccburst_lookup hue (n mod 6) (t mod 4)) as (row & R1 & R2);
      [lia | lia |].
    destruct (store_is_Some a1 (base + t) (F t)) as (a2 & Hst).
    { rewrite (wr_length _ _ _ _ _ _ W1). lia. }
    exists (a2, upd2 m1 (n mod 6) (t mod 4) (schar (F t))).
    split.
    + unfold burst_body. rewrite Z.rem_mod_nonneg by lia.
      rewrite land_3_mod, R1. simpl. rewrite R2. simpl.
      fold (burst_sample hue (n mod 6) (t mod 4)). fold (F t).
      rewrite Hst. simpl. rewrite (load_store_eq _ _ _ _ Hst). reflexivity.
    + simpl. split; [|split].
      * eapply written_snoc; [lia | exact W1 | exact Hst].
      * intros u Hu. unfold upd2. rewrite Z.eqb_refl. simpl.
        destruct (Z.eqb_spec (u mod 4) (t mod 4)) as [E|E].
        -- unfold F. rewrite E. reflexivity.
        -- apply J1. destruct (Z.eq_dec u t); [congruence | lia].
      * intros g q. unfold upd2.
        destruct (Z.eqb_spec g (n mod 6)) as [->|E1];
          [destruct (Z.eqb_spec q (t mod 4)) as [->|E2]|]; simpl; auto.
  - exists a', iccf'. auto.
Qed.

(** The active-video loop of output line [y]. *)
Lemma active_loop (v : PAL_CRT) (s : PAL_SETTINGS) (a : list Z) (y : Z) :
  source_ok s →
  0 ≤ y < PAL_LINES →
  0 ≤ (y + PAL_TOP) * PAL_HRES →
  (y + PAL_TOP) * PAL_HRES + (AV_X0 + AV_LEN) ≤ Z.of_nat (length a) →
  ∃ st,
    for_range 0 AV_LEN
      (active_body v s AV_LEN
         (clamp_row s (source_row s PAL_LINES y) * w s) AV_X0 PAL_TOP y)
      (a, start_phase (y + PAL_TOP))
    = Some st ∧
    written a st.1 ((y + PAL_TOP) * PAL_HRES) AV_X0 (AV_X0 + AV_LEN)
            (fun t => active_sample v s y (t - AV_X0)).
Proof.
  intros (Hw & Hh & Hd) Hy Hb Hlen.
  pose proof (wf_av_len Hwf) as Ha. pose proof (wf_lines Hwf) as Hl.
  assert (Hx0 : 0 ≤ AV_X0).
  { pose proof cb_beg_nonneg. pose proof (wf_cb_end Hwf).
    pose proof (wf_av_beg Hwf). lia. }
  set (base := (y + PAL_TOP) * PAL_HRES) in *.
  set (F := fun t => active_sample v s y (t - AV_X0)).
  destruct (for_range_inv
    (fun x (st : list Z * Z) =>
       written a st.1 base AV_X0 (AV_X0 + x) F ∧
       st.2 = start_phase (y + PAL_TOP) + 3 * x)
    (active_body v s AV_LEN
       (clamp_row s (source_row s PAL_LINES y) * w s) AV_X0 PAL_TOP y)
    0 AV_LEN (a, start_phase (y + PAL_TOP))) as (st & Hf & W & _).
  - lia.
  - simpl. split; [apply written_nil; lia | lia].
  - intros x [a1 ph] Hx (W1 & Hph). simpl in W1, Hph.
    destruct (fetch_in_frame s y x Hl Ha Hw Hh Hy Hx) as (Ei & Ri).
    destruct (tbl_get_is_Some (data s) (fetch_index s y x)) as (p & Hp);
      [lia|].
    pose proof (start_phase_range (y + PAL_TOP)) as Hsp.
    destruct (pixel_ire_bounds (black_point v) (white_point v) p ph)
      as (s0 & s1 & s2 & s3 & _ & _ & _ & _ & _ & Hire); [lia|].
    assert (HF : F (AV_X0 + x)
                 = Z.shiftr ((BLACK_LEVEL + black_point v + s0 + s1 + s2 + s3)
                             * white_point v ÷ 110) 12).
    { unfold F, active_sample.
      replace (AV_X0 + x - AV_X0) with x by lia.
      rewrite Hp. simpl. rewrite <- Hph, Hire. reflexivity. }
    destruct (store_is_Some a1 (base + (AV_X0 + x)) (F (AV_X0 + x)))
      as (a2 & Hst).
    { rewrite (wr_length _ _ _ _ _ _ W1). lia. }
    exists (a2, ph + 3). split.
    + unfold active_body. rewrite Ei, Hp. simpl. rewrite Hire. simpl.
      rewrite <- HF.
      replace (x + AV_X0 + (y + PAL_TOP) * PAL_HRES)
        with (base + (AV_X0 + x)) by (unfold base; lia).
      rewrite Hst. reflexivity.
    + simpl. split; [|lia].
      replace (AV_X0 + (x + 1)) with (AV_X0 + x + 1) by lia.
      eapply written_snoc; [lia | exact W1 | exact Hst].
  - exists st. split; [exact Hf|].
    replace (AV_X0 + AV_LEN) with (AV_X0 + AV_LEN) by lia. exact W.
Qed.

(** The windows of a line lie inside the line, in this order. *)
Lemma windows_ordered :
  0 ≤ BW_BEG ∧ BW_BEG ≤ CB_BEG ∧ CB_BEG ≤ CB_END ∧ CB_END ≤ AV_X0
  ∧ 0 < AV_LEN ∧ AV_X0 + AV_LEN ≤ PAL_HRES.
Proof.
  pose proof (wf_sync_beg Hwf). pose proof (wf_bw_beg Hwf).
  pose proof (wf_cb_beg Hwf). pose proof (wf_cb_end Hwf).
  pose proof (wf_av_beg Hwf). pose proof (wf_av_len Hwf).
  pose proof (wf_av_end Hwf). lia.
Qed.

(** One iteration of the loop over the output lines. *)
Lemma line_body_done (v : PAL_CRT) (s : PAL_SETTINGS) (a : list Z)
    (iccf : Z → Z → Z) (y : Z) :
  source_ok s →
  0 ≤ y < PAL_LINES →
  Z.of_nat (length a) = PAL_VRES * PAL_HRES →
  ∃ a' iccf',
    line_body v s bsign_tbl (ccburst_tbl (hue s)) AV_LEN PAL_LINES AV_X0
              PAL_TOP y (a, iccf) = Some (a', iccf') ∧
    line_done v s a a' y ∧
    (∀ t, CB_BEG ≤ t < CB_END →
          iccf' ((y + PAL_TOP) mod 6) (t mod 4)
          = schar (burst_sample (hue s) ((y + PAL_TOP) mod 6) (t mod 4))) ∧
    (∀ g q, iccf' g q = iccf g q
            ∨ iccf' g q = schar (burst_sample (hue s) g q)).
Proof.
  intros Hsrc Hy Hlen.
  destruct windows_ordered as (O1 & O2 & O3 & O4 & O5 & O6).
  pose proof (wf_top Hwf) as Htop. pose proof (wf_bot Hwf) as Hbot.
  destruct (row_in_field Hwf (y + PAL_TOP) PAL_HRES) as (B0 & B1); [lia..|].
  set (base := (y + PAL_TOP) * PAL_HRES) in *.
  destruct (store_loop a base BW_BEG CB_BEG (fun _ => SYNC_LEVEL))
    as (a1 & E1 & W1); [lia|]. cbv beta in E1.
  pose proof (wr_length _ _ _ _ _ _ W1) as L1.
  destruct (burst_loop (hue s) a1 iccf (y + PAL_TOP) base)
    as (a2 & iccf' & E2 & W2 & I1 & I2); [lia.. |].
  pose proof (wr_length _ _ _ _ _ _ W2) as L2.
  destruct (active_loop v s a2 y Hsrc Hy) as (st & E3 & W3); [fold base; lia..|].
  fold base in W3.
  exists st.1, iccf'. split; [|split; [|split; [exact I1 | exact I2]]].
  - unfold line_body. fold base. rewrite E1. simpl.
    fold CB_END. rewrite E2. simpl.
    rewrite line_phase_start by lia. simpl.
    rewrite E3. reflexivity.
  - split.
    + rewrite (wr_length _ _ _ _ _ _ W3). congruence.
    + intros t Ht. fold base.
      rewrite (wr_out _ _ _ _ _ _ W3), (wr_out _ _ _ _ _ _ W2) by lia.
      rewrite (wr_in _ _ _ _ _ _ W1) by lia.
      rewrite schar_id by apply (wf_sync_level Hwf). reflexivity.
    + intros t Ht. fold base.
      rewrite (wr_out _ _ _ _ _ _ W3) by lia.
      apply (wr_in _ _ _ _ _ _ W2). lia.
    + intros x Hx. fold base.
      rewrite (wr_in _ _ _ _ _ _ W3) by lia.
      replace (AV_X0 + x - AV_X0) with x by lia. reflexivity.
    + intros i Hi1 Hi2. fold base in Hi1, Hi2.
      rewrite (wr_out _ _ _ _ _ _ W3), (wr_out _ _ _ _ _ _ W2),
        (wr_out _ _ _ _ _ _ W1) by lia.
      reflexivity.
Qed.

(** The loop over the output lines. *)
Lemma lines_done (v : PAL_CRT) (s : PAL_SETTINGS) (a : list Z)
    (iccf0 : Z → Z → Z) :
  source_ok s →
  Z.of_nat (length a) = PAL_VRES * PAL_HRES →
  ∃ a' iccf,
    for_range 0 PAL_LINES
      (line_body v s bsign_tbl (ccburst_tbl (hue s)) AV_LEN PAL_LINES AV_X0
                 PAL_TOP) (a, iccf0) = Some (a', iccf) ∧
    field_done v s a a' PAL_LINES ∧
    iccf_done s iccf0 iccf PAL_LINES.
Proof.
  intros Hsrc Hlen.
  destruct windows_ordered as (O1 & O2 & O3 & O4 & O5 & O6).
  pose proof (wf_top Hwf) as Htop. pose proof (wf_bot Hwf) as Hbot.
  destruct (for_range_inv
    (fun Y (st : list Z * (Z → Z → Z)) =>
       field_done v s a st.1 Y ∧ iccf_done s iccf0 st.2 Y)
    (line_body v s bsign_tbl (ccburst_tbl (hue s)) AV_LEN PAL_LINES AV_X0
               PAL_TOP) 0 PAL_LINES (a, iccf0)) as ([a' iccf] & E & FD & IC).
  - pose proof (wf_lines Hwf). lia.
  - simpl. split; split; intros; first [reflexivity | lia | auto].
  - intros Y [a1 m1] HY ([L1 S1 B1 A1 U1] & [J1 J2]). simpl in *.
    destruct (line_body_done v s a1 m1 Y Hsrc HY) as (a2 & m2 & E2 & LD & K1 & K2).
    { congruence. }
    destruct LD as [L2 S2 B2 A2 U2].
    assert (Hold : ∀ y t, 0 ≤ y < Y → 0 ≤ t < PAL_HRES →
              load a2 ((y + PAL_TOP) * PAL_HRES + t)
              = load a1 ((y + PAL_TOP) * PAL_HRES + t)).
    { intros y t Hy Ht.
      apply U2; apply (row_disjoint Hwf); lia. }
    exists (a2, m2). split; [exact E2|]. simpl. split; split.
    + congruence.
    + intros y t Hy Ht. destruct (Z.eq_dec y Y) as [->|Hne].
      * apply S2. exact Ht.
      * rewrite Hold by lia. apply S1; lia.
    + intros y t Hy Ht. destruct (Z.eq_dec y Y) as [->|Hne].
      * apply B2. exact Ht.
      * rewrite Hold by lia. apply B1; lia.
    + intros y x Hy Hx. destruct (Z.eq_dec y Y) as [->|Hne].
      * apply A2. exact Hx.
      * rewrite Hold by lia. apply A1; lia.
    + intros n t Ht Hn. rewrite <- U1; [| lia | intros [? ?]; apply Hn; lia].
      destruct (Z.eq_dec n (Y + PAL_TOP)) as [->|Hne].
      * apply U2; lia.
      * apply U2; apply (row_disjoint Hwf); lia.
    + intros y t Hy Ht. destruct (Z.eq_dec y Y) as [->|Hne].
      * apply K1. exact Ht.
      * destruct (K2 ((y + PAL_TOP) mod 6) (t mod 4)) as [-> | ->];
          [apply J1; lia | reflexivity].
    + intros g q. destruct (K2 g q) as [-> | ->]; [apply J2 | auto].
  - exists a', iccf. auto.
Qed.

End Composer.

End Lines.

Lemma wrapped_int_id (z : Z) :
  Checked.INT_MIN ≤ z ≤ Checked.INT_MAX → Wrapped.int z = z.
Proof.
  unfold Checked.INT_MIN, Checked.INT_MAX, Wrapped.int. intros Hz.
  rewrite Z.mod_small; lia.
Qed.

(** Inside the bounds on the products, the checked and the wrapped
    computation of the fetch index both give the index of the model. *)
Lemma fetch_exact `{PalCore} (s : PAL_SETTINGS) (y x : Z) :
  0 < PAL_LINES → 0 < AV_LEN → 1 ≤ w s → 1 ≤ h s →
  PAL_LINES * h s ≤ Checked.INT_MAX →
  AV_LEN * w s ≤ Checked.INT_MAX →
  w s * h s ≤ Checked.INT_MAX →
  0 ≤ y < PAL_LINES → 0 ≤ x < AV_LEN →
  CheckedFetch.fetch s AV_LEN PAL_LINES y x
  = Some (x * w s ÷ AV_LEN + clamp_row s (source_row s PAL_LINES y) * w s)
  ∧ Wrapped.source_row s PAL_LINES y = source_row s PAL_LINES y
  ∧ Wrapped.fetch s AV_LEN PAL_LINES y x
    = x * w s ÷ AV_LEN + clamp_row s (source_row s PAL_LINES y) * w s.
Proof.
  unfold Checked.INT_MAX. intros Hl Ha Hw Hh B1 B2 B3 Hy Hx.
  destruct (source_row_floor s y Hl Hh Hy) as (E1 & R1 & C1).
  destruct (source_col_floor s x Ha Hw Hx) as (E2 & R2).
  assert (A1 : 0 ≤ y * h s ≤ PAL_LINES * h s)
    by (split; [nia | apply Z.mul_le_mono_nonneg_r; lia]).
  assert (A2 : 0 ≤ x * w s ≤ AV_LEN * w s)
    by (split; [nia | apply Z.mul_le_mono_nonneg_r; lia]).
  assert (A3 : 0 ≤ source_row s PAL_LINES y * w s ≤ h s * w s)
    by (split; [nia | apply Z.mul_le_mono_nonneg_r; lia]).
  assert (A4 : w s * h s = h s * w s) by lia.
  assert (A5 : 0 ≤ x * w s ÷ AV_LEN + source_row s PAL_LINES y * w s
               < w s * h s) by nia.
  assert (Wr : Wrapped.source_row s PAL_LINES y = source_row s PAL_LINES y).
  { unfold Wrapped.source_row.
    rewrite (wrapped_int_id (y * h s))
      by (unfold Checked.INT_MIN, Checked.INT_MAX; lia).
    fold (source_row s PAL_LINES y).
    apply wrapped_int_id. unfold Checked.INT_MIN, Checked.INT_MAX. nia. }
  split; [|split; [exact Wr|]].
  - unfold CheckedFetch.fetch, Checked.mul, Checked.div, Checked.add.
    rewrite (int_ok (y * h s))
      by (unfold Checked.INT_MIN, Checked.INT_MAX; lia). simpl.
    destruct (Z.eqb_spec PAL_LINES 0) as [?|_]; [lia|].
    fold (source_row s PAL_LINES y).
    rewrite (int_ok (source_row s PAL_LINES y))
      by (unfold Checked.INT_MIN, Checked.INT_MAX; nia). simpl.
    change (CheckedFetch.clamp (h s) (source_row s PAL_LINES y))
      with (clamp_row s (source_row s PAL_LINES y)).
    rewrite C1.
    rewrite (int_ok (source_row s PAL_LINES y * w s))
      by (unfold Checked.INT_MIN, Checked.INT_MAX; lia). simpl.
    rewrite (int_ok (x * w s))
      by (unfold Checked.INT_MIN, Checked.INT_MAX; lia). simpl.
    destruct (Z.eqb_spec AV_LEN 0) as [?|_]; [lia|].
    rewrite (int_ok (x * w s ÷ AV_LEN))
      by (unfold Checked.INT_MIN, Checked.INT_MAX; nia). simpl.
    apply int_ok. unfold Checked.INT_MIN, Checked.INT_MAX. lia.
  - unfold Wrapped.fetch. rewrite Wr.
    change (CheckedFetch.clamp (h s) (source_row s PAL_LINES y))
      with (clamp_row s (source_row s PAL_LINES y)).
    rewrite C1.
    rewrite (wrapped_int_id (source_row s PAL_LINES y * w s))
      by (unfold Checked.INT_MIN, Checked.INT_MAX; lia).
    rewrite (wrapped_int_id (x * w s))
      by (unfold Checked.INT_MIN, Checked.INT_MAX; lia).
    rewrite (wrapped_int_id (x * w s ÷ AV_LEN))
      by (unfold Checked.INT_MIN, Checked.INT_MAX; nia).
    apply wrapped_int_id. unfold Checked.INT_MIN, Checked.INT_MAX. lia.
Qed.

(** C10.  For a source frame of width [w >= 1] and height [h >= 1]
    whose products [PAL_LINES * h], [AV_LEN * w] and [w * h] fit an
    [int], every output line [y] of [0 .. PAL_LINES) and every column
    [x] of [0 .. AV_LEN): the source row [(y * h) / PAL_LINES] is the
    floor of the quotient and lies in [0 .. h) before the two clamping
    tests, which leave it as it is; the index of the pixel fetched lies
    in [0 .. w * h), and it is the index that the 32-bit arithmetic
    computes, checked or wrapped; so the fetch that [active_body] makes
    in a buffer of [w * h] pixels is inside the buffer. *)
Theorem source_fetch_in_bounds `{PalCore} (s : PAL_SETTINGS) (y x : Z) :
  0 < PAL_LINES → 0 < AV_LEN →
  1 ≤ w s → 1 ≤ h s →
  PAL_LINES * h s ≤ Checked.INT_MAX →
  AV_LEN * w s ≤ Checked.INT_MAX →
  w s * h s ≤ Checked.INT_MAX →
  0 ≤ y < PAL_LINES → 0 ≤ x < AV_LEN →
  let sy := source_row s PAL_LINES y in
  let i := (x * w s) ÷ AV_LEN + clamp_row s sy * w s in
  sy = (y * h s) / PAL_LINES ∧
  0 ≤ sy < h s ∧
  clamp_row s sy = sy ∧
  i = (x * w s) / AV_LEN + sy * w s ∧
  0 ≤ i < w s * h s ∧
  CheckedFetch.fetch s AV_LEN PAL_LINES y x = Some i ∧
  Wrapped.source_row s PAL_LINES y = sy ∧
  Wrapped.fetch s AV_LEN PAL_LINES y x = i ∧
  (Z.of_nat (length (data s)) = w s * h s →
   ∃ p, tbl_get (data s) i = Some p ∧
     ∀ (v : PAL_CRT) (xo yo phase : Z) (a : list Z),
       active_body v s AV_LEN (clamp_row s sy * w s) xo yo y x (a, phase)
       = (ire ← pixel_ire (black_point v) (white_point v) p phase;
          a' ← store a ((x + xo) + (y + yo) * PAL_HRES) ire;
          Some (a', phase + 3))).
Proof.
  intros Hl Ha Hw Hh B1 B2 B3 Hy Hx sy i.
  destruct (source_row_floor s y Hl Hh Hy) as (E1 & R1 & C1).
  destruct (fetch_in_frame s y x Hl Ha Hw Hh Hy Hx) as (E & R).
  destruct (fetch_exact s y x Hl Ha Hw Hh B1 B2 B3 Hy Hx) as (F1 & F2 & F3).
  fold sy in E1, R1, C1, F1, F2, F3. fold sy i in E. fold i in F1, F3.
  split; [exact E1|]. split; [exact R1|]. split; [exact C1|].
  split; [|split; [|split; [exact F1 | split; [exact F2 | split; [exact F3|]]]]].
  - rewrite E. unfold fetch_index. rewrite <- E1. reflexivity.
  - rewrite E. exact R.
  - intros Hd.
    destruct (tbl_get_is_Some (data s) i) as (p & Hp);
      [rewrite Hd, E; exact R|].
    exists p. split; [exact Hp|].
    intros v xo yo phase a. unfold active_body. fold i. rewrite Hp.
    reflexivity.
Qed.

Lemma source_fetch_in_bounds_witness :
  let s := ref_frame 0 in
  let sy := source_row s PAL_LINES 289 in
  let i := (921 * w s) ÷ AV_LEN + clamp_row s sy * w s in
  sy = (289 * h s) / PAL_LINES ∧
  0 ≤ sy < h s ∧
  clamp_row s sy = sy ∧
  i = (921 * w s) / AV_LEN + sy * w s ∧
  0 ≤ i < w s * h s ∧
  CheckedFetch.fetch s AV_LEN PAL_LINES 289 921 = Some i ∧
  Wrapped.source_row s PAL_LINES 289 = sy ∧
  Wrapped.fetch s AV_LEN PAL_LINES 289 921 = i ∧
  (Z.of_nat (length (data s)) = w s * h s →
   ∃ p, tbl_get (data s) i = Some p ∧
     ∀ (v : PAL_CRT) (xo yo phase : Z) (a : list Z),
       active_body v s AV_LEN (clamp_row s sy * w s) xo yo 289 921 (a, phase)
       = (ire ← pixel_ire (black_point v) (white_point v) p phase;
          a' ← store a ((921 + xo) + (289 + yo) * PAL_HRES) ire;
          Some (a', phase + 3))).
Proof.
  apply (source_fetch_in_bounds (ref_frame 0) 289 921);
    vm_compute; intuition discriminate.
Defined.

(** C10, as stated, fails: the width 2400000 and the height 1 are both
    at least 1, yet at column 895 the product [x * w] does not fit an
    [int]; wrapped to 32 bits it gives the index -2328597, outside the
    frame.  And for the height 7500000 the product [y * h] of line 289
    wraps to the row -7336094, which the clamp does change. *)
Lemma wide_frame_fetch_wraps :
  1 ≤ w wide_frame ∧ 1 ≤ h wide_frame ∧
  0 ≤ 895 < AV_LEN ∧ 0 ≤ 289 < PAL_LINES ∧
  Z.of_nat (length (data wide_frame)) = w wide_frame * h wide_frame ∧
  CheckedFetch.fetch wide_frame AV_LEN PAL_LINES 0 895 = None ∧
  Wrapped.fetch wide_frame AV_LEN PAL_LINES 0 895 = -2328597 ∧
  ¬ (0 ≤ Wrapped.fetch wide_frame AV_LEN PAL_LINES 0 895
     < w wide_frame * h wide_frame) ∧
  tbl_get (data wide_frame) (Wrapped.fetch wide_frame AV_LEN PAL_LINES 0 895)
  = None ∧
  Wrapped.source_row tall_frame PAL_LINES 289 = -7336094 ∧
  ¬ (0 ≤ Wrapped.source_row tall_frame PAL_LINES 289 < h tall_frame) ∧
  clamp_row tall_frame (Wrapped.source_row tall_frame PAL_LINES 289)
  ≠ Wrapped.source_row tall_frame PAL_LINES 289.
Proof.
  assert (F : Wrapped.fetch wide_frame AV_LEN PAL_LINES 0 895 = -2328597).
  { unfold Wrapped.fetch, Wrapped.source_row, wide_frame. cbn [w h].
    vm_compute. reflexivity. }
  assert (R : Wrapped.source_row tall_frame PAL_LINES 289 = -7336094).
  { unfold Wrapped.source_row, tall_frame. cbn [w h]. vm_compute. reflexivity. }
  assert (L : Z.of_nat (length (data wide_frame))
               = w wide_frame * h wide_frame).
  { unfold wide_frame. cbn [w h data].
    rewrite length_replicate. rewrite Z2Nat.id by lia. reflexivity. }
  assert (C : CheckedFetch.fetch wide_frame AV_LEN PAL_LINES 0 895 = None).
  { unfold CheckedFetch.fetch, wide_frame. cbn [w h]. vm_compute. reflexivity. }
  rewrite F, R.
  split; [unfold wide_frame; cbn [w]; lia|].
  split; [unfold wide_frame; cbn [h]; lia|].
  split; [vm_compute; intuition discriminate|].
  split; [vm_compute; intuition discriminate|].
  split; [exact L|]. split; [exact C|]. split; [reflexivity|].
  split; [lia|]. split; [reflexivity|]. split; [reflexivity|].
  split; [lia|].
  unfold clamp_row, tall_frame. cbn [h]. vm_compute. discriminate.
Qed.

(** ** The whole encoder *)

Section Encode.
Context `{PalCore}.
Hypothesis Hwf : core_wf.

Lemma export_ccf_at (iccf ccf0 : Z → Z → Z) (g q : Z) :
  0 ≤ g < 6 → 0 ≤ q < 4 →
  export_ccf iccf ccf0 g q = Z.shiftl (iccf g q) 7.
Proof.
  intros Hg Hq.
  assert (Hc : g = 0 ∨ g = 1 ∨ g = 2 ∨ g = 3 ∨ g = 4 ∨ g = 5) by lia.
  assert (Hd : q = 0 ∨ q = 1 ∨ q = 2 ∨ q = 3) by lia.
  destruct Hc as [-> | [-> | [-> | [-> | [-> | ->]]]]];
    destruct Hd as [-> | [-> | [-> | ->]]]; reflexivity.
Qed.

Lemma latched_initialized (s : PAL_SETTINGS) :
  field_initialized (latched s) ≠ 0.
Proof.
  unfold latched. destruct (Z.eqb_spec (field_initialized s) 0); simpl; lia.
Qed.

Lemma latched_fields (s : PAL_SETTINGS) :
  data (latched s) = data s ∧ w (latched s) = w s ∧ h (latched s) = h s
  ∧ hue (latched s) = hue s.
Proof.
  unfold latched. destruct (field_initialized s =? 0); simpl; auto.
Qed.

Lemma field_done_ext (v v' : PAL_CRT) (s s' : PAL_SETTINGS) (a a' : list Z)
    (Y : Z) :
  black_point v' = black_point v → white_point v' = white_point v →
  data s' = data s → w s' = w s → h s' = h s → hue s' = hue s →
  field_done v' s' a a' Y → field_done v s a a' Y.
Proof.
  intros Eb Ew Ed Ewi Eh Ehu [L S B A U].
  split; [exact L | exact S | | | exact U].
  - intros y t Hy Ht. rewrite <- Ehu. apply B; assumption.
  - intros y x Hy Hx. rewrite (A y x Hy Hx). do 2 f_equal.
    unfold active_sample, fetch_index. rewrite Eb, Ew, Ed, Ewi, Eh. reflexivity.
Qed.

Lemma iccf_done_ext (s s' : PAL_SETTINGS) (m0 m : Z → Z → Z) (Y : Z) :
  hue s' = hue s → iccf_done s' m0 m Y → iccf_done s m0 m Y.
Proof.
  intros Ehu [J1 J2]. split.
  - intros y t Hy Ht. rewrite <- Ehu. apply J1; assumption.
  - intros g q. rewrite <- Ehu. apply J2.
Qed.

(** What a call of [pal_modulate] does: it builds the skeleton if the
    latch is not set, composes every output line, and exports the
    calibration table. *)
Lemma pal_modulate_done (iccf0 : Z → Z → Z) (v : PAL_CRT) (s : PAL_SETTINGS) :
  source_ok s →
  Z.of_nat (length (analog v)) = PAL_VRES * PAL_HRES →
  ∃ a0 a' iccf,
    (if field_initialized s =? 0
     then setup_field (analog v) = Some a0 else a0 = analog v) ∧
    for_range 0 PAL_LINES
      (line_body v (latched s) bsign_tbl (ccburst_tbl (hue s)) AV_LEN
                 PAL_LINES AV_X0 PAL_TOP) (a0, iccf0) = Some (a', iccf) ∧
    pal_modulate iccf0 v s
    = Some (mkCRT a' (black_point v) (white_point v)
                  (export_ccf iccf (ccf v)) 6, latched s) ∧
    Z.of_nat (length a0) = PAL_VRES * PAL_HRES ∧
    field_done v s a0 a' PAL_LINES ∧
    iccf_done s iccf0 iccf PAL_LINES.
Proof.
  intros Hsrc Hlen.
  destruct (latched_fields s) as (Ed & Ew & Eh & Ehu).
  assert (Hsrc' : source_ok (latched s)).
  { unfold source_ok. rewrite Ed, Ew, Eh. exact Hsrc. }
  unfold pal_modulate, latched in *.
  destruct (Z.eqb_spec (field_initialized s) 0) as [Hfi|Hfi].
  - destruct (setup_field_skeleton Hwf (analog v) Hlen) as (a0 & E0 & L0 & _).
    set (v1 := mkCRT a0 (black_point v) (white_point v) (ccf v) (cc_period v)).
    set (s1 := mkSettings (data s) (w s) (h s) (hue s) 1) in *.
    destruct (lines_done Hwf v1 s1 a0 iccf0 Hsrc') as (a' & m & E & FD & IC).
    { rewrite L0. exact Hlen. }
    exists a0, a', m. split; [exact E0|]. split; [exact E|].
    split; [|split; [rewrite L0; exact Hlen | split]].
    + rewrite E0. simpl. fold v1 s1. fold AV_X0.
      change (hue s1) with (hue s) in E. rewrite E. reflexivity.
    + apply (field_done_ext v v1 s s1); try reflexivity. exact FD.
    + apply (iccf_done_ext s s1); [reflexivity | exact IC].
  - destruct (lines_done Hwf v s (analog v) iccf0 Hsrc' Hlen)
      as (a' & m & E & FD & IC).
    exists (analog v), a', m. split; [reflexivity|]. split; [exact E|].
    split; [|split; [exact Hlen | split; assumption]].
    simpl. fold AV_X0. rewrite E. reflexivity.
Qed.

End Encode.

(** ** The reference instance *)

Lemma ref_frame_ok (p : Z) : source_ok (ref_frame p).
Proof.
  unfold source_ok, ref_frame. cbn [data w h].
  rewrite length_replicate, Z2Nat.id by lia. lia.
Qed.

Lemma ref_int_ranges (wp p : Z) :
  -4096 ≤ wp ≤ 4096 → int_ranges (ref_crt wp) (ref_frame p).
Proof.
  intros Hwp. split; unfold ref_crt, ref_frame;
    cbn [h w hue black_point white_point];
    first [exact Hwp | vm_compute; intuition discriminate].
Qed.

Lemma ref_crt_length (wp : Z) :
  Z.of_nat (length (analog (ref_crt wp))) = PAL_VRES * PAL_HRES.
Proof. exact ref_field_length. Qed.

(** The encoder run on the small field: a 4 by 3 frame whose first row
    is the code 0x00, whose second row is 0x20 and whose last row is
    0x0d with every emphasis bit.  Line 11 of the field: front porch,
    sync, the sync-to-burst window, four burst samples, and the twenty
    active-video samples from column 12 on. *)
Example pal_small_line_11 :
  samples (@pal_modulate pal_small (fun _ _ => 0)
             (mkCRT (replicate 560 0) 0 100 (fun _ _ => 0) 0)
             (mkSettings (replicate 4 0 ++ replicate 4 0x20
                          ++ replicate 4 0x1cd) 4 3 0 0))
          (11 * 40) 40
  = Some ([0; 0; -37; -37; -37; -37; -37; -20; 5; 19; -7; 0]
          ++ replicate 20 38 ++ replicate 8 0).
Proof. vm_compute. reflexivity. Qed.

Example pal_small_line_13 :
  samples (@pal_modulate pal_small (fun _ _ => 0)
             (mkCRT (replicate 560 0) 0 100 (fun _ _ => 0) 0)
             (mkSettings (replicate 4 0 ++ replicate 4 0x20
                          ++ replicate 4 0x1cd) 4 3 0 0))
          (13 * 40 + 12) 20
  = Some (replicate 20 (-16)).
Proof. vm_compute. reflexivity. Qed.

Example square_sample_runs :
  square_sample 0x000 0 = Some 43581 ∧ square_sample 0x02d 5 = Some 34406
  ∧ square_sample 0x1c2 3 = Some 26951 ∧ square_sample 0x00f 3 = Some 0
  ∧ square_sample 0x016 0 = Some 0 ∧ square_sample 0x016 6 = Some 75693.
Proof. vm_compute. repeat split. Qed.

(** ** Active video *)

(** The sample of a column, from the pixel it fetches. *)
Lemma active_sample_value `{PalCore} (v : PAL_CRT) (s : PAL_SETTINGS) (y x : Z) :
  core_wf → source_ok s →
  0 ≤ y < PAL_LINES → 0 ≤ x < AV_LEN →
  ∃ p s0 s1 s2 s3,
    tbl_get (data s) (fetch_index s y x) = Some p ∧
    square_sample p (start_phase (y + PAL_TOP) + 3 * x) = Some s0 ∧
    square_sample p (start_phase (y + PAL_TOP) + 3 * x + 1) = Some s1 ∧
    square_sample p (start_phase (y + PAL_TOP) + 3 * x + 2) = Some s2 ∧
    square_sample p (start_phase (y + PAL_TOP) + 3 * x + 3) = Some s3 ∧
    -68812 ≤ s0 + s1 + s2 + s3 ≤ 451860 ∧
    active_sample v s y x
    = Z.shiftr ((BLACK_LEVEL + black_point v + s0 + s1 + s2 + s3)
                * white_point v ÷ 110) 12.
Proof.
  intros Hwf (Hw & Hh & Hd) Hy Hx.
  destruct (fetch_in_frame s y x (wf_lines Hwf) (wf_av_len Hwf) Hw Hh Hy Hx)
    as (_ & Ri).
  destruct (tbl_get_is_Some (data s) (fetch_index s y x)) as (p & Hp); [lia|].
  pose proof (start_phase_range (y + PAL_TOP)) as Hsp.
  destruct (pixel_ire_bounds (black_point v) (white_point v) p
              (start_phase (y + PAL_TOP) + 3 * x))
    as (s0 & s1 & s2 & s3 & E0 & E1 & E2 & E3 & Hr & Hire); [lia|].
  rewrite Z.add_0_r in E0.
  exists p, s0, s1, s2, s3. repeat (split; [assumption|]).
  unfold active_sample. rewrite Hp. simpl. rewrite Hire. reflexivity.
Qed.

(** Inside the ranges of the black and white points, and up to the phase
    2^30, the checked modulation path gives what the model gives. *)
Lemma checked_pixel_ire_exact `{PalCore} (bp wp p phase : Z) :
  0 ≤ phase ≤ 1073741824 →
  -65536 ≤ BLACK_LEVEL + bp ≤ 65536 →
  -4096 ≤ wp ≤ 4096 →
  Checked.pixel_ire bp wp p phase = pixel_ire bp wp p phase.
Proof.
  intros Hph Hb Hwp.
  destruct (square_sample_bounds p (phase + 0)) as (s0 & E0 & R0); [lia|].
  destruct (square_sample_bounds p (phase + 1)) as (s1 & E1 & R1); [lia|].
  destruct (square_sample_bounds p (phase + 2)) as (s2 & E2 & R2); [lia|].
  destruct (square_sample_bounds p (phase + 3)) as (s3 & E3 & R3); [lia|].
  unfold Checked.pixel_ire, pixel_ire, Checked.add, Checked.mul, Checked.div.
  rewrite E0, E1, E2, E3. simpl.
  rewrite (int_ok (BLACK_LEVEL + bp))
    by (unfold Checked.INT_MIN, Checked.INT_MAX; lia). simpl.
  rewrite (int_ok (phase + 0))
    by (unfold Checked.INT_MIN, Checked.INT_MAX; lia). simpl.
  rewrite checked_square_sample, E0 by lia. simpl.
  rewrite (int_ok (BLACK_LEVEL + bp + s0))
    by (unfold Checked.INT_MIN, Checked.INT_MAX; lia). simpl.
  rewrite (int_ok (phase + 1))
    by (unfold Checked.INT_MIN, Checked.INT_MAX; lia). simpl.
  rewrite checked_square_sample, E1 by lia. simpl.
  rewrite (int_ok (BLACK_LEVEL + bp + s0 + s1))
    by (unfold Checked.INT_MIN, Checked.INT_MAX; lia). simpl.
  rewrite (int_ok (phase + 2))
    by (unfold Checked.INT_MIN, Checked.INT_MAX; lia). simpl.
  rewrite checked_square_sample, E2 by lia. simpl.
  rewrite (int_ok (BLACK_LEVEL + bp + s0 + s1 + s2))
    by (unfold Checked.INT_MIN, Checked.INT_MAX; lia). simpl.
  rewrite (int_ok (phase + 3))
    by (unfold Checked.INT_MIN, Checked.INT_MAX; lia). simpl.
  rewrite checked_square_sample, E3 by lia. simpl.
  rewrite (int_ok (BLACK_LEVEL + bp + s0 + s1 + s2 + s3))
    by (unfold Checked.INT_MIN, Checked.INT_MAX; lia). simpl.
  assert (Hm : -2119254016 ≤ (BLACK_LEVEL + bp + s0 + s1 + s2 + s3) * wp
               ≤ 2119254016) by nia.
  rewrite (int_ok ((BLACK_LEVEL + bp + s0 + s1 + s2 + s3) * wp))
    by (unfold Checked.INT_MIN, Checked.INT_MAX; lia). simpl.
  rewrite int_ok; [reflexivity|].
  unfold Checked.INT_MIN, Checked.INT_MAX.
  pose proof (Z.quot_le_mono _ _ 110 ltac:(lia) (proj1 Hm)).
  pose proof (Z.quot_le_mono _ _ 110 ltac:(lia) (proj2 Hm)).
  change (-2119254016 ÷ 110) with (-19265945) in *.
  change (2119254016 ÷ 110) with 19265945 in *. lia.
Qed.

(** C1.  For a frame, a hue, a black point and a white point in the
    ranges in which the [int] arithmetic of the encoder is exact
    ([int_ranges]): on every output line [y] of [0 .. PAL_LINES) and at
    every column [x] of [0 .. AV_LEN), [pal_modulate] stores at
    [(x + xo) + (y + PAL_TOP) * PAL_HRES] the value
    [((BLACK_LEVEL + black_point + s0 + s1 + s2 + s3) * white_point / 110)
    >> 12], where [s0 .. s3] are [square_sample] of the fetched pixel at
    the phases [phase .. phase + 3]; the pixel is
    [data[floor (x * w / AV_LEN) + floor (y * h / PAL_LINES) * w]]
    (with [w = 256] and [AV_LEN = 282], column 140 reads source column
    127); [phase] is twice [(y + PAL_TOP) mod 12], plus 6 when the group
    [(y + PAL_TOP) mod 6] is even, plus [3 * x].  The buffer being of
    [signed char], it holds that value as narrowed by the store, which is
    the value itself when it fits 8 bits.  The index of the fetch and
    the value are those that the checked 32-bit arithmetic computes. *)
Theorem pal_modulate_active_video `{PalCore} (iccf0 : Z → Z → Z)
    (v : PAL_CRT) (s : PAL_SETTINGS) :
  core_wf → source_ok s → int_ranges v s →
  Z.of_nat (length (analog v)) = PAL_VRES * PAL_HRES →
  ∃ v' s', pal_modulate iccf0 v s = Some (v', s') ∧
    ∀ y x, 0 ≤ y < PAL_LINES → 0 ≤ x < AV_LEN →
      let phase := (y + PAL_TOP) mod 12 * 2
                   + (if Z.even ((y + PAL_TOP) mod 6) then 6 else 0)
                   + 3 * x in
      ∃ p s0 s1 s2 s3,
        tbl_get (data s) (x * w s / AV_LEN + y * h s / PAL_LINES * w s)
        = Some p ∧
        square_sample p phase = Some s0 ∧
        square_sample p (phase + 1) = Some s1 ∧
        square_sample p (phase + 2) = Some s2 ∧
        square_sample p (phase + 3) = Some s3 ∧
        let ire := Z.shiftr ((BLACK_LEVEL + black_point v + s0 + s1 + s2 + s3)
                             * white_point v ÷ 110) 12 in
        load (analog v') (x + AV_X0 + (y + PAL_TOP) * PAL_HRES)
        = Some (schar ire) ∧
        (-128 ≤ ire ≤ 127 →
         load (analog v') (x + AV_X0 + (y + PAL_TOP) * PAL_HRES) = Some ire) ∧
        CheckedFetch.fetch s AV_LEN PAL_LINES y x
        = Some (x * w s / AV_LEN + y * h s / PAL_LINES * w s) ∧
        Checked.pixel_ire (black_point v) (white_point v) p phase = Some ire ∧
        (w s = 256 → AV_LEN = 282 → 140 * w s / AV_LEN = 127).
Proof.
  intros Hwf Hsrc Hint Hlen.
  destruct (pal_modulate_done Hwf iccf0 v s Hsrc Hlen)
    as (a0 & a' & m & _ & _ & E & _ & FD & _).
  eexists _, _. split; [exact E|]. simpl analog.
  intros y x Hy Hx phase.
  destruct (active_sample_value v s y x Hwf Hsrc Hy Hx)
    as (p & s0 & s1 & s2 & s3 & Hp & E0 & E1 & E2 & E3 & _ & Hv).
  exists p, s0, s1, s2, s3.
  split; [exact Hp|]. repeat (split; [assumption|]).
  intros ire.
  assert (Hl : load a' (x + AV_X0 + (y + PAL_TOP) * PAL_HRES)
               = Some (schar ire)).
  { replace (x + AV_X0 + (y + PAL_TOP) * PAL_HRES)
      with ((y + PAL_TOP) * PAL_HRES + (AV_X0 + x)) by lia.
    rewrite (fd_active _ _ _ _ _ FD y x Hy Hx), Hv. reflexivity. }
  split; [exact Hl|]. split; [|split; [|split]].
  - intros Hr. rewrite Hl, schar_id by exact Hr. reflexivity.
  - destruct Hsrc as (Hw & Hh & Hd).
    destruct (fetch_exact s y x (wf_lines Hwf) (wf_av_len Hwf) Hw Hh
                (ir_rows _ _ Hint) (ir_cols _ _ Hint) (ir_frame _ _ Hint)
                Hy Hx) as (F & _).
    destruct (fetch_in_frame s y x (wf_lines Hwf) (wf_av_len Hwf) Hw Hh Hy Hx)
      as (Ei & _).
    rewrite F, Ei. reflexivity.
  - pose proof (start_phase_range (y + PAL_TOP)) as Hsp.
    pose proof (ir_phase _ _ Hint) as Hav.
    assert (Hph : 0 ≤ phase ≤ 1073741824)
      by (unfold phase; unfold start_phase in Hsp; lia).
    rewrite (checked_pixel_ire_exact _ _ p phase Hph
               (ir_black _ _ Hint) (ir_white _ _ Hint)).
    unfold pixel_ire. rewrite Z.add_0_r.
    fold (start_phase (y + PAL_TOP)) in phase.
    unfold phase. rewrite E0, E1, E2, E3. reflexivity.
  - intros -> ->. reflexivity.
Qed.

Lemma pal_modulate_active_video_witness :
  ∃ v' s', pal_modulate (fun _ _ => 0) (ref_crt 100) (ref_frame 0x16)
           = Some (v', s') ∧
    ∀ y x, 0 ≤ y < PAL_LINES → 0 ≤ x < AV_LEN →
      let phase := (y + PAL_TOP) mod 12 * 2
                   + (if Z.even ((y + PAL_TOP) mod 6) then 6 else 0)
                   + 3 * x in
      ∃ p s0 s1 s2 s3,
        tbl_get (data (ref_frame 0x16))
                (x * w (ref_frame 0x16) / AV_LEN
                 + y * h (ref_frame 0x16) / PAL_LINES * w (ref_frame 0x16))
        = Some p ∧
        square_sample p phase = Some s0 ∧
        square_sample p (phase + 1) = Some s1 ∧
        square_sample p (phase + 2) = Some s2 ∧
        square_sample p (phase + 3) = Some s3 ∧
        let ire := Z.shiftr ((BLACK_LEVEL + black_point (ref_crt 100)
                              + s0 + s1 + s2 + s3)
                             * white_point (ref_crt 100) ÷ 110) 12 in
        load (analog v') (x + AV_X0 + (y + PAL_TOP) * PAL_HRES)
        = Some (schar ire) ∧
        (-128 ≤ ire ≤ 127 →
         load (analog v') (x + AV_X0 + (y + PAL_TOP) * PAL_HRES) = Some ire) ∧
        CheckedFetch.fetch (ref_frame 0x16) AV_LEN PAL_LINES y x
        = Some (x * w (ref_frame 0x16) / AV_LEN
                + y * h (ref_frame 0x16) / PAL_LINES * w (ref_frame 0x16)) ∧
        Checked.pixel_ire (black_point (ref_crt 100)) (white_point (ref_crt 100))
                          p phase = Some ire ∧
        (w (ref_frame 0x16) = 256 → AV_LEN = 282 →
         140 * w (ref_frame 0x16) / AV_LEN = 127).
Proof.
  apply (pal_modulate_active_video (fun _ _ => 0) (ref_crt 100)
           (ref_frame 0x16) pal_ref_wf (ref_frame_ok 0x16) (ref_int_ranges 100 0x16 ltac:(lia)) (ref_crt_length 100)).
Defined.

(** ** The calibration table *)

(** C5.  After [pal_modulate] on inputs in the ranges in which its [int]
    arithmetic is exact (the hue, which enters the burst angle, at most
    260000 in magnitude), for every phase group [g] of [0 .. 6) and
    quadrant [q] of [0 .. 4): on any line of the picture whose absolute
    index is [g] modulo 6, at any position [t] of the burst window with
    [t mod 4 = q], the signal holds the burst sample of [(g, q)], and
    [ccf[g][q]] is that sample shifted left by 7; [cc_period] is 6. *)
Theorem pal_modulate_calibration `{PalCore} (iccf0 : Z → Z → Z)
    (v : PAL_CRT) (s : PAL_SETTINGS) :
  core_wf → source_ok s → int_ranges v s →
  Z.of_nat (length (analog v)) = PAL_VRES * PAL_HRES →
  ∃ v' s', pal_modulate iccf0 v s = Some (v', s') ∧
    cc_period v' = 6 ∧
    ∀ g q n t,
      0 ≤ g < 6 → 0 ≤ q < 4 →
      PAL_TOP ≤ n < PAL_TOP + PAL_LINES → n mod 6 = g →
      CB_BEG ≤ t < CB_BEG + CB_CYCLES * PAL_CB_FREQ → t mod 4 = q →
      ∃ b, load (analog v') (n * PAL_HRES + t) = Some b ∧
           b = schar (Z.shiftr (BLANK_LEVEL + ccburst_of (hue s) g q
                                              * BURST_LEVEL) 5) ∧
           ccf v' g q = Z.shiftl b 7.
Proof.
  intros Hwf Hsrc Hint Hlen.
  destruct (pal_modulate_done Hwf iccf0 v s Hsrc Hlen)
    as (a0 & a' & m & _ & _ & E & _ & FD & IC).
  eexists _, _. split; [exact E|]. split; [reflexivity|].
  simpl analog. simpl ccf.
  intros g q n t Hg Hq Hn Eg Ht Eq.
  exists (schar (burst_sample (hue s) g q)).
  replace n with (n - PAL_TOP + PAL_TOP) in * by lia.
  split; [|split; [reflexivity|]].
  - rewrite (fd_burst _ _ _ _ _ FD (n - PAL_TOP) t) by (unfold CB_END; lia).
    rewrite Eg, Eq. reflexivity.
  - rewrite export_ccf_at by assumption. f_equal.
    rewrite <- Eg, <- Eq.
    apply (ic_set _ _ _ _ IC); unfold CB_END; lia.
Qed.

Lemma pal_modulate_calibration_witness :
  ∃ v' s', pal_modulate (fun _ _ => 0) (ref_crt 100) (ref_frame 0x16)
           = Some (v', s') ∧
    cc_period v' = 6 ∧
    ∀ g q n t,
      0 ≤ g < 6 → 0 ≤ q < 4 →
      PAL_TOP ≤ n < PAL_TOP + PAL_LINES → n mod 6 = g →
      CB_BEG ≤ t < CB_BEG + CB_CYCLES * PAL_CB_FREQ → t mod 4 = q →
      ∃ b, load (analog v') (n * PAL_HRES + t) = Some b ∧
           b = schar (Z.shiftr (BLANK_LEVEL
                                + ccburst_of (hue (ref_frame 0x16)) g q
                                  * BURST_LEVEL) 5) ∧
           ccf v' g q = Z.shiftl b 7.
Proof.
  apply (pal_modulate_calibration (fun _ _ => 0) (ref_crt 100)
           (ref_frame 0x16) pal_ref_wf (ref_frame_ok 0x16) (ref_int_ranges 100 0x16 ltac:(lia)) (ref_crt_length 100)).
Defined.

(** ** A second call *)

(** Every sample of the field is the sample [t] of a line [n]. *)
Lemma sample_position `{PalCore} (i : Z) :
  0 < PAL_HRES → 0 ≤ i < PAL_VRES * PAL_HRES →
  ∃ n t, i = n * PAL_HRES + t ∧ 0 ≤ n < PAL_VRES ∧ 0 ≤ t < PAL_HRES.
Proof.
  intros Hh Hi. exists (i / PAL_HRES), (i mod PAL_HRES).
  pose proof (Z.mod_pos_bound i PAL_HRES Hh).
  pose proof (Z.div_mod i PAL_HRES).
  split; [lia|]. split; [|lia].
  split; [apply Z.div_pos; lia|].
  apply Z.div_lt_upper_bound; lia.
Qed.

(** C6.  Two calls of [pal_modulate] in succession on the same settings
    and buffer, the inputs in the ranges in which the [int] arithmetic
    is exact: the first leaves the latch set; the second leaves every
    sample outside the active-video window as the first call left it,
    the sync-to-burst and burst windows receiving the same values again.
    [setup_field] is not run again: with the latch so set,
    [pal_modulate] leaves the samples outside the windows it composes as
    they were in whatever buffer it is given, instead of writing the
    skeleton there. *)
Theorem pal_modulate_twice `{PalCore} (iccf0 iccf1 : Z → Z → Z)
    (v : PAL_CRT) (s : PAL_SETTINGS) :
  core_wf → source_ok s → int_ranges v s →
  Z.of_nat (length (analog v)) = PAL_VRES * PAL_HRES →
  ∃ v1 s1 v2 s2 m,
    pal_modulate iccf0 v s = Some (v1, s1) ∧
    field_initialized s1 ≠ 0 ∧
    pal_modulate iccf1 v1 s1 = Some (v2, s2) ∧
    s2 = s1 ∧
    for_range 0 PAL_LINES
      (line_body v1 s1 bsign_tbl (ccburst_tbl (hue s1)) AV_LEN PAL_LINES
                 AV_X0 PAL_TOP) (analog v1, iccf1) = Some (analog v2, m) ∧
    (∀ n t, 0 ≤ n < PAL_VRES → 0 ≤ t < PAL_HRES →
       ¬ in_active n t →
       load (analog v2) (n * PAL_HRES + t)
       = load (analog v1) (n * PAL_HRES + t)) ∧
    (∀ (u : PAL_CRT) (iccf2 : Z → Z → Z),
       Z.of_nat (length (analog u)) = PAL_VRES * PAL_HRES →
       int_ranges u s1 →
       ∃ u', pal_modulate iccf2 u s1 = Some (u', s1) ∧
         ∀ n t, 0 ≤ t < PAL_HRES →
           ¬ (PAL_TOP ≤ n < PAL_TOP + PAL_LINES
              ∧ (BW_BEG ≤ t < CB_BEG + CB_CYCLES * PAL_CB_FREQ
                 ∨ AV_X0 ≤ t < AV_X0 + AV_LEN)) →
           load (analog u') (n * PAL_HRES + t)
           = load (analog u) (n * PAL_HRES + t)).
Proof.
  intros Hwf Hsrc Hint Hlen.
  destruct (pal_modulate_done Hwf iccf0 v s Hsrc Hlen)
    as (a0 & a1 & m1 & _ & _ & E1 & L0 & FD1 & _).
  set (v1 := mkCRT a1 (black_point v) (white_point v)
                   (export_ccf m1 (ccf v)) 6) in *.
  pose proof (latched_initialized s) as Hfi.
  destruct (latched_fields s) as (Ed & Ew & Eh & Ehu).
  assert (Hsrc1 : source_ok (latched s)).
  { unfold source_ok. rewrite Ed, Ew, Eh. exact Hsrc. }
  assert (Hlen1 : Z.of_nat (length (analog v1)) = PAL_VRES * PAL_HRES).
  { simpl. rewrite (fd_length _ _ _ _ _ FD1). exact L0. }
  destruct (pal_modulate_done Hwf iccf1 v1 (latched s) Hsrc1 Hlen1)
    as (b0 & a2 & m2 & Hb0 & El & E2 & _ & FD2 & _).
  assert (Hl : latched (latched s) = latched s).
  { unfold latched at 1.
    destruct (Z.eqb_spec (field_initialized (latched s)) 0); [lia | reflexivity]. }
  destruct (Z.eqb_spec (field_initialized (latched s)) 0) as [?|Hnz]; [lia|].
  subst b0. rewrite Hl in E2, El.
  exists v1, (latched s). eexists _, _, m2.
  split; [exact E1|]. split; [exact Hfi|]. split; [exact E2|].
  split; [reflexivity|]. split; [exact El|].
  simpl analog. split.
  - intros n t Hn Ht Hna.
    destruct (windows_ordered Hwf) as (O1 & O2 & O3 & O4 & O5 & O6).
    destruct (Z_le_dec PAL_TOP n) as [Hn1|Hn1];
      [destruct (Z_lt_dec n (PAL_TOP + PAL_LINES)) as [Hn2|Hn2]|].
    + replace n with (n - PAL_TOP + PAL_TOP) in * by lia.
      destruct (Z_le_dec BW_BEG t) as [Ht1|Ht1];
        [destruct (Z_lt_dec t CB_END) as [Ht2|Ht2]|].
      * destruct (Z_lt_dec t CB_BEG).
        -- rewrite (fd_sync _ _ _ _ _ FD2), (fd_sync _ _ _ _ _ FD1) by lia.
           reflexivity.
        -- rewrite (fd_burst _ _ _ _ _ FD2), (fd_burst _ _ _ _ _ FD1) by lia.
           rewrite Ehu. reflexivity.
      * apply (fd_out _ _ _ _ _ FD2); [lia|].
        intros (_ & [?|?]); [lia|]. apply Hna. split; lia.
      * apply (fd_out _ _ _ _ _ FD2); [lia|].
        intros (_ & [?|?]); lia.
    + apply (fd_out _ _ _ _ _ FD2); [lia|]. intros (? & _). lia.
    + apply (fd_out _ _ _ _ _ FD2); [lia|]. intros (? & _). lia.
  - intros u iccf2 Hu _.
    destruct (pal_modulate_done Hwf iccf2 u (latched s) Hsrc1 Hu)
      as (c0 & c1 & m3 & Hc0 & _ & E3 & _ & FD3 & _).
    destruct (Z.eqb_spec (field_initialized (latched s)) 0) as [?|_]; [lia|].
    subst c0. rewrite Hl in E3.
    eexists. split; [exact E3|]. simpl analog.
    intros n t Ht Hno. apply (fd_out _ _ _ _ _ FD3 n t Ht). exact Hno.
Qed.

Lemma pal_modulate_twice_witness :
  ∃ v1 s1 v2 s2 m,
    pal_modulate (fun _ _ => 0) (ref_crt 100) (ref_frame 0x16) = Some (v1, s1) ∧
    field_initialized s1 ≠ 0 ∧
    pal_modulate (fun _ _ => 1) v1 s1 = Some (v2, s2) ∧
    s2 = s1 ∧
    for_range 0 PAL_LINES
      (line_body v1 s1 bsign_tbl (ccburst_tbl (hue s1)) AV_LEN PAL_LINES
                 AV_X0 PAL_TOP) (analog v1, fun _ _ => 1)
    = Some (analog v2, m) ∧
    (∀ n t, 0 ≤ n < PAL_VRES → 0 ≤ t < PAL_HRES →
       ¬ in_active n t →
       load (analog v2) (n * PAL_HRES + t)
       = load (analog v1) (n * PAL_HRES + t)) ∧
    (∀ (u : PAL_CRT) (iccf2 : Z → Z → Z),
       Z.of_nat (length (analog u)) = PAL_VRES * PAL_HRES →
       int_ranges u s1 →
       ∃ u', pal_modulate iccf2 u s1 = Some (u', s1) ∧
         ∀ n t, 0 ≤ t < PAL_HRES →
           ¬ (PAL_TOP ≤ n < PAL_TOP + PAL_LINES
              ∧ (BW_BEG ≤ t < CB_BEG + CB_CYCLES * PAL_CB_FREQ
                 ∨ AV_X0 ≤ t < AV_X0 + AV_LEN)) →
           load (analog u') (n * PAL_HRES + t)
           = load (analog u) (n * PAL_HRES + t)).
Proof.
  apply (pal_modulate_twice (fun _ _ => 0) (fun _ _ => 1) (ref_crt 100)
           (ref_frame 0x16) pal_ref_wf (ref_frame_ok 0x16)
           (ref_int_ranges 100 0x16 ltac:(lia)) (ref_crt_length 100)).
Defined.

(** ** A frame of one colour *)

(** The pixel code 0 at any phase: the first entry of the upper half of
    [IRE]. *)
Lemma square_sample_zero (phase : Z) :
  0 ≤ phase → square_sample 0 phase = Some 43581.
Proof.
  intros Hp.
  destruct (square_sample_colour 0 phase Hp) as (m & _ & ->); [reflexivity|].
  reflexivity.
Qed.

(** The level of a frame of pixel code 0 at the default black and white
    points. *)
Lemma grey_level (b : Z) :
  -128 ≤ b ≤ 127 → Z.shiftr ((b + 0 + 4 * 43581) * 100 ÷ 110) 12 = 38.
Proof.
  intros Hb. rewrite Z.shiftr_div_pow2 by lia.
  rewrite Z.quot_div_nonneg by lia. change (2 ^ 12) with 4096.
  assert (158360 ≤ (b + 0 + 4 * 43581) * 100 / 110 < 158592).
  { split; [apply Z.div_le_lower_bound | apply Z.div_lt_upper_bound]; lia. }
  assert (38 ≤ (b + 0 + 4 * 43581) * 100 / 110 / 4096 < 39).
  { split; [apply Z.div_le_lower_bound | apply Z.div_lt_upper_bound]; lia. }
  lia.
Qed.

(** C7.  When every pixel of the source frame is the code 0, and the
    frame and the black and white points are in the ranges in which the
    [int] arithmetic is exact, every
    active-video sample, on every line and at every column, holds one and
    the same value, the four-phase sum being four times the first entry
    of the upper half of [IRE] whatever the phase: the value
    [((BLACK_LEVEL + black_point + 4 * 43581) * white_point / 110) >> 12]
    as narrowed by the store, which is 38 at the default black point 0
    and white point 100. *)
Theorem pal_modulate_zero_frame `{PalCore} (iccf0 : Z → Z → Z)
    (v : PAL_CRT) (s : PAL_SETTINGS) :
  core_wf → source_ok s → int_ranges v s →
  Z.of_nat (length (analog v)) = PAL_VRES * PAL_HRES →
  (∀ i p, tbl_get (data s) i = Some p → p = 0) →
  ∃ v' s' u, pal_modulate iccf0 v s = Some (v', s') ∧
    tbl_get IRE (ire_index 1 0 0) = Some 43581 ∧
    u = Z.shiftr ((BLACK_LEVEL + black_point v + 4 * 43581)
                  * white_point v ÷ 110) 12 ∧
    (∀ y x, 0 ≤ y < PAL_LINES → 0 ≤ x < AV_LEN →
       load (analog v') (x + AV_X0 + (y + PAL_TOP) * PAL_HRES)
       = Some (schar u)) ∧
    (black_point v = 0 → white_point v = 100 → -128 ≤ BLACK_LEVEL ≤ 127 →
     schar u = 38).
Proof.
  intros Hwf Hsrc Hint Hlen Hzero.
  destruct (pal_modulate_done Hwf iccf0 v s Hsrc Hlen)
    as (a0 & a' & m & _ & _ & E & _ & FD & _).
  eexists _, _, _. split; [exact E|]. split; [reflexivity|].
  split; [reflexivity|]. simpl analog. split.
  - intros y x Hy Hx.
    destruct (active_sample_value v s y x Hwf Hsrc Hy Hx)
      as (p & s0 & s1 & s2 & s3 & Hp & E0 & E1 & E2 & E3 & _ & Hv).
    apply Hzero in Hp. subst p.
    pose proof (start_phase_range (y + PAL_TOP)) as Hsp.
    rewrite square_sample_zero in E0, E1, E2, E3 by lia.
    injection E0 as <-. injection E1 as <-. injection E2 as <-.
    injection E3 as <-.
    replace (x + AV_X0 + (y + PAL_TOP) * PAL_HRES)
      with ((y + PAL_TOP) * PAL_HRES + (AV_X0 + x)) by lia.
    rewrite (fd_active _ _ _ _ _ FD y x Hy Hx), Hv.
    replace (BLACK_LEVEL + black_point v + 43581 + 43581 + 43581 + 43581)
      with (BLACK_LEVEL + black_point v + 4 * 43581) by lia.
    reflexivity.
  - intros -> -> Hb. rewrite grey_level by exact Hb. reflexivity.
Qed.

Lemma ref_frame_pixels (p : Z) :
  ∀ i q, tbl_get (data (ref_frame p)) i = Some q → q = p.
Proof.
  intros i q Hq. pose proof (tbl_get_range _ _ _ Hq) as Hr.
  unfold ref_frame in Hq, Hr. cbn [data] in Hq, Hr.
  rewrite length_replicate in Hr.
  rewrite tbl_get_replicate in Hq by exact Hr. congruence.
Qed.

Lemma pal_modulate_zero_frame_witness :
  ∃ v' s' u, pal_modulate (fun _ _ => 0) (ref_crt 100) (ref_frame 0)
             = Some (v', s') ∧
    tbl_get IRE (ire_index 1 0 0) = Some 43581 ∧
    u = Z.shiftr ((BLACK_LEVEL + black_point (ref_crt 100) + 4 * 43581)
                  * white_point (ref_crt 100) ÷ 110) 12 ∧
    (∀ y x, 0 ≤ y < PAL_LINES → 0 ≤ x < AV_LEN →
       load (analog v') (x + AV_X0 + (y + PAL_TOP) * PAL_HRES)
       = Some (schar u)) ∧
    (black_point (ref_crt 100) = 0 → white_point (ref_crt 100) = 100 →
     -128 ≤ BLACK_LEVEL ≤ 127 → schar u = 38).
Proof.
  apply (pal_modulate_zero_frame (fun _ _ => 0) (ref_crt 100) (ref_frame 0)
           pal_ref_wf (ref_frame_ok 0) (ref_int_ranges 100 0 ltac:(lia)) (ref_crt_length 100)
           (ref_frame_pixels 0)).
Defined.

(** C7, as stated, fails: at the default settings a frame of pixel code
    0 gives active-video samples of 38, not of [WHITE_LEVEL]. *)
Lemma zero_frame_not_white :
  ∃ v' s', pal_modulate (fun _ _ => 0) (ref_crt 100) (ref_frame 0)
           = Some (v', s') ∧
    load (analog v') (0 + AV_X0 + (0 + PAL_TOP) * PAL_HRES) = Some 38 ∧
    load (analog v') (0 + AV_X0 + (0 + PAL_TOP) * PAL_HRES)
    ≠ Some WHITE_LEVEL.
Proof.
  destruct (pal_modulate_done pal_ref_wf (fun _ _ => 0) (ref_crt 100)
              (ref_frame 0) (ref_frame_ok 0) (ref_crt_length 100))
    as (a0 & a' & m & _ & _ & E & _ & FD & _).
  eexists _, _. split; [exact E|]. simpl analog.
  assert (Hl : load a' (0 + AV_X0 + (0 + PAL_TOP) * PAL_HRES) = Some 38).
  { replace (0 + AV_X0 + (0 + PAL_TOP) * PAL_HRES)
      with ((0 + PAL_TOP) * PAL_HRES + (AV_X0 + 0)) by lia.
    rewrite (fd_active _ _ _ _ _ FD 0 0) by (vm_compute; intuition discriminate).
    vm_compute. reflexivity. }
  split; [exact Hl|]. rewrite Hl. discriminate.
Qed.

(** ** The range of the samples *)

Lemma shiftr_mono (a b k : Z) :
  0 ≤ k → a ≤ b → Z.shiftr a k ≤ Z.shiftr b k.
Proof.
  intros Hk Hab. rewrite !Z.shiftr_div_pow2 by exact Hk.
  apply Z.div_le_mono; [apply Z.pow_pos_nonneg; lia | exact Hab].
Qed.

(** The rescaling of the active-video loop is monotone for a
    non-negative white point. *)
Lemma rescale_mono (wp a b : Z) :
  0 ≤ wp → a ≤ b →
  Z.shiftr (a * wp ÷ 110) 12 ≤ Z.shiftr (b * wp ÷ 110) 12.
Proof.
  intros Hwp Hab. apply shiftr_mono; [lia|].
  apply Z.quot_le_mono; [lia|].
  apply Z.mul_le_mono_nonneg_r; assumption.
Qed.

Lemma burst_sample_range `{PalCore} (hue g q : Z) :
  (∀ n, -32768 ≤ (pal_sincos14 n).1 ≤ 32768) →
  0 ≤ BURST_LEVEL →
  Z.shiftr (BLANK_LEVEL - 32 * BURST_LEVEL) 5
  ≤ burst_sample hue g q
  ≤ Z.shiftr (BLANK_LEVEL + 32 * BURST_LEVEL) 5.
Proof.
  intros Hsin Hb. unfold burst_sample, ccburst_of.
  set (sn := (pal_sincos14 _).1).
  assert (Hsn : -32768 ≤ sn ≤ 32768) by apply Hsin.
  assert (Hcb : -32 ≤ Z.shiftr sn 10 ≤ 32).
  { split.
    - change (-32) with (Z.shiftr (-32768) 10). apply shiftr_mono; lia.
    - change 32 with (Z.shiftr 32768 10). apply shiftr_mono; lia. }
  split; apply shiftr_mono; nia.
Qed.

(** C8.  After a full pass ([setup_field] and the line loop of
    [pal_modulate]) over a buffer of the size of the field, every sample
    lies between [SYNC_LEVEL] and [WHITE_LEVEL], provided the levels are
    ordered, the burst of a 15-bit sine stays between them, the white
    point is not negative, and the darkest and the brightest pixel are
    rescaled to levels between them, the inputs being in the ranges in
    which the [int] arithmetic is exact. *)
Theorem pal_modulate_levels `{PalCore} (iccf0 : Z → Z → Z)
    (v : PAL_CRT) (s : PAL_SETTINGS) :
  core_wf → source_ok s → int_ranges v s →
  Z.of_nat (length (analog v)) = PAL_VRES * PAL_HRES →
  field_initialized s = 0 →
  SYNC_LEVEL ≤ BLANK_LEVEL ≤ WHITE_LEVEL → WHITE_LEVEL ≤ 127 →
  (∀ n, -32768 ≤ (pal_sincos14 n).1 ≤ 32768) →
  0 ≤ BURST_LEVEL →
  SYNC_LEVEL ≤ Z.shiftr (BLANK_LEVEL - 32 * BURST_LEVEL) 5 →
  Z.shiftr (BLANK_LEVEL + 32 * BURST_LEVEL) 5 ≤ WHITE_LEVEL →
  0 ≤ white_point v →
  SYNC_LEVEL ≤ Z.shiftr ((BLACK_LEVEL + black_point v - 68812)
                         * white_point v ÷ 110) 12 →
  Z.shiftr ((BLACK_LEVEL + black_point v + 451860)
            * white_point v ÷ 110) 12 ≤ WHITE_LEVEL →
  ∃ v' s', pal_modulate iccf0 v s = Some (v', s') ∧
    length (analog v') = length (analog v) ∧
    ∀ i x, load (analog v') i = Some x → SYNC_LEVEL ≤ x ≤ WHITE_LEVEL.
Proof.
  intros Hwf Hsrc Hint Hlen Hfi Hlv Hwh Hsin Hbl Hb1 Hb2 Hwp Hlo Hhi.
  pose proof (wf_sync_level Hwf) as Hsl.
  destruct (pal_modulate_done Hwf iccf0 v s Hsrc Hlen)
    as (a0 & a' & m & E0 & _ & E & L0 & FD & _).
  rewrite Hfi in E0. simpl in E0.
  destruct (setup_field_skeleton Hwf (analog v) Hlen) as (b0 & Eb & Lb & Sk).
  assert (b0 = a0) by congruence. subst b0.
  eexists _, _. split; [exact E|]. simpl analog.
  split; [rewrite (fd_length _ _ _ _ _ FD); exact Lb|].
  intros i x Hx.
  pose proof (load_range _ _ _ Hx) as Hi.
  rewrite (fd_length _ _ _ _ _ FD), L0 in Hi.
  destruct (sample_position i (wf_hres Hwf) Hi) as (n & t & -> & Hn & Ht).
  destruct (windows_ordered Hwf) as (O1 & O2 & O3 & O4 & O5 & O6).
  assert (Hskel : SYNC_LEVEL ≤ skeleton n t ≤ WHITE_LEVEL).
  { unfold skeleton.
    destruct (equalizing n), (vertical_sync n), (eq_window t), (vs_window t),
      (hsync_window t); lia. }
  assert (Hout : ¬ (PAL_TOP ≤ n < PAL_TOP + PAL_LINES
                    ∧ (BW_BEG ≤ t < CB_END ∨ AV_X0 ≤ t < AV_X0 + AV_LEN)) →
                 SYNC_LEVEL ≤ x ≤ WHITE_LEVEL).
  { intros Hno. rewrite (fd_out _ _ _ _ _ FD n t Ht Hno), Sk in Hx
      by assumption.
    injection Hx as <-. exact Hskel. }
  destruct (Z_le_dec PAL_TOP n) as [Hn1|Hn1];
    [destruct (Z_lt_dec n (PAL_TOP + PAL_LINES)) as [Hn2|Hn2]|];
    [| apply Hout; lia | apply Hout; lia].
  replace n with (n - PAL_TOP + PAL_TOP) in Hx by lia.
  destruct (Z_lt_dec t BW_BEG); [apply Hout; lia|].
  destruct (Z_lt_dec t CB_BEG).
  { rewrite (fd_sync _ _ _ _ _ FD) in Hx by lia. injection Hx as <-. lia. }
  destruct (Z_lt_dec t CB_END).
  { rewrite (fd_burst _ _ _ _ _ FD) in Hx by lia. injection Hx as <-.
    pose proof (burst_sample_range (hue s) ((n - PAL_TOP + PAL_TOP) mod 6)
                  (t mod 4) Hsin Hbl).
    rewrite schar_id; lia. }
  destruct (Z_lt_dec t AV_X0); [apply Hout; lia|].
  destruct (Z_lt_dec t (AV_X0 + AV_LEN)); [|apply Hout; lia].
  replace t with (AV_X0 + (t - AV_X0)) in Hx by lia.
  rewrite (fd_active _ _ _ _ _ FD) in Hx by lia. injection Hx as <-.
  destruct (active_sample_value v s (n - PAL_TOP) (t - AV_X0) Hwf Hsrc)
    as (p & s0 & s1 & s2 & s3 & _ & _ & _ & _ & _ & Hr & ->); [lia | lia |].
  pose proof (rescale_mono (white_point v)
                (BLACK_LEVEL + black_point v - 68812)
                (BLACK_LEVEL + black_point v + s0 + s1 + s2 + s3) Hwp).
  pose proof (rescale_mono (white_point v)
                (BLACK_LEVEL + black_point v + s0 + s1 + s2 + s3)
                (BLACK_LEVEL + black_point v + 451860) Hwp).
  rewrite schar_id; lia.
Qed.

Lemma pal_modulate_levels_witness :
  ∃ v' s', pal_modulate (fun _ _ => 0) (ref_crt 100) (ref_frame 0x16)
           = Some (v', s') ∧
    length (analog v') = length (analog (ref_crt 100)) ∧
    ∀ i x, load (analog v') i = Some x → SYNC_LEVEL ≤ x ≤ WHITE_LEVEL.
Proof.
  apply (pal_modulate_levels (fun _ _ => 0) (ref_crt 100) (ref_frame 0x16)
           pal_ref_wf (ref_frame_ok 0x16) (ref_int_ranges 100 0x16 ltac:(lia)) (ref_crt_length 100));
    first [ exact ref_sin14_range
          | reflexivity
          | vm_compute; intuition discriminate ].
Defined.

(** C8, as stated, fails: with the white point raised to 120, a frame of
    the pixel code 0x20 gives active-video samples of 120, above
    [WHITE_LEVEL]. *)
Lemma bright_frame_above_white :
  ∃ v' s', pal_modulate (fun _ _ => 0) (ref_crt 120) (ref_frame 0x20)
           = Some (v', s') ∧
    load (analog v') (0 + AV_X0 + (0 + PAL_TOP) * PAL_HRES) = Some 120 ∧
    ¬ (SYNC_LEVEL ≤ 120 ≤ WHITE_LEVEL).
Proof.
  destruct (pal_modulate_done pal_ref_wf (fun _ _ => 0) (ref_crt 120)
              (ref_frame 0x20) (ref_frame_ok 0x20) (ref_crt_length 120))
    as (a0 & a' & m & _ & _ & E & _ & FD & _).
  eexists _, _. split; [exact E|]. simpl analog. split.
  - replace (0 + AV_X0 + (0 + PAL_TOP) * PAL_HRES)
      with ((0 + PAL_TOP) * PAL_HRES + (AV_X0 + 0)) by lia.
    rewrite (fd_active _ _ _ _ _ FD 0 0) by (vm_compute; intuition discriminate).
    vm_compute. reflexivity.
  - vm_compute. intuition.
Qed.

(** ** No overflow on the modulation path *)

(** C9.  For every 9-bit pixel code, every phase up to 2^30 (the phases
    of the encode loops are at most [28 + 3 * AV_LEN]), a black level
    [BLACK_LEVEL + black_point] of at most 2^16 in magnitude and a white
    point of at most 2^12 in magnitude, no [int] operation of the
    modulation path leaves the 32-bit range: the checked computation
    gives the same result as the computation in unbounded integers. *)
Theorem modulation_no_overflow `{PalCore} (bp wp p phase : Z) :
  0 ≤ p ≤ 511 →
  0 ≤ phase ≤ 1073741824 →
  -65536 ≤ BLACK_LEVEL + bp ≤ 65536 →
  -4096 ≤ wp ≤ 4096 →
  (∃ r, Checked.pixel_ire bp wp p phase = Some r
        ∧ pixel_ire bp wp p phase = Some r) ∧
  (∀ n x, 0 ≤ x < AV_LEN → AV_LEN ≤ 268435456 →
          0 ≤ start_phase n + 3 * x ≤ 1073741824).
Proof.
  intros _ Hph Hb Hwp. split.
  - destruct (square_sample_bounds p (phase + 0)) as (s0 & E0 & R0); [lia|].
    destruct (square_sample_bounds p (phase + 1)) as (s1 & E1 & R1); [lia|].
    destruct (square_sample_bounds p (phase + 2)) as (s2 & E2 & R2); [lia|].
    destruct (square_sample_bounds p (phase + 3)) as (s3 & E3 & R3); [lia|].
    eexists. unfold Checked.pixel_ire, pixel_ire, Checked.add, Checked.mul,
      Checked.div.
    rewrite E0, E1, E2, E3. simpl.
    repeat (rewrite int_ok
              by (unfold Checked.INT_MIN, Checked.INT_MAX; lia); simpl).
    rewrite !checked_square_sample by lia.
    rewrite E0. simpl.
    rewrite int_ok by (unfold Checked.INT_MIN, Checked.INT_MAX; lia). simpl.
    rewrite E1. simpl.
    rewrite int_ok by (unfold Checked.INT_MIN, Checked.INT_MAX; lia). simpl.
    rewrite E2. simpl.
    rewrite int_ok by (unfold Checked.INT_MIN, Checked.INT_MAX; lia). simpl.
    rewrite E3. simpl.
    rewrite int_ok by (unfold Checked.INT_MIN, Checked.INT_MAX; lia). simpl.
    assert (Hm : -2119254016 ≤ (BLACK_LEVEL + bp + s0 + s1 + s2 + s3) * wp
                 ≤ 2119254016) by nia.
    rewrite int_ok by (unfold Checked.INT_MIN, Checked.INT_MAX; lia). simpl.
    rewrite int_ok; [split; reflexivity|].
    unfold Checked.INT_MIN, Checked.INT_MAX.
    pose proof (Z.quot_le_mono _ _ 110 ltac:(lia) (proj1 Hm)).
    pose proof (Z.quot_le_mono _ _ 110 ltac:(lia) (proj2 Hm)).
    change (-2119254016 ÷ 110) with (-19265945) in *.
    change (2119254016 ÷ 110) with 19265945 in *. lia.
  - intros n x Hx Ha. pose proof (start_phase_range n). lia.
Qed.

Lemma modulation_no_overflow_witness :
  (∃ r, Checked.pixel_ire 0 100 0x1a6 1000 = Some r
        ∧ pixel_ire 0 100 0x1a6 1000 = Some r) ∧
  (∀ n x, 0 ≤ x < AV_LEN → AV_LEN ≤ 268435456 →
          0 ≤ start_phase n + 3 * x ≤ 1073741824).
Proof.
  apply (modulation_no_overflow 0 100 0x1a6 1000);
    vm_compute; intuition discriminate.
Defined.

(** * Further properties *)

(** ** The pixel modulator: period, luma and emphasis *)

Lemma shiftr1_add12 (phase : Z) :
  Z.shiftr (phase + 12) 1 = Z.shiftr phase 1 + 6.
Proof.
  rewrite !Z.shiftr_div_pow2 by lia. change (2 ^ 1) with 2.
  replace (phase + 12) with (phase + 6 * 2) by lia.
  apply Z.div_add. lia.
Qed.

Lemma square_sample_shift12 (p phase : Z) :
  0 ≤ phase → square_sample p (phase + 12) = square_sample p phase.
Proof.
  intros Hp. unfold square_sample.
  destruct (14 <=? Z.land p 15); [reflexivity|].
  pose proof (land_15_range p) as Hh.
  assert (Hs : 0 ≤ Z.shiftr phase 1) by (apply Z.shiftr_nonneg; lia).
  rewrite shiftr1_add12.
  rewrite !Z.rem_mod_nonneg by lia.
  replace (Z.land p 15 + (phase + 12)) with (Z.land p 15 + phase + 1 * 12)
    by lia.
  rewrite Z_mod_plus_full.
  replace (Z.shiftr phase 1 + 6) with (Z.shiftr phase 1 + 1 * 6) by lia.
  rewrite Z_mod_plus_full. reflexivity.
Qed.

Lemma pixel_ire_shift12 `{PalCore} (bp wp p phase : Z) :
  0 ≤ phase → pixel_ire bp wp p (phase + 12) = pixel_ire bp wp p phase.
Proof.
  intros Hp. unfold pixel_ire.
  replace (phase + 12 + 0) with (phase + 0 + 12) by lia.
  replace (phase + 12 + 1) with (phase + 1 + 12) by lia.
  replace (phase + 12 + 2) with (phase + 2 + 12) by lia.
  replace (phase + 12 + 3) with (phase + 3 + 12) by lia.
  rewrite !square_sample_shift12 by lia. reflexivity.
Qed.

(** The subcarrier has a period of 12 phase steps: at every phase up to
    2^30, and for a black level and a white point in the ranges in which
    the [int] arithmetic of the modulation path is exact,
    [square_sample], and with it the voltage of a pixel, is the same at
    [phase + 12] as at [phase]. *)
Theorem modulator_period `{PalCore} (bp wp p phase : Z) :
  0 ≤ phase ≤ 1073741824 →
  -65536 ≤ BLACK_LEVEL + bp ≤ 65536 →
  -4096 ≤ wp ≤ 4096 →
  square_sample p (phase + 12) = square_sample p phase ∧
  Checked.square_sample p (phase + 12) = Checked.square_sample p phase ∧
  pixel_ire bp wp p (phase + 12) = pixel_ire bp wp p phase.
Proof.
  intros Hp _ _. rewrite !checked_square_sample by lia.
  split; [|split];
    [apply square_sample_shift12 | apply square_sample_shift12
     | apply pixel_ire_shift12]; lia.
Qed.

Lemma modulator_period_witness :
  square_sample 0x1a6 (5 + 12) = square_sample 0x1a6 5 ∧
  Checked.square_sample 0x1a6 (5 + 12) = Checked.square_sample 0x1a6 5 ∧
  pixel_ire 0 100 0x1a6 (5 + 12) = pixel_ire 0 100 0x1a6 5.
Proof.
  apply (modulator_period 0 100 0x1a6 5); vm_compute; intuition discriminate.
Defined.

(** The entries of [IRE] grow with the luma bits and shrink under
    emphasis. *)
Lemma ire_luma_mono (l e a b : Z) :
  l = 0 ∨ l = 1 → e = 0 ∨ e = 1 → 0 ≤ a ≤ b → b ≤ 3 →
  ∃ r r', tbl_get IRE (ire_index l e a) = Some r ∧
          tbl_get IRE (ire_index l e b) = Some r' ∧ r ≤ r'.
Proof.
  intros Hl He Ha Hb.
  assert (Ca : a = 0 ∨ a = 1 ∨ a = 2 ∨ a = 3) by lia.
  assert (Cb : b = 0 ∨ b = 1 ∨ b = 2 ∨ b = 3) by lia.
  destruct Hl as [-> | ->], He as [-> | ->];
    destruct Ca as [-> | [-> | [-> | ->]]];
    destruct Cb as [-> | [-> | [-> | ->]]];
    first [ lia
          | eexists _, _; split; [reflexivity|]; split; [reflexivity|]; lia ].
Qed.

Lemma ire_emphasis_le (l e luma : Z) :
  l = 0 ∨ l = 1 → e = 0 ∨ e = 1 →
  luma = 0 ∨ luma = 1 ∨ luma = 2 ∨ luma = 3 →
  ∃ r r0, tbl_get IRE (ire_index l e luma) = Some r ∧
          tbl_get IRE (ire_index l 0 luma) = Some r0 ∧ r ≤ r0.
Proof.
  intros [-> | ->] [-> | ->] [-> | [-> | [-> | ->]]];
    eexists _, _; (split; [reflexivity|]); (split; [reflexivity|]); lia.
Qed.

Lemma land_land_const (p a b c : Z) :
  Z.land a b = c → Z.land (Z.land p a) b = Z.land p c.
Proof. intros <-. symmetry. apply Z.land_assoc. Qed.

Lemma forced_polarity_cases (p phase : Z) :
  let l := if Z.land p 15 =? 0 then 1
           else if Z.land p 15 =? 13 then 0
           else polarity (Z.land p 15) phase in
  l = 0 ∨ l = 1.
Proof.
  simpl. destruct (Z.land p 15 =? 0); [auto|].
  destruct (Z.land p 15 =? 13); [auto|]. apply b2z_cases.
Qed.

(** Raising the luma bits of a pixel code, its hue and emphasis bits
    unchanged, never lowers what [square_sample] returns at a given
    phase. *)
Theorem square_sample_luma_monotone (p p' phase : Z) :
  0 ≤ phase →
  Z.land p 0x1cf = Z.land p' 0x1cf →
  luma_bits p ≤ luma_bits p' →
  ∃ r r', square_sample p phase = Some r ∧
          square_sample p' phase = Some r' ∧ r ≤ r'.
Proof.
  intros Hp Heq Hl.
  assert (Hhue : Z.land p 15 = Z.land p' 15).
  { rewrite <- (land_land_const p 0x1cf 15 15 eq_refl).
    rewrite <- (land_land_const p' 0x1cf 15 15 eq_refl).
    rewrite Heq. reflexivity. }
  assert (Hemp : ∀ m, emphasized p m = emphasized p' m).
  { intros m. unfold emphasized, EMPH_MASK.
    rewrite <- (land_land_const p 0x1cf 448 448 eq_refl).
    rewrite <- (land_land_const p' 0x1cf 448 448 eq_refl).
    rewrite Heq. reflexivity. }
  destruct (Z_lt_dec (Z.land p 15) 14) as [Hh|Hh].
  - destruct (square_sample_colour p phase Hp Hh) as (m & Hm & ->).
    destruct (square_sample_colour p' phase Hp) as (m' & Hm' & ->); [lia|].
    assert (m' = m) by congruence. subst m'.
    rewrite <- Hhue, <- Hemp.
    apply ire_luma_mono.
    + apply forced_polarity_cases.
    + apply b2z_cases.
    + unfold luma_bits in *. pose proof (land_3_cases (Z.shiftr p 4)). lia.
    + unfold luma_bits. pose proof (land_3_cases (Z.shiftr p' 4)). lia.
  - exists 0, 0. unfold square_sample. rewrite <- Hhue.
    destruct (Z.leb_spec 14 (Z.land p 15)); [|lia]. auto with zarith.
Qed.

Lemma square_sample_luma_monotone_witness :
  ∃ r r', square_sample 0x186 7 = Some r ∧
          square_sample 0x1a6 7 = Some r' ∧ r ≤ r'.
Proof.
  apply (square_sample_luma_monotone 0x186 0x1a6 7);
    [lia | reflexivity | vm_compute; discriminate].
Defined.

(** Emphasis only attenuates: at any phase, what [square_sample] returns
    for a pixel code is at most what it returns for the same code with
    its emphasis bits cleared. *)
Theorem square_sample_emphasis_attenuates (p phase : Z) :
  0 ≤ phase →
  ∃ r r0, square_sample p phase = Some r ∧
          square_sample (Z.land p 0x3f) phase = Some r0 ∧ r ≤ r0.
Proof.
  intros Hp.
  assert (Hhue : Z.land (Z.land p 0x3f) 15 = Z.land p 15).
  { apply land_land_const. reflexivity. }
  assert (Hluma : luma_bits (Z.land p 0x3f) = luma_bits p).
  { unfold luma_bits. rewrite Z.shiftr_land.
    apply land_land_const. reflexivity. }
  assert (Hemp : ∀ m, emphasized (Z.land p 0x3f) m = 0).
  { intros m. unfold emphasized, EMPH_MASK.
    rewrite (land_land_const p 0x3f 448 0 eq_refl), Z.land_0_r.
    reflexivity. }
  destruct (Z_lt_dec (Z.land p 15) 14) as [Hh|Hh].
  - destruct (square_sample_colour p phase Hp Hh) as (m & Hm & ->).
    destruct (square_sample_colour (Z.land p 0x3f) phase Hp)
      as (m' & Hm' & ->); [lia|].
    rewrite Hhue, Hluma, Hemp.
    apply ire_emphasis_le.
    + apply forced_polarity_cases.
    + apply b2z_cases.
    + apply land_3_cases.
  - exists 0, 0. unfold square_sample. rewrite Hhue.
    destruct (Z.leb_spec 14 (Z.land p 15)); [|lia]. auto with zarith.
Qed.

Lemma square_sample_emphasis_attenuates_witness :
  ∃ r r0, square_sample 0x1a6 7 = Some r ∧
          square_sample (Z.land 0x1a6 0x3f) 7 = Some r0 ∧ r ≤ r0.
Proof. apply (square_sample_emphasis_attenuates 0x1a6 7). lia. Defined.

(** A pixel code with none of the emphasis bits is emphasized at no
    phase, and one with the three of them at every phase: for both,
    [square_sample] depends on the phase (up to 2^30, where the [int]
    sum [hue + phase] is exact) through the luma polarity alone. *)
Theorem square_sample_emphasis_extremes (p phase : Z) :
  0 ≤ phase ≤ 1073741824 →
  Z.land p 15 < 14 →
  Z.land p 448 = 0 ∨ Z.land p 448 = 448 →
  Checked.square_sample p phase = square_sample p phase ∧
  square_sample p phase
  = tbl_get IRE
      (ire_index (if Z.land p 15 =? 0 then 1
                  else if Z.land p 15 =? 13 then 0
                  else polarity (Z.land p 15) phase)
                 (if Z.land p 448 =? 0 then 0 else 1)
                 (luma_bits p)).
Proof.
  intros Hp Hh He.
  split; [apply checked_square_sample; lia|].
  destruct (square_sample_colour p phase (proj1 Hp) Hh) as (m & Hm & ->).
  do 2 f_equal. unfold emphasized, EMPH_MASK.
  pose proof (Z.mod_pos_bound (Z.shiftr phase 1) 6) as Hr.
  assert (Hc : Z.shiftr phase 1 mod 6 = 0 ∨ Z.shiftr phase 1 mod 6 = 1 ∨
               Z.shiftr phase 1 mod 6 = 2 ∨ Z.shiftr phase 1 mod 6 = 3 ∨
               Z.shiftr phase 1 mod 6 = 4 ∨ Z.shiftr phase 1 mod 6 = 5) by lia.
  destruct He as [-> | ->];
    destruct Hc as [E | [E | [E | [E | [E | E]]]]];
    rewrite E in Hm; injection Hm as <-; reflexivity.
Qed.

Lemma square_sample_emphasis_extremes_witness :
  Checked.square_sample 0x1e6 7 = square_sample 0x1e6 7 ∧
  square_sample 0x1e6 7
  = tbl_get IRE
      (ire_index (if Z.land 0x1e6 15 =? 0 then 1
                  else if Z.land 0x1e6 15 =? 13 then 0
                  else polarity (Z.land 0x1e6 15) 7)
                 (if Z.land 0x1e6 448 =? 0 then 0 else 1)
                 (luma_bits 0x1e6)).
Proof.
  apply (square_sample_emphasis_extremes 0x1e6 7);
    [lia | vm_compute; reflexivity | right; reflexivity].
Defined.

Lemma polarity_half_period (hue phase : Z) :
  polarity hue (phase + 6) = 1 - polarity hue phase.
Proof.
  unfold polarity.
  replace (hue + (phase + 6)) with (hue + phase + 6) by lia.
  rewrite <- (Z.add_mod_idemp_l (hue + phase) 6 12) by lia.
  pose proof (Z.mod_pos_bound (hue + phase) 12) as Hm.
  set (a := (hue + phase) mod 12) in *.
  destruct (Z_lt_dec a 6) as [Ha|Ha].
  - rewrite (Z.mod_small (a + 6) 12) by lia.
    repeat case_bool_decide; simpl; lia.
  - replace (a + 6) with (a - 6 + 1 * 12) by lia.
    rewrite Z_mod_plus_full, (Z.mod_small (a - 6) 12) by lia.
    repeat case_bool_decide; simpl; lia.
Qed.

(** [square_sample] is a square wave of half-period 6 in the phase: for a
    pixel code of hue 0x01 to 0x0c with none or all of the emphasis
    bits, at every phase up to 2^30 (where the [int] sum [hue + phase]
    is exact), the level six phase steps later is the one of the
    opposite polarity. *)
Theorem square_sample_half_period (p phase : Z) :
  0 ≤ phase ≤ 1073741824 →
  1 ≤ Z.land p 15 ≤ 12 →
  Z.land p 448 = 0 ∨ Z.land p 448 = 448 →
  ∃ v, (v = 0 ∨ v = 1) ∧
    square_sample p phase
    = tbl_get IRE (ire_index v (if Z.land p 448 =? 0 then 0 else 1)
                             (luma_bits p)) ∧
    square_sample p (phase + 6)
    = tbl_get IRE (ire_index (1 - v) (if Z.land p 448 =? 0 then 0 else 1)
                             (luma_bits p)) ∧
    Checked.square_sample p phase = square_sample p phase ∧
    Checked.square_sample p (phase + 6) = square_sample p (phase + 6).
Proof.
  intros Hp Hh He.
  exists (polarity (Z.land p 15) phase).
  split; [apply b2z_cases|].
  assert (Hsq : ∀ ph, 0 ≤ ph →
    square_sample p ph
    = tbl_get IRE (ire_index (polarity (Z.land p 15) ph)
                             (if Z.land p 448 =? 0 then 0 else 1)
                             (luma_bits p))).
  { intros ph Hph.
    destruct (square_sample_colour p ph Hph) as (m & Hm & ->); [lia|].
    destruct (Z.eqb_spec (Z.land p 15) 0) as [?|_]; [lia|].
    destruct (Z.eqb_spec (Z.land p 15) 13) as [?|_]; [lia|].
    do 2 f_equal. unfold emphasized, EMPH_MASK.
    pose proof (Z.mod_pos_bound (Z.shiftr ph 1) 6) as Hr.
    assert (Hc : Z.shiftr ph 1 mod 6 = 0 ∨ Z.shiftr ph 1 mod 6 = 1 ∨
                 Z.shiftr ph 1 mod 6 = 2 ∨ Z.shiftr ph 1 mod 6 = 3 ∨
                 Z.shiftr ph 1 mod 6 = 4 ∨ Z.shiftr ph 1 mod 6 = 5) by lia.
    destruct He as [-> | ->];
      destruct Hc as [E | [E | [E | [E | [E | E]]]]];
      rewrite E in Hm; injection Hm as <-; reflexivity. }
  split; [apply Hsq; lia|].
  split; [rewrite Hsq by lia; rewrite polarity_half_period; reflexivity|].
  split; apply checked_square_sample; lia.
Qed.

Lemma square_sample_half_period_witness :
  ∃ v, (v = 0 ∨ v = 1) ∧
    square_sample 0x026 7
    = tbl_get IRE (ire_index v (if Z.land 0x026 448 =? 0 then 0 else 1)
                             (luma_bits 0x026)) ∧
    square_sample 0x026 (7 + 6)
    = tbl_get IRE (ire_index (1 - v) (if Z.land 0x026 448 =? 0 then 0 else 1)
                             (luma_bits 0x026)) ∧
    Checked.square_sample 0x026 7 = square_sample 0x026 7 ∧
    Checked.square_sample 0x026 (7 + 6) = square_sample 0x026 (7 + 6).
Proof.
  apply (square_sample_half_period 0x026 7);
    [lia | vm_compute; intuition discriminate | left; reflexivity].
Defined.

(** ** The field skeleton and the buffer as a whole *)

Lemma load_outside (a : list Z) (i : Z) :
  ¬ (0 ≤ i < Z.of_nat (length a)) → load a i = None.
Proof.
  intros Hi. unfold load, tbl_get.
  destruct (Z.ltb_spec i 0); [reflexivity|].
  apply lookup_ge_None. lia.
Qed.

(** Two field buffers with the same samples on every line are equal. *)
Lemma field_ext `{PalCore} (a b : list Z) :
  0 < PAL_HRES →
  Z.of_nat (length a) = PAL_VRES * PAL_HRES →
  Z.of_nat (length b) = PAL_VRES * PAL_HRES →
  (∀ n t, 0 ≤ n < PAL_VRES → 0 ≤ t < PAL_HRES →
          load a (n * PAL_HRES + t) = load b (n * PAL_HRES + t)) →
  a = b.
Proof.
  intros Hh La Lb Hab. apply load_ext. intros i.
  destruct (Z_le_dec 0 i) as [H0|H0];
    [destruct (Z_lt_dec i (PAL_VRES * PAL_HRES)) as [H1|H1]|].
  - destruct (sample_position i Hh (conj H0 H1)) as (n & t & -> & Hn & Ht).
    apply Hab; assumption.
  - rewrite !load_outside by lia. reflexivity.
  - rewrite !load_outside by lia. reflexivity.
Qed.

(** [setup_field] overwrites every sample of the field: what it leaves
    does not depend on what the buffer held, and running it again on its
    own result changes nothing. *)
Theorem setup_field_overwrites `{PalCore} (a b : list Z) :
  core_wf →
  Z.of_nat (length a) = PAL_VRES * PAL_HRES →
  Z.of_nat (length b) = PAL_VRES * PAL_HRES →
  ∃ r, setup_field a = Some r ∧ setup_field b = Some r
       ∧ setup_field r = Some r.
Proof.
  intros Hwf La Lb.
  destruct (setup_field_skeleton Hwf a La) as (ra & Ea & L1 & Sa).
  destruct (setup_field_skeleton Hwf b Lb) as (rb & Eb & L2 & Sb).
  assert (Lra : Z.of_nat (length ra) = PAL_VRES * PAL_HRES) by congruence.
  assert (Lrb : Z.of_nat (length rb) = PAL_VRES * PAL_HRES) by congruence.
  destruct (setup_field_skeleton Hwf ra Lra) as (rr & Er & L3 & Sr).
  assert (Lrr : Z.of_nat (length rr) = PAL_VRES * PAL_HRES) by congruence.
  assert (rb = ra).
  { apply field_ext; [apply (wf_hres Hwf) | assumption | assumption |].
    intros n t Hn Ht. rewrite Sa, Sb by assumption. reflexivity. }
  assert (rr = ra).
  { apply field_ext; [apply (wf_hres Hwf) | assumption | assumption |].
    intros n t Hn Ht. rewrite Sa, Sr by assumption. reflexivity. }
  subst rb rr. exists ra. auto.
Qed.

Lemma setup_field_overwrites_witness :
  ∃ r, setup_field ref_field = Some r
       ∧ setup_field (replicate (Z.to_nat (312 * 1135)) 99) = Some r
       ∧ setup_field r = Some r.
Proof.
  apply (setup_field_overwrites ref_field
           (replicate (Z.to_nat (312 * 1135)) 99) pal_ref_wf ref_field_length).
  rewrite length_replicate, Z2Nat.id by lia. reflexivity.
Defined.

(** With the latch set, and on inputs in the ranges in which its [int]
    arithmetic is exact, [pal_modulate] rewrites nothing but the
    sync-to-burst, burst and active-video windows of the picture lines:
    every other sample of the field is left as it was, and so are the
    black and white points and the settings. *)
Theorem pal_modulate_frame `{PalCore} (iccf0 : Z → Z → Z)
    (v : PAL_CRT) (s : PAL_SETTINGS) :
  core_wf → source_ok s → int_ranges v s →
  Z.of_nat (length (analog v)) = PAL_VRES * PAL_HRES →
  field_initialized s ≠ 0 →
  ∃ v', pal_modulate iccf0 v s = Some (v', s) ∧
    black_point v' = black_point v ∧ white_point v' = white_point v ∧
    length (analog v') = length (analog v) ∧
    ∀ n t, 0 ≤ t < PAL_HRES →
      ¬ (PAL_TOP ≤ n < PAL_TOP + PAL_LINES
         ∧ (BW_BEG ≤ t < CB_BEG + CB_CYCLES * PAL_CB_FREQ
            ∨ AV_X0 ≤ t < AV_X0 + AV_LEN)) →
      load (analog v') (n * PAL_HRES + t) = load (analog v) (n * PAL_HRES + t).
Proof.
  intros Hwf Hsrc Hint Hlen Hfi.
  destruct (pal_modulate_done Hwf iccf0 v s Hsrc Hlen)
    as (a0 & a' & m & E0 & _ & E & _ & FD & _).
  unfold latched in E.
  destruct (Z.eqb_spec (field_initialized s) 0) as [?|_]; [contradiction|].
  subst a0. eexists. split; [exact E|]. simpl.
  split; [reflexivity|]. split; [reflexivity|].
  split; [apply (fd_length _ _ _ _ _ FD)|].
  intros n t Ht Hn. apply (fd_out _ _ _ _ _ FD n t Ht). exact Hn.
Qed.

Lemma pal_modulate_frame_witness :
  let s := mkSettings (replicate (Z.to_nat (256 * 240)) 0x16) 256 240 0 1 in
  ∃ v', pal_modulate (fun _ _ => 0) (ref_crt 100) s = Some (v', s) ∧
    black_point v' = black_point (ref_crt 100) ∧
    white_point v' = white_point (ref_crt 100) ∧
    length (analog v') = length (analog (ref_crt 100)) ∧
    ∀ n t, 0 ≤ t < PAL_HRES →
      ¬ (PAL_TOP ≤ n < PAL_TOP + PAL_LINES
         ∧ (BW_BEG ≤ t < CB_BEG + CB_CYCLES * PAL_CB_FREQ
            ∨ AV_X0 ≤ t < AV_X0 + AV_LEN)) →
      load (analog v') (n * PAL_HRES + t)
      = load (analog (ref_crt 100)) (n * PAL_HRES + t).
Proof.
  intros s.
  apply (pal_modulate_frame (fun _ _ => 0) (ref_crt 100) s pal_ref_wf);
    [| | exact (ref_crt_length 100) | discriminate].
  - unfold source_ok, s. cbn [data w h].
    rewrite length_replicate, Z2Nat.id by lia. lia.
  - split; unfold ref_crt, s; cbn [h w hue black_point white_point];
      vm_compute; intuition discriminate.
Defined.

(** After a full pass on inputs in the ranges in which the [int]
    arithmetic is exact, a picture line that is an ordinary line of the
    skeleton (index 10 or more) holds: the blanking level up to
    [SYNC_BEG]; the sync level from [SYNC_BEG] to [CB_BEG], the sync
    pulse being extended over the sync-to-burst window; the blanking
    level between the end of the burst and the active video, and after
    the active video to the end of the line.  The lines outside the
    picture hold the skeleton. *)
Theorem pal_modulate_line_layout `{PalCore} (iccf0 : Z → Z → Z)
    (v : PAL_CRT) (s : PAL_SETTINGS) :
  core_wf → source_ok s → int_ranges v s →
  Z.of_nat (length (analog v)) = PAL_VRES * PAL_HRES →
  field_initialized s = 0 →
  ∃ v' s', pal_modulate iccf0 v s = Some (v', s') ∧
    field_initialized s' = 1 ∧
    ∀ n t, 0 ≤ n < PAL_VRES → 0 ≤ t < PAL_HRES →
      ∃ x, load (analog v') (n * PAL_HRES + t) = Some x ∧
        (¬ (PAL_TOP ≤ n < PAL_TOP + PAL_LINES) → x = skeleton n t) ∧
        (PAL_TOP ≤ n < PAL_TOP + PAL_LINES → 10 ≤ n →
           (t < SYNC_BEG → x = BLANK_LEVEL) ∧
           (SYNC_BEG ≤ t < CB_BEG → x = SYNC_LEVEL) ∧
           (CB_BEG + CB_CYCLES * PAL_CB_FREQ ≤ t < AV_X0 → x = BLANK_LEVEL) ∧
           (AV_X0 + AV_LEN ≤ t → x = BLANK_LEVEL)).
Proof.
  intros Hwf Hsrc Hint Hlen Hfi.
  destruct (pal_modulate_done Hwf iccf0 v s Hsrc Hlen)
    as (a0 & a' & m & E0 & _ & E & L0 & FD & _).
  unfold latched in E. rewrite Hfi in E0, E. simpl in E0, E.
  destruct (setup_field_skeleton Hwf (analog v) Hlen) as (b0 & Eb & _ & Sk).
  assert (b0 = a0) by congruence. subst b0.
  eexists _, _. split; [exact E|]. split; [reflexivity|]. simpl analog.
  destruct (windows_ordered Hwf) as (O1 & O2 & O3 & O4 & O5 & O6).
  pose proof (wf_sync_beg Hwf) as O7. pose proof (wf_bw_beg Hwf) as O8.
  fold CB_END.
  assert (Hord : ∀ n t, 10 ≤ n → skeleton n t
                 = if hsync_window t then SYNC_LEVEL else BLANK_LEVEL).
  { intros n t Hn. unfold skeleton.
    destruct (equalizing n) eqn:E1; [apply equalizing_iff in E1; lia|].
    destruct (vertical_sync n) eqn:E2; [apply vertical_sync_iff in E2; lia|].
    reflexivity. }
  intros n t Hn Ht.
  assert (Hdec : (PAL_TOP ≤ n < PAL_TOP + PAL_LINES
                  ∧ (BW_BEG ≤ t < CB_END ∨ AV_X0 ≤ t < AV_X0 + AV_LEN))
                 ∨ ¬ (PAL_TOP ≤ n < PAL_TOP + PAL_LINES
                      ∧ (BW_BEG ≤ t < CB_END ∨ AV_X0 ≤ t < AV_X0 + AV_LEN)))
    by lia.
  destruct Hdec as [(Hpic & Hwin) | Hno].
  - replace n with (n - PAL_TOP + PAL_TOP) by lia.
    destruct Hwin as [Hw|Hw].
    + destruct (Z_lt_dec t CB_BEG).
      * exists SYNC_LEVEL. split; [apply (fd_sync _ _ _ _ _ FD); lia|].
        split; [intros; lia|]. intros _ _. repeat split; intros; lia.
      * eexists. split; [apply (fd_burst _ _ _ _ _ FD); lia|].
        split; [intros; lia|]. intros _ _. repeat split; intros; lia.
    + eexists. replace t with (AV_X0 + (t - AV_X0)) at 1 by lia.
      split; [apply (fd_active _ _ _ _ _ FD); lia|].
      split; [intros; lia|]. intros _ _. repeat split; intros; lia.
  - exists (skeleton n t). split.
    { rewrite (fd_out _ _ _ _ _ FD n t Ht Hno). apply Sk; assumption. }
    split; [reflexivity|].
    intros Hpic H10. rewrite (Hord n t H10).
    repeat split; intros Hw.
    + destruct (hsync_window t) eqn:Eh; [|reflexivity].
      apply hsync_window_iff in Eh. lia.
    + rewrite (proj2 (hsync_window_iff t)) by lia. reflexivity.
    + destruct (hsync_window t) eqn:Eh; [|reflexivity].
      apply hsync_window_iff in Eh. lia.
    + destruct (hsync_window t) eqn:Eh; [|reflexivity].
      apply hsync_window_iff in Eh. lia.
Qed.

Lemma pal_modulate_line_layout_witness :
  ∃ v' s', pal_modulate (fun _ _ => 0) (ref_crt 100) (ref_frame 0x16)
           = Some (v', s') ∧
    field_initialized s' = 1 ∧
    ∀ n t, 0 ≤ n < PAL_VRES → 0 ≤ t < PAL_HRES →
      ∃ x, load (analog v') (n * PAL_HRES + t) = Some x ∧
        (¬ (PAL_TOP ≤ n < PAL_TOP + PAL_LINES) → x = skeleton n t) ∧
        (PAL_TOP ≤ n < PAL_TOP + PAL_LINES → 10 ≤ n →
           (t < SYNC_BEG → x = BLANK_LEVEL) ∧
           (SYNC_BEG ≤ t < CB_BEG → x = SYNC_LEVEL) ∧
           (CB_BEG + CB_CYCLES * PAL_CB_FREQ ≤ t < AV_X0 → x = BLANK_LEVEL) ∧
           (AV_X0 + AV_LEN ≤ t → x = BLANK_LEVEL)).
Proof.
  apply (pal_modulate_line_layout (fun _ _ => 0) (ref_crt 100)
           (ref_frame 0x16) pal_ref_wf (ref_frame_ok 0x16)
           (ref_int_ranges 100 0x16 ltac:(lia))
           (ref_crt_length 100)).
  reflexivity.
Defined.

(** ** The encoder: calibration, repetition and uniform frames *)

Lemma group_has_line (top g : Z) :
  0 ≤ g < 6 → ∃ y, 0 ≤ y < 6 ∧ (y + top) mod 6 = g.
Proof.
  intros Hg. exists ((g - top) mod 6).
  split; [apply Z.mod_pos_bound; lia|].
  rewrite Z.add_mod_idemp_l by lia.
  replace (g - top + top) with g by lia. apply Z.mod_small. exact Hg.
Qed.

Lemma quadrant_has_sample (beg q : Z) :
  0 ≤ q < 4 → ∃ t, beg ≤ t < beg + 4 ∧ t mod 4 = q.
Proof.
  intros Hq. exists (beg + (q - beg) mod 4).
  pose proof (Z.mod_pos_bound (q - beg) 4).
  split; [lia|].
  rewrite Z.add_mod_idemp_r by lia.
  replace (beg + (q - beg)) with q by lia. apply Z.mod_small. exact Hq.
Qed.

(** With at least six picture lines and a burst of at least four
    samples, and inputs in the ranges in which the [int] arithmetic is
    exact (the hue at most 260000 in magnitude), every entry of [ccf[6][4]] is written from a burst sample:
    the exported table is the narrowed burst samples shifted left by 7,
    whatever the local table [iccf] held on entry, and every entry is a
    multiple of 128 between -16384 and 16256. *)
Theorem pal_modulate_ccf_determined `{PalCore} (iccf0 : Z → Z → Z)
    (v : PAL_CRT) (s : PAL_SETTINGS) :
  core_wf → source_ok s → int_ranges v s →
  Z.of_nat (length (analog v)) = PAL_VRES * PAL_HRES →
  6 ≤ PAL_LINES → 4 ≤ CB_CYCLES * PAL_CB_FREQ →
  ∃ v' s', pal_modulate iccf0 v s = Some (v', s') ∧
    ∀ g q, 0 ≤ g < 6 → 0 ≤ q < 4 →
      ccf v' g q
      = Z.shiftl (schar (Z.shiftr (BLANK_LEVEL
                                   + ccburst_of (hue s) g q * BURST_LEVEL) 5)) 7
      ∧ -16384 ≤ ccf v' g q ≤ 16256.
Proof.
  intros Hwf Hsrc Hint Hlen H6 H4.
  destruct (pal_modulate_done Hwf iccf0 v s Hsrc Hlen)
    as (a0 & a' & m & _ & _ & E & _ & _ & IC).
  eexists _, _. split; [exact E|]. simpl ccf.
  intros g q Hg Hq.
  destruct (group_has_line PAL_TOP g Hg) as (y & Hy & Ey).
  destruct (quadrant_has_sample CB_BEG q Hq) as (t & Ht & Et).
  assert (Em : m g q = schar (burst_sample (hue s) g q)).
  { rewrite <- Ey, <- Et. apply (ic_set _ _ _ _ IC); unfold CB_END; lia. }
  rewrite export_ccf_at, Em by assumption.
  split; [reflexivity|].
  pose proof (schar_range (burst_sample (hue s) g q)).
  rewrite Z.shiftl_mul_pow2 by lia. change (2 ^ 7) with 128. lia.
Qed.

Lemma pal_modulate_ccf_determined_witness :
  ∃ v' s', pal_modulate (fun _ _ => 0) (ref_crt 100) (ref_frame 0x16)
           = Some (v', s') ∧
    ∀ g q, 0 ≤ g < 6 → 0 ≤ q < 4 →
      ccf v' g q
      = Z.shiftl (schar (Z.shiftr (BLANK_LEVEL
                                   + ccburst_of (hue (ref_frame 0x16)) g q
                                     * BURST_LEVEL) 5)) 7
      ∧ -16384 ≤ ccf v' g q ≤ 16256.
Proof.
  apply (pal_modulate_ccf_determined (fun _ _ => 0) (ref_crt 100)
           (ref_frame 0x16) pal_ref_wf (ref_frame_ok 0x16)
           (ref_int_ranges 100 0x16 ltac:(lia))
           (ref_crt_length 100)); vm_compute; discriminate.
Defined.

(** A second call of [pal_modulate] on the result of a first one, the
    source frame and the black and white points unchanged and in the
    ranges in which the [int] arithmetic is exact, leaves the
    whole buffer as it is, the active video included. *)
Theorem pal_modulate_second_call `{PalCore} (iccf0 iccf1 : Z → Z → Z)
    (v : PAL_CRT) (s : PAL_SETTINGS) :
  core_wf → source_ok s → int_ranges v s →
  Z.of_nat (length (analog v)) = PAL_VRES * PAL_HRES →
  ∃ v1 s1 v2,
    pal_modulate iccf0 v s = Some (v1, s1) ∧
    pal_modulate iccf1 v1 s1 = Some (v2, s1) ∧
    analog v2 = analog v1 ∧
    black_point v2 = black_point v ∧ white_point v2 = white_point v.
Proof.
  intros Hwf Hsrc Hint Hlen.
  destruct (pal_modulate_done Hwf iccf0 v s Hsrc Hlen)
    as (a0 & a1 & m1 & _ & _ & E1 & L0 & FD1 & _).
  set (v1 := mkCRT a1 (black_point v) (white_point v)
                   (export_ccf m1 (ccf v)) 6) in *.
  pose proof (latched_initialized s) as Hfi.
  destruct (latched_fields s) as (Ed & Ew & Eh & Ehu).
  assert (Hsrc1 : source_ok (latched s)).
  { unfold source_ok. rewrite Ed, Ew, Eh. exact Hsrc. }
  assert (Hlen1 : Z.of_nat (length (analog v1)) = PAL_VRES * PAL_HRES).
  { simpl. rewrite (fd_length _ _ _ _ _ FD1). exact L0. }
  destruct (pal_modulate_done Hwf iccf1 v1 (latched s) Hsrc1 Hlen1)
    as (b0 & a2 & m2 & Hb0 & _ & E2 & _ & FD2 & _).
  assert (Hl : latched (latched s) = latched s).
  { unfold latched at 1.
    destruct (Z.eqb_spec (field_initialized (latched s)) 0); [lia | reflexivity]. }
  destruct (Z.eqb_spec (field_initialized (latched s)) 0) as [?|_]; [lia|].
  subst b0. rewrite Hl in E2.
  exists v1, (latched s). eexists.
  split; [exact E1|]. split; [exact E2|]. simpl.
  split; [|split; reflexivity].
  destruct (windows_ordered Hwf) as (O1 & O2 & O3 & O4 & O5 & O6).
  apply field_ext; [apply (wf_hres Hwf) | | exact Hlen1 |].
  { rewrite (fd_length _ _ _ _ _ FD2). exact Hlen1. }
  intros n t Hn Ht. simpl.
  assert (Hdec : (PAL_TOP ≤ n < PAL_TOP + PAL_LINES
                  ∧ (BW_BEG ≤ t < CB_END ∨ AV_X0 ≤ t < AV_X0 + AV_LEN))
                 ∨ ¬ (PAL_TOP ≤ n < PAL_TOP + PAL_LINES
                      ∧ (BW_BEG ≤ t < CB_END ∨ AV_X0 ≤ t < AV_X0 + AV_LEN)))
    by lia.
  destruct Hdec as [(Hpic & Hwin) | Hno];
    [| apply (fd_out _ _ _ _ _ FD2 n t Ht Hno)].
  replace n with (n - PAL_TOP + PAL_TOP) by lia.
  destruct Hwin as [Hw|Hw]; [destruct (Z_lt_dec t CB_BEG)|].
  - rewrite (fd_sync _ _ _ _ _ FD2), (fd_sync _ _ _ _ _ FD1) by lia.
    reflexivity.
  - rewrite (fd_burst _ _ _ _ _ FD2), (fd_burst _ _ _ _ _ FD1) by lia.
    rewrite Ehu. reflexivity.
  - replace t with (AV_X0 + (t - AV_X0)) by lia.
    rewrite (fd_active _ _ _ _ _ FD2), (fd_active _ _ _ _ _ FD1) by lia.
    do 2 f_equal. unfold active_sample, fetch_index.
    rewrite Ed, Ew, Eh. reflexivity.
Qed.

Lemma pal_modulate_second_call_witness :
  ∃ v1 s1 v2,
    pal_modulate (fun _ _ => 0) (ref_crt 100) (ref_frame 0x16) = Some (v1, s1) ∧
    pal_modulate (fun _ _ => 1) v1 s1 = Some (v2, s1) ∧
    analog v2 = analog v1 ∧
    black_point v2 = black_point (ref_crt 100) ∧
    white_point v2 = white_point (ref_crt 100).
Proof.
  apply (pal_modulate_second_call (fun _ _ => 0) (fun _ _ => 1) (ref_crt 100)
           (ref_frame 0x16) pal_ref_wf (ref_frame_ok 0x16) (ref_int_ranges 100 0x16 ltac:(lia)) (ref_crt_length 100)).
Defined.

(** The sample of a column when every pixel of the frame is [c]. *)
Lemma uniform_active_sample `{PalCore} (v : PAL_CRT) (s : PAL_SETTINGS)
    (c y x : Z) :
  core_wf → source_ok s →
  (∀ i q, tbl_get (data s) i = Some q → q = c) →
  0 ≤ y < PAL_LINES → 0 ≤ x < AV_LEN →
  active_sample v s y x
  = default 0 (pixel_ire (black_point v) (white_point v) c
                         (start_phase (y + PAL_TOP) + 3 * x)).
Proof.
  intros Hwf (Hw & Hh & Hd) Hc Hy Hx.
  destruct (fetch_in_frame s y x (wf_lines Hwf) (wf_av_len Hwf) Hw Hh Hy Hx)
    as (_ & Ri).
  destruct (tbl_get_is_Some (data s) (fetch_index s y x)) as (p & Hp); [lia|].
  unfold active_sample. rewrite Hp. simpl.
  rewrite (Hc _ _ Hp). reflexivity.
Qed.

Lemma start_phase_shift12 `{PalCore} (n : Z) :
  start_phase (n + 12) = start_phase n.
Proof.
  unfold start_phase.
  replace (n + 12) with (n + 1 * 12) at 1 by lia.
  replace (n + 12) with (n + 2 * 6) by lia.
  rewrite !Z_mod_plus_full. reflexivity.
Qed.

(** When every pixel of the source frame is one and the same code, and
    the inputs are in the ranges in which the [int] arithmetic is exact,
    the active video repeats every 4 columns along a line and every 12 lines
    down a column. *)
Theorem pal_modulate_uniform_pattern `{PalCore} (iccf0 : Z → Z → Z)
    (v : PAL_CRT) (s : PAL_SETTINGS) (c : Z) :
  core_wf → source_ok s → int_ranges v s →
  Z.of_nat (length (analog v)) = PAL_VRES * PAL_HRES →
  (∀ i q, tbl_get (data s) i = Some q → q = c) →
  ∃ v' s', pal_modulate iccf0 v s = Some (v', s') ∧
    (∀ y x, 0 ≤ y < PAL_LINES → 0 ≤ x → x + 4 < AV_LEN →
       load (analog v') (x + 4 + AV_X0 + (y + PAL_TOP) * PAL_HRES)
       = load (analog v') (x + AV_X0 + (y + PAL_TOP) * PAL_HRES)) ∧
    (∀ y x, 0 ≤ y → y + 12 < PAL_LINES → 0 ≤ x < AV_LEN →
       load (analog v') (x + AV_X0 + (y + 12 + PAL_TOP) * PAL_HRES)
       = load (analog v') (x + AV_X0 + (y + PAL_TOP) * PAL_HRES)).
Proof.
  intros Hwf Hsrc Hint Hlen Hc.
  destruct (pal_modulate_done Hwf iccf0 v s Hsrc Hlen)
    as (a0 & a' & m & _ & _ & E & _ & FD & _).
  eexists _, _. split; [exact E|]. simpl analog.
  assert (Hat : ∀ y x, 0 ≤ y < PAL_LINES → 0 ≤ x < AV_LEN →
            load a' (x + AV_X0 + (y + PAL_TOP) * PAL_HRES)
            = Some (schar (default 0
                (pixel_ire (black_point v) (white_point v) c
                           (start_phase (y + PAL_TOP) + 3 * x))))).
  { intros y x Hy Hx.
    replace (x + AV_X0 + (y + PAL_TOP) * PAL_HRES)
      with ((y + PAL_TOP) * PAL_HRES + (AV_X0 + x)) by lia.
    rewrite (fd_active _ _ _ _ _ FD y x Hy Hx).
    rewrite (uniform_active_sample v s c y x Hwf Hsrc Hc Hy Hx). reflexivity. }
  split.
  - intros y x Hy Hx0 Hx4.
    rewrite (Hat y (x + 4)), (Hat y x) by lia.
    pose proof (start_phase_range (y + PAL_TOP)).
    replace (start_phase (y + PAL_TOP) + 3 * (x + 4))
      with (start_phase (y + PAL_TOP) + 3 * x + 12) by lia.
    rewrite pixel_ire_shift12 by lia. reflexivity.
  - intros y x Hy0 Hy12 Hx.
    rewrite (Hat (y + 12) x), (Hat y x) by lia.
    replace (y + 12 + PAL_TOP) with (y + PAL_TOP + 12) by lia.
    rewrite start_phase_shift12. reflexivity.
Qed.

Lemma pal_modulate_uniform_pattern_witness :
  ∃ v' s', pal_modulate (fun _ _ => 0) (ref_crt 100) (ref_frame 0x16)
           = Some (v', s') ∧
    (∀ y x, 0 ≤ y < PAL_LINES → 0 ≤ x → x + 4 < AV_LEN →
       load (analog v') (x + 4 + AV_X0 + (y + PAL_TOP) * PAL_HRES)
       = load (analog v') (x + AV_X0 + (y + PAL_TOP) * PAL_HRES)) ∧
    (∀ y x, 0 ≤ y → y + 12 < PAL_LINES → 0 ≤ x < AV_LEN →
       load (analog v') (x + AV_X0 + (y + 12 + PAL_TOP) * PAL_HRES)
       = load (analog v') (x + AV_X0 + (y + PAL_TOP) * PAL_HRES)).
Proof.
  apply (pal_modulate_uniform_pattern (fun _ _ => 0) (ref_crt 100)
           (ref_frame 0x16) 0x16 pal_ref_wf (ref_frame_ok 0x16)
           (ref_int_ranges 100 0x16 ltac:(lia))
           (ref_crt_length 100) (ref_frame_pixels 0x16)).
Defined.

(** A frame of the hues 0x0e and 0x0f ("the last two columns are black"):
    on inputs in the ranges in which the [int] arithmetic is exact,
    every active-video sample is the black level alone, rescaled:
    [((BLACK_LEVEL + black_point) * white_point / 110) >> 12], whatever
    the emphasis and luma bits of the pixels. *)
Theorem pal_modulate_black_hues `{PalCore} (iccf0 : Z → Z → Z)
    (v : PAL_CRT) (s : PAL_SETTINGS) :
  core_wf → source_ok s → int_ranges v s →
  Z.of_nat (length (analog v)) = PAL_VRES * PAL_HRES →
  (∀ i q, tbl_get (data s) i = Some q → 14 ≤ Z.land q 15) →
  ∃ v' s', pal_modulate iccf0 v s = Some (v', s') ∧
    ∀ y x, 0 ≤ y < PAL_LINES → 0 ≤ x < AV_LEN →
      load (analog v') (x + AV_X0 + (y + PAL_TOP) * PAL_HRES)
      = Some (schar (Z.shiftr ((BLACK_LEVEL + black_point v)
                               * white_point v ÷ 110) 12)).
Proof.
  intros Hwf Hsrc Hint Hlen Hblack.
  destruct (pal_modulate_done Hwf iccf0 v s Hsrc Hlen)
    as (a0 & a' & m & _ & _ & E & _ & FD & _).
  eexists _, _. split; [exact E|]. simpl analog.
  intros y x Hy Hx.
  destruct (active_sample_value v s y x Hwf Hsrc Hy Hx)
    as (p & s0 & s1 & s2 & s3 & Hp & E0 & E1 & E2 & E3 & _ & Hv).
  apply Hblack in Hp.
  assert (Hz : ∀ ph, square_sample p ph = Some 0).
  { intros ph. unfold square_sample.
    destruct (Z.leb_spec 14 (Z.land p 15)); [reflexivity | lia]. }
  rewrite Hz in E0, E1, E2, E3.
  injection E0 as <-. injection E1 as <-. injection E2 as <-.
  injection E3 as <-.
  replace (x + AV_X0 + (y + PAL_TOP) * PAL_HRES)
    with ((y + PAL_TOP) * PAL_HRES + (AV_X0 + x)) by lia.
  rewrite (fd_active _ _ _ _ _ FD y x Hy Hx), Hv.
  replace (BLACK_LEVEL + black_point v + 0 + 0 + 0 + 0)
    with (BLACK_LEVEL + black_point v) by lia.
  reflexivity.
Qed.

Lemma pal_modulate_black_hues_witness :
  ∃ v' s', pal_modulate (fun _ _ => 0) (ref_crt 100) (ref_frame 0x1ff)
           = Some (v', s') ∧
    ∀ y x, 0 ≤ y < PAL_LINES → 0 ≤ x < AV_LEN →
      load (analog v') (x + AV_X0 + (y + PAL_TOP) * PAL_HRES)
      = Some (schar (Z.shiftr ((BLACK_LEVEL + black_point (ref_crt 100))
                               * white_point (ref_crt 100) ÷ 110) 12)).
Proof.
  apply (pal_modulate_black_hues (fun _ _ => 0) (ref_crt 100)
           (ref_frame 0x1ff) pal_ref_wf (ref_frame_ok 0x1ff)
           (ref_int_ranges 100 0x1ff ltac:(lia))
           (ref_crt_length 100)).
  intros i q Hq. rewrite (ref_frame_pixels 0x1ff i q Hq).
  vm_compute. discriminate.
Defined.

(** ** Resampling of the source frame *)

Lemma scale_mono (k A x x' : Z) :
  0 ≤ k → 0 < A → 0 ≤ x ≤ x' → x * k ÷ A ≤ x' * k ÷ A.
Proof.
  intros Hk HA Hx. apply Z.quot_le_mono; [lia|].
  apply Z.mul_le_mono_nonneg_r; lia.
Qed.

Lemma scale_onto (k A c : Z) :
  1 ≤ k → k ≤ A → 0 ≤ c < k →
  ∃ x, 0 ≤ x < A ∧ x * k ÷ A = c.
Proof.
  intros Hk HA Hc.
  set (x := (c * A + k - 1) / k).
  pose proof (Z.div_mod (c * A + k - 1) k ltac:(lia)) as Hdm.
  pose proof (Z.mod_pos_bound (c * A + k - 1) k ltac:(lia)) as Hm.
  fold x in Hdm.
  assert (Hx0 : 0 ≤ x) by (apply Z.div_pos; nia).
  assert (Hlo : c * A ≤ x * k) by lia.
  assert (Hhi : x * k < c * A + A) by lia.
  exists x. split.
  - split; [exact Hx0|]. nia.
  - rewrite Z.quot_div_nonneg by nia.
    symmetry. apply (Z.div_unique (x * k) A c (x * k - c * A)); lia.
Qed.

(** For a frame whose products [PAL_LINES * h] and [AV_LEN * w] fit an
    [int], the source rows and columns read by the successive output
    lines and columns of the loops never go back, they start at row and
    column 0, the rows are those that the wrapped 32-bit arithmetic
    computes, and when the output is at least as high (wide) as the
    source no source row (column) is skipped. *)
Theorem resampling_monotone_onto `{PalCore} (s : PAL_SETTINGS) :
  0 < PAL_LINES → 0 < AV_LEN → 1 ≤ w s → 1 ≤ h s →
  PAL_LINES * h s ≤ Checked.INT_MAX →
  AV_LEN * w s ≤ Checked.INT_MAX →
  (∀ y y', 0 ≤ y ≤ y' → y' < PAL_LINES →
           source_row s PAL_LINES y ≤ source_row s PAL_LINES y') ∧
  (∀ x x', 0 ≤ x ≤ x' → x' < AV_LEN →
           x * w s ÷ AV_LEN ≤ x' * w s ÷ AV_LEN) ∧
  (∀ y, 0 ≤ y < PAL_LINES →
        Wrapped.source_row s PAL_LINES y = source_row s PAL_LINES y) ∧
  (∀ x, 0 ≤ x < AV_LEN →
        Wrapped.int (Wrapped.int (x * w s) ÷ AV_LEN) = x * w s ÷ AV_LEN) ∧
  source_row s PAL_LINES 0 = 0 ∧
  (h s ≤ PAL_LINES →
   ∀ r, 0 ≤ r < h s →
        ∃ y, 0 ≤ y < PAL_LINES ∧ source_row s PAL_LINES y = r) ∧
  (w s ≤ AV_LEN →
   ∀ c, 0 ≤ c < w s → ∃ x, 0 ≤ x < AV_LEN ∧ x * w s ÷ AV_LEN = c).
Proof.
  unfold Checked.INT_MAX. intros Hl Ha Hw Hh B1 B2.
  split; [|split; [|split; [|split; [|split; [|split]]]]].
  - intros y y' Hy _. unfold source_row. apply scale_mono; lia.
  - intros x x' Hx _. apply scale_mono; lia.
  - intros y Hy.
    destruct (source_row_floor s y Hl Hh Hy) as (E1 & R1 & _).
    assert (0 ≤ y * h s ≤ PAL_LINES * h s)
      by (split; [nia | apply Z.mul_le_mono_nonneg_r; lia]).
    unfold Wrapped.source_row.
    rewrite (wrapped_int_id (y * h s))
      by (unfold Checked.INT_MIN, Checked.INT_MAX; lia).
    fold (source_row s PAL_LINES y).
    apply wrapped_int_id. unfold Checked.INT_MIN, Checked.INT_MAX. nia.
  - intros x Hx.
    destruct (source_col_floor s x Ha Hw Hx) as (E2 & R2).
    assert (0 ≤ x * w s ≤ AV_LEN * w s)
      by (split; [nia | apply Z.mul_le_mono_nonneg_r; lia]).
    rewrite (wrapped_int_id (x * w s))
      by (unfold Checked.INT_MIN, Checked.INT_MAX; lia).
    apply wrapped_int_id. unfold Checked.INT_MIN, Checked.INT_MAX. nia.
  - reflexivity.
  - intros Hle r Hr. unfold source_row. apply scale_onto; lia.
  - intros Hle c Hc. apply scale_onto; lia.
Qed.

Lemma resampling_monotone_onto_witness :
  (∀ y y', 0 ≤ y ≤ y' → y' < PAL_LINES →
           source_row (ref_frame 0) PAL_LINES y
           ≤ source_row (ref_frame 0) PAL_LINES y') ∧
  (∀ x x', 0 ≤ x ≤ x' → x' < AV_LEN →
           x * w (ref_frame 0) ÷ AV_LEN ≤ x' * w (ref_frame 0) ÷ AV_LEN) ∧
  (∀ y, 0 ≤ y < PAL_LINES →
        Wrapped.source_row (ref_frame 0) PAL_LINES y
        = source_row (ref_frame 0) PAL_LINES y) ∧
  (∀ x, 0 ≤ x < AV_LEN →
        Wrapped.int (Wrapped.int (x * w (ref_frame 0)) ÷ AV_LEN)
        = x * w (ref_frame 0) ÷ AV_LEN) ∧
  source_row (ref_frame 0) PAL_LINES 0 = 0 ∧
  (h (ref_frame 0) ≤ PAL_LINES →
   ∀ r, 0 ≤ r < h (ref_frame 0) →
        ∃ y, 0 ≤ y < PAL_LINES ∧ source_row (ref_frame 0) PAL_LINES y = r) ∧
  (w (ref_frame 0) ≤ AV_LEN →
   ∀ c, 0 ≤ c < w (ref_frame 0) →
        ∃ x, 0 ≤ x < AV_LEN ∧ x * w (ref_frame 0) ÷ AV_LEN = c).
Proof.
  apply (resampling_monotone_onto (ref_frame 0)); reflexivity || discriminate.
Defined.

(** The clamping of the source row at its two ends.  For a source of
    height 0 or less, every output line reads row 0.  A row at or beyond
    a height [h >= 0] is clamped to [h] itself, one past the last row:
    it is the bound on [y], not the clamp, that keeps the fetch inside
    the frame. *)
Theorem clamp_row_edges `{PalCore} (s : PAL_SETTINGS) :
  0 < PAL_LINES →
  (h s ≤ 0 → ∀ y, 0 ≤ y < PAL_LINES →
     clamp_row s (source_row s PAL_LINES y) = 0) ∧
  (0 ≤ h s → ∀ sy, h s ≤ sy → clamp_row s sy = h s).
Proof.
  intros Hl. split.
  - intros Hh y Hy. unfold source_row, clamp_row.
    replace (y * h s) with (- (y * - h s)) by lia.
    rewrite Z.quot_opp_l by lia.
    rewrite Z.quot_div_nonneg by nia.
    assert (Hq : 0 ≤ y * - h s / PAL_LINES ≤ - h s).
    { split; [apply Z.div_pos; nia|].
      apply Z.div_le_upper_bound; [lia | nia]. }
    destruct (Z.leb_spec (h s) (- (y * - h s / PAL_LINES))); [|lia].
    destruct (Z.ltb_spec (h s) 0); lia.
  - intros Hh sy Hsy. unfold clamp_row.
    destruct (Z.leb_spec (h s) sy); [|lia].
    destruct (Z.ltb_spec (h s) 0); lia.
Qed.

Lemma clamp_row_edges_witness :
  (h (mkSettings [] 256 0 0 0) ≤ 0 → ∀ y, 0 ≤ y < PAL_LINES →
     clamp_row (mkSettings [] 256 0 0 0)
               (source_row (mkSettings [] 256 0 0 0) PAL_LINES y) = 0) ∧
  (0 ≤ h (mkSettings [] 256 0 0 0) → ∀ sy,
     h (mkSettings [] 256 0 0 0) ≤ sy →
     clamp_row (mkSettings [] 256 0 0 0) sy = h (mkSettings [] 256 0 0 0)).
Proof. apply (clamp_row_edges (mkSettings [] 256 0 0 0)). reflexivity. Defined.

(** The index arithmetic of a fetch stays inside the 32-bit range when
    the products [PAL_LINES * h], [AV_LEN * w] and [w * h] do: the
    checked computation gives the index that the encoder uses. *)
Theorem fetch_no_overflow `{PalCore} (s : PAL_SETTINGS) (y x : Z) :
  0 < PAL_LINES → 0 < AV_LEN → 1 ≤ w s → 1 ≤ h s →
  PAL_LINES * h s ≤ 2147483647 →
  AV_LEN * w s ≤ 2147483647 →
  w s * h s ≤ 2147483647 →
  0 ≤ y < PAL_LINES → 0 ≤ x < AV_LEN →
  CheckedFetch.fetch s AV_LEN PAL_LINES y x
  = Some (x * w s ÷ AV_LEN + clamp_row s (source_row s PAL_LINES y) * w s).
Proof.
  intros Hl Ha Hw Hh B1 B2 B3 Hy Hx.
  destruct (source_row_floor s y Hl Hh Hy) as (E1 & R1 & C1).
  destruct (source_col_floor s x Ha Hw Hx) as (E2 & R2).
  assert (A1 : 0 ≤ y * h s ≤ PAL_LINES * h s)
    by (split; [nia | apply Z.mul_le_mono_nonneg_r; lia]).
  assert (A2 : 0 ≤ x * w s ≤ AV_LEN * w s)
    by (split; [nia | apply Z.mul_le_mono_nonneg_r; lia]).
  assert (A3 : 0 ≤ source_row s PAL_LINES y * w s ≤ h s * w s)
    by (split; [nia | apply Z.mul_le_mono_nonneg_r; lia]).
  assert (A4 : w s * h s = h s * w s) by lia.
  unfold CheckedFetch.fetch, Checked.mul, Checked.div, Checked.add.
  rewrite (int_ok (y * h s))
    by (unfold Checked.INT_MIN, Checked.INT_MAX; lia). simpl.
  destruct (Z.eqb_spec PAL_LINES 0) as [?|_]; [lia|].
  fold (source_row s PAL_LINES y).
  rewrite (int_ok (source_row s PAL_LINES y))
    by (unfold Checked.INT_MIN, Checked.INT_MAX; nia). simpl.
  change (CheckedFetch.clamp (h s) (source_row s PAL_LINES y))
    with (clamp_row s (source_row s PAL_LINES y)).
  rewrite C1.
  rewrite (int_ok (source_row s PAL_LINES y * w s))
    by (unfold Checked.INT_MIN, Checked.INT_MAX; lia). simpl.
  rewrite (int_ok (x * w s))
    by (unfold Checked.INT_MIN, Checked.INT_MAX; lia). simpl.
  destruct (Z.eqb_spec AV_LEN 0) as [?|_]; [lia|].
  rewrite (int_ok (x * w s ÷ AV_LEN))
    by (unfold Checked.INT_MIN, Checked.INT_MAX; nia). simpl.
  apply int_ok. unfold Checked.INT_MIN, Checked.INT_MAX. nia.
Qed.

Lemma fetch_no_overflow_witness :
  CheckedFetch.fetch (ref_frame 0) AV_LEN PAL_LINES 289 921
  = Some (921 * w (ref_frame 0) ÷ AV_LEN
          + clamp_row (ref_frame 0) (source_row (ref_frame 0) PAL_LINES 289)
            * w (ref_frame 0)).
Proof.
  apply (fetch_no_overflow (ref_frame 0) 289 921);
    first [reflexivity | discriminate | split; (reflexivity || discriminate)].
Defined.

(** ** The burst angle *)

(** For a hue setting of at most 260000 in magnitude, no [int] operation
    of the computation of the burst angle leaves the 32-bit range, the
    product by 8192 included: the checked computation gives the argument
    that [ccburst_of] passes to [pal_sincos14]. *)
Theorem burst_angle_no_overflow `{PalCore} (hue y x : Z) :
  -260000 ≤ hue ≤ 260000 →
  0 ≤ y < 6 → 0 ≤ x < 4 →
  CheckedBurst.angle hue y x
  = Some ((y * (360 ÷ 6) + hue + x * 90 + 135 + bsign_of y * 60) * 8192 ÷ 180)
  ∧ ccburst_of hue y x
    = Z.shiftr (pal_sincos14 ((y * (360 ÷ 6) + hue + x * 90 + 135
                               + bsign_of y * 60) * 8192 ÷ 180)).1 10.
Proof.
  intros Hh Hy Hx. split; [|reflexivity].
  assert (Hb : bsign_of y = 1 ∨ bsign_of y = -1)
    by (unfold bsign_of; destruct (Z.land y 1 =? 0); auto).
  unfold CheckedBurst.angle, Checked.mul, Checked.add, Checked.div.
  fold (bsign_of y). change (360 ÷ 6) with 60.
  rewrite (int_ok (y * 60))
    by (unfold Checked.INT_MIN, Checked.INT_MAX; lia). simpl.
  rewrite (int_ok (y * 60 + hue))
    by (unfold Checked.INT_MIN, Checked.INT_MAX; lia). simpl.
  rewrite (int_ok (x * 90))
    by (unfold Checked.INT_MIN, Checked.INT_MAX; lia). simpl.
  rewrite (int_ok (y * 60 + hue + x * 90))
    by (unfold Checked.INT_MIN, Checked.INT_MAX; lia). simpl.
  rewrite (int_ok (y * 60 + hue + x * 90 + 135))
    by (unfold Checked.INT_MIN, Checked.INT_MAX; lia). simpl.
  rewrite (int_ok (bsign_of y * 60))
    by (unfold Checked.INT_MIN, Checked.INT_MAX; lia). simpl.
  rewrite (int_ok (y * 60 + hue + x * 90 + 135 + bsign_of y * 60))
    by (unfold Checked.INT_MIN, Checked.INT_MAX; lia). simpl.
  assert (Hm : -2147483647 ≤ (y * 60 + hue + x * 90 + 135 + bsign_of y * 60)
                             * 8192 ≤ 2147483647) by lia.
  rewrite (int_ok ((y * 60 + hue + x * 90 + 135 + bsign_of y * 60) * 8192))
    by (unfold Checked.INT_MIN, Checked.INT_MAX; lia). simpl.
  apply int_ok. unfold Checked.INT_MIN, Checked.INT_MAX.
  pose proof (Z.quot_le_mono _ _ 180 ltac:(lia) (proj1 Hm)).
  pose proof (Z.quot_le_mono _ _ 180 ltac:(lia) (proj2 Hm)).
  change (-2147483647 ÷ 180) with (-11930464) in *.
  change (2147483647 ÷ 180) with 11930464 in *. lia.
Qed.

Lemma burst_angle_no_overflow_witness :
  CheckedBurst.angle 0 5 3
  = Some ((5 * (360 ÷ 6) + 0 + 3 * 90 + 135 + bsign_of 5 * 60) * 8192 ÷ 180)
  ∧ ccburst_of 0 5 3
    = Z.shiftr (pal_sincos14 ((5 * (360 ÷ 6) + 0 + 3 * 90 + 135
                               + bsign_of 5 * 60) * 8192 ÷ 180)).1 10.
Proof. apply (burst_angle_no_overflow 0 5 3); lia. Defined.
